(** * strong-fetch: timeout, retry, auth, proxy and refresh wrappers

    A shallow embedding of [src/index.ts] (and of the hand-written
    [index.js] where the two differ) together with the properties the
    specification states about the five wrappers.

    Layout:
    - [Js]: the fragment of JavaScript values, errors and truthiness used;
    - [Async]: promises as a state-and-error monad over an explicit world
      (timers, transport log, console), with [try]/[catch]/[finally];
    - [Wrappers]: [fetchWithTimeout], [fetchWithRetry], [addHeader],
      [fetchByProxy], written statement by statement after the source;
    - [Flight]: the promise heap shared by the two [update] closures;
    - [fetchWithAuth], [fixedRefresh]: the closures these two return, as
      event-driven machines of the single-threaded event loop, one step
      per run-to-completion segment. *)

From Stdlib Require Import ZArith String Ascii List Bool Lia.
From stdpp Require Import base option list.
Import ListNotations.

Local Open Scope string_scope.
Local Open Scope list_scope.
Local Open Scope Z_scope.

(** ** JavaScript values *)

Module Js.

(** [number]: the integers and [NaN].  Fractions and infinities are left
    out; no wrapper computes with them. *)
Inductive number : Type :=
| Num (z : Z)
| NaN.

Inductive jsval : Type :=
| VUndefined
| VNull
| VBool (b : bool)
| VNum (n : number)
| VStr (s : string)
| VObj (id : nat).

Definition number_truthy (n : number) : bool :=
  match n with
  | Num z => negb (z =? 0)
  | NaN => false
  end.

(** ToBoolean. *)
Definition truthy (v : jsval) : bool :=
  match v with
  | VUndefined | VNull => false
  | VBool b => b
  | VNum n => number_truthy n
  | VStr s => negb (String.eqb s "")
  | VObj _ => true
  end.

(** [x || d] where [x] is an optional number ([x?: number]). *)
Definition or_default (x : option number) (d : number) : number :=
  match x with
  | Some n => if number_truthy n then n else d
  | None => d
  end.

(** A default parameter value [p = d]: used when the argument is absent. *)
Definition param_default {A : Type} (x : option A) (d : A) : A :=
  match x with
  | Some a => a
  | None => d
  end.

Inductive error_class : Type :=
| ClsError
| ClsTypeError
| ClsAbortError
| ClsFetchError.

Record jserror : Type := MkError {
  err_class : error_class;
  err_message : string
}.

(** [err instanceof AbortError] *)
Definition instanceof_AbortError (e : jserror) : bool :=
  match err_class e with
  | ClsAbortError => true
  | _ => false
  end.

(** [new Error(msg)] *)
Definition new_Error (msg : string) : jserror := MkError ClsError msg.

(** What node-fetch rejects with once its signal is aborted. *)
Definition abort_error : jserror :=
  MkError ClsAbortError "The operation was aborted.".

(** Reading a property of [undefined]. *)
Definition undefined_property (p : string) : jserror :=
  MkError ClsTypeError
    (String.append "Cannot read properties of undefined (reading '"
       (String.append p "')")).

End Js.
Import Js.

(** ** Requests and responses *)

Definition Url : Type := string.

Record Response : Type := MkResponse {
  status : Z;
  body : string
}.

Definition ascii_lower (c : ascii) : ascii :=
  let n := nat_of_ascii c in
  if ((65 <=? n) && (n <=? 90))%nat then ascii_of_nat (n + 32) else c.

Fixpoint lower (s : string) : string :=
  match s with
  | EmptyString => EmptyString
  | String c s' => String (ascii_lower c) (lower s')
  end.

(** [Headers]: header names are case-insensitive and kept in lower case.
    Only the constructor, [set] and [get] are used by the wrappers.  A
    [Headers] object is held as its entries, one per name. *)
Definition Headers : Type := list (string * string).

(** What node-fetch lets into a [Headers] object: a name is a non-empty
    HTTP token (no character matching
    [/[^\^_`a-zA-Z\-0-9!#$%&'*+.|~]/]), a value holds no control character
    but the tab (no character matching [/[^\t\x20-\x7e\x80-\xff]/]). *)
Definition token_char (c : ascii) : bool :=
  let n := nat_of_ascii c in
  (((48 <=? n) && (n <=? 57)) || ((65 <=? n) && (n <=? 90))
   || ((97 <=? n) && (n <=? 122))
   || existsb (Nat.eqb n)
        [33; 35; 36; 37; 38; 39; 42; 43; 45; 46; 94; 95; 96; 124; 126])%nat.

Definition value_char (c : ascii) : bool :=
  let n := nat_of_ascii c in
  ((n =? 9) || ((32 <=? n) && (n <=? 126)) || (128 <=? n))%nat.

Fixpoint all_chars (p : ascii -> bool) (s : string) : bool :=
  match s with
  | EmptyString => true
  | String c s' => p c && all_chars p s'
  end.

Definition legal_header_name (k : string) : bool :=
  negb (String.eqb k "") && all_chars token_char k.

Definition legal_header_value (v : string) : bool :=
  all_chars value_char v.

Definition illegal_name (k : string) : jserror :=
  MkError ClsTypeError (String.append k " is not a legal HTTP header name").

Definition illegal_value (v : string) : jserror :=
  MkError ClsTypeError (String.append v " is not a legal HTTP header value").

Definition headers_get (k : string) (h : Headers) : option string :=
  match find (fun kv => String.eqb (fst kv) (lower k)) h with
  | Some kv => Some (snd kv)
  | None => None
  end.

(** The entries once [set(k, v)] has been let through: the name holds
    the one value [v]. *)
Definition headers_set (k v : string) (h : Headers) : Headers :=
  List.filter (fun kv => negb (String.eqb (fst kv) (lower k))) h
  ++ [(lower k, v)].

(** [h.set(k, v)]: the name and the value are validated first, and a
    [TypeError] is thrown for one that is not legal. *)
Definition Headers_set (k v : string) (h : Headers) : Headers + jserror :=
  if negb (legal_header_name k) then inr (illegal_name k)
  else if negb (legal_header_value v) then inr (illegal_value v)
  else inl (headers_set k v h).

(** [new Headers(init)] for the [headers] option of a caller.  Of the
    three forms the option may take, the one modelled is a [Headers]
    object (or nothing): its entries were validated and joined when it
    was built, so the constructor copies them.  The array and record
    forms, whose entries the constructor validates and whose repeated
    names it joins, are left out. *)
Definition new_Headers (h : Headers) : Headers :=
  map (fun kv => (lower (fst kv), snd kv)) h.

Record Agent : Type := MkAgent { agent_proxy : string }.

(** [RequestInit & { timeout?: number, proxyUrl?: string }].  [passthrough]
    holds the transport options no wrapper reads. *)
Record RequestInit : Type := MkInit {
  timeout : option number;
  headers : Headers;
  proxyUrl : option string;
  signal : option nat;
  agent : option Agent;
  passthrough : list (string * jsval)
}.

(** [{ signal }] *)
Definition only_signal (c : nat) : RequestInit :=
  MkInit None [] None (Some c) None [].

(** [{ ...init, signal }] *)
Definition with_signal (i : RequestInit) (c : nat) : RequestInit :=
  MkInit (timeout i) (headers i) (proxyUrl i) (Some c) (agent i)
         (passthrough i).

(** [{ headers }] *)
Definition only_headers (h : Headers) : RequestInit :=
  MkInit None h None None None [].

(** [{ ...init, headers }] *)
Definition with_headers (i : RequestInit) (h : Headers) : RequestInit :=
  MkInit (timeout i) h (proxyUrl i) (signal i) (agent i) (passthrough i).

(** [init.agent = agent] *)
Definition with_agent (i : RequestInit) (a : Agent) : RequestInit :=
  MkInit (timeout i) (headers i) (proxyUrl i) (signal i) (Some a)
         (passthrough i).

(** ** The world of one asynchronous call *)

(** What a timer's callback does: [controller.abort()] or [resolve()]. *)
Inductive timer_action : Type :=
| Abort (controller : nat)
| Wake.

Record Timer : Type := MkTimer {
  timer_id : nat;
  timer_arg : number;        (* the delay as passed to [setTimeout] *)
  timer_action_of : timer_action
}.

(** The two kinds of handle Node's timers module gives out. *)
Inductive handle : Type :=
| Timeout (id : nat)
| Immediate (id : nat).

Inductive log_entry : Type :=
| LogError (e : jserror)
| LogRetry (interval : Z).   (* `try again after ${interval}s` *)

Record World : Type := MkWorld {
  next_id : nat;                        (* fresh timer and controller ids *)
  timeouts : list Timer;                (* pending [Timeout] objects *)
  immediates : list nat;                (* pending [Immediate] objects *)
  armed : list Timer;                   (* every [setTimeout] call so far *)
  clock : Z;                            (* milliseconds elapsed *)
  requests : list (Url * RequestInit);  (* calls handed to the transport *)
  console : list log_entry;
  fun_calls : nat                       (* invocations of the operation *)
}.

Definition world0 : World := MkWorld 0 [] [] [] 0 [] [] 0.

(** [TIMEOUT_MAX] of Node's timers: a delay outside [1 .. 2^31-1], or
    [NaN], is set to 1. *)
Definition TIMEOUT_MAX : Z := 2147483647.

Definition timer_ms (n : number) : Z :=
  match n with
  | Num z => if (1 <=? z) && (z <=? TIMEOUT_MAX) then z else 1
  | NaN => 1
  end.

Definition timer_delay (t : Timer) : Z := timer_ms (timer_arg t).

Definition is_timer (id : nat) (t : Timer) : bool := Nat.eqb (timer_id t) id.

Definition drop_timer (id : nat) (l : list Timer) : list Timer :=
  List.filter (fun t => negb (is_timer id t)) l.

(** ** Promises as a monad *)

Module Async.

Inductive settled (A : Type) : Type :=
| Resolved (a : A)
| Rejected (e : jserror)
| Pending.                  (* never settles *)
Arguments Resolved {A} a.
Arguments Rejected {A} e.
Arguments Pending {A}.

Definition M (A : Type) : Type := World -> settled A * World.

Definition ret {A : Type} (a : A) : M A := fun w => (Resolved a, w).

(** [Promise.reject(e)] / [throw e] *)
Definition reject {A : Type} (e : jserror) : M A := fun w => (Rejected e, w).

(** [const x = await m; k x] *)
Definition bind {A B : Type} (m : M A) (k : A -> M B) : M B :=
  fun w =>
    match m w with
    | (Resolved a, w') => k a w'
    | (Rejected e, w') => (Rejected e, w')
    | (Pending, w') => (Pending, w')
    end.

(** [try { m } catch (err) { h err }] *)
Definition try_catch {A : Type} (m : M A) (h : jserror -> M A) : M A :=
  fun w =>
    match m w with
    | (Rejected e, w') => h e w'
    | r => r
    end.

(** [try { m } finally { f }]: [f] runs once [m] has settled, either way,
    and the outcome of [m] stands unless [f] itself fails. *)
Definition try_finally {A : Type} (m : M A) (f : M unit) : M A :=
  fun w =>
    match m w with
    | (Pending, w') => (Pending, w')
    | (r, w') =>
        match f w' with
        | (Resolved _, w'') => (r, w'')
        | (Rejected e, w'') => (Rejected e, w'')
        | (Pending, w'') => (Pending, w'')
        end
    end.

Definition modify (f : World -> World) : M unit :=
  fun w => (Resolved tt, f w).

End Async.
Import Async.

Notation "'let*' x := m 'in' k" := (bind m (fun x => k))
  (at level 10, x name, m at level 100, k at level 200).
Notation "m ';;' k" := (bind m (fun _ => k))
  (at level 100, k at level 200, right associativity).

(** ** World primitives: timers, console, transport *)

Definition set_timeouts (f : list Timer -> list Timer) (w : World) : World :=
  MkWorld (next_id w) (f (timeouts w)) (immediates w) (armed w) (clock w)
          (requests w) (console w) (fun_calls w).

Definition set_immediates (f : list nat -> list nat) (w : World) : World :=
  MkWorld (next_id w) (timeouts w) (f (immediates w)) (armed w) (clock w)
          (requests w) (console w) (fun_calls w).

Definition advance (ms : Z) (w : World) : World :=
  MkWorld (next_id w) (timeouts w) (immediates w) (armed w) (clock w + ms)
          (requests w) (console w) (fun_calls w).

Definition log_request (u : Url) (i : RequestInit) (w : World) : World :=
  MkWorld (next_id w) (timeouts w) (immediates w) (armed w) (clock w)
          (requests w ++ [(u, i)]) (console w) (fun_calls w).

Definition log_console (e : log_entry) (w : World) : World :=
  MkWorld (next_id w) (timeouts w) (immediates w) (armed w) (clock w)
          (requests w) (console w ++ [e]) (fun_calls w).

Definition count_call (w : World) : World :=
  MkWorld (next_id w) (timeouts w) (immediates w) (armed w) (clock w)
          (requests w) (console w) (S (fun_calls w)).

Definition arm (t : Timer) (w : World) : World :=
  MkWorld (S (next_id w)) (timeouts w ++ [t]) (immediates w) (armed w ++ [t])
          (clock w) (requests w) (console w) (fun_calls w).

(** The timer [t] comes due: time has moved on by its delay, its callback
    has run and it is no longer pending. *)
Definition fire (t : Timer) (w : World) : World :=
  advance (timer_delay t) (set_timeouts (drop_timer (timer_id t)) w).

(** [new AbortController()] *)
Definition new_AbortController : M nat :=
  fun w =>
    (Resolved (next_id w),
     MkWorld (S (next_id w)) (timeouts w) (immediates w) (armed w) (clock w)
             (requests w) (console w) (fun_calls w)).

(** [setTimeout(callback, delay)] *)
Definition setTimeout (act : timer_action) (delay : number) : M handle :=
  fun w => (Resolved (Timeout (next_id w)),
            arm (MkTimer (next_id w) delay act) w).

(** [clearTimeout(h)] cancels a [Timeout]. *)
Definition clearTimeout (h : handle) : M unit :=
  match h with
  | Timeout id => modify (set_timeouts (drop_timer id))
  | Immediate _ => ret tt
  end.

(** [clearImmediate(h)] is written for an [Immediate] created by
    [setImmediate], and does not look at the kind of object it is given:
    it marks the object destroyed and unlinks it from the list that holds
    it.  Given a pending [Timeout], that list is the timer list the
    [Timeout] waits in, so the [Timeout] never comes due; given one that
    has fired already, it returns at once.  (The count Node keeps of its
    pending [Immediate] objects, which the call lowers either way, is not
    part of the world.) *)
Definition clearImmediate (h : handle) : M unit :=
  match h with
  | Immediate id =>
      modify (set_immediates (List.filter (fun i => negb (Nat.eqb i id))))
  | Timeout id => modify (set_timeouts (drop_timer id))
  end.

(** [console.log] *)
Definition console_log (e : log_entry) : M unit := modify (log_console e).

(** [await new Promise((resolve) => setTimeout(resolve, ms))] *)
Definition sleep (ms : number) : M unit :=
  let* h := setTimeout Wake ms in
  fun w =>
    match h with
    | Timeout id =>
        match List.find (is_timer id) (timeouts w) with
        | Some t => (Resolved tt, fire t w)
        | None => (Pending, w)
        end
    | Immediate _ => (Pending, w)
    end.

(** The transport, a collaborator: left alone, a request settles after
    some milliseconds with a response or a failure, or never does. *)
Inductive behaviour : Type :=
| Settles (after : Z) (o : Response + jserror)
| NeverSettles.

Definition settle (o : Response + jserror) : settled Response :=
  match o with
  | inl r => Resolved r
  | inr e => Rejected e
  end.

Definition aborts (c : nat) (t : Timer) : bool :=
  match timer_action_of t with
  | Abort c' => Nat.eqb c' c
  | Wake => false
  end.

(** The operation handed to [fetchWithRetry]: what its n-th invocation
    does. *)
Inductive attempt (A : Type) : Type :=
| Returns (a : A)
| Throws (e : jserror)
| Hangs.
Arguments Returns {A} a.
Arguments Throws {A} e.
Arguments Hangs {A}.

(** ** The wrappers of [src/index.ts] *)

Section Wrappers.

Variable transport : Url -> RequestInit -> behaviour.

(** [await fetch(url, init)].  node-fetch honours [init.signal]: when the
    timer that aborts the signal comes due before the transport settles,
    the promise rejects with an [AbortError]. *)
Definition fetch (url : Url) (init : RequestInit) : M Response :=
  fun w =>
    let w1 := log_request url init w in
    let guard :=
      match signal init with
      | Some c => List.find (aborts c) (timeouts w1)
      | None => None
      end in
    match transport url init, guard with
    | Settles t o, Some tm =>
        if t <? timer_delay tm
        then (settle o, advance t w1)
        else (Rejected abort_error, fire tm w1)
    | Settles t o, None => (settle o, advance t w1)
    | NeverSettles, Some tm => (Rejected abort_error, fire tm w1)
    | NeverSettles, None => (Pending, w1)
    end.

(** [fetchWithTimeout], with the call of its [finally] block left open:
    [src/index.ts] calls [clearTimeout], [index.js] calls
    [clearImmediate]. *)
Definition fetchWithTimeout_with (clear : handle -> M unit)
    (url : Url) (init : option RequestInit) : M Response :=
  let* controller := new_AbortController in
  let* timeout_ :=
    setTimeout (Abort controller)
               (or_default (init ≫= timeout) (Num 5000)) in
  let signal_ := controller in
  let newInit :=
    match init with
    | Some i => with_signal i signal_
    | None => only_signal signal_
    end in
  try_finally
    (try_catch
       (let* res := fetch url newInit in
        ret res)
       (fun err =>
          if instanceof_AbortError err
          then reject (new_Error "timeout")
          else reject err))
    (clear timeout_).

(** src/index.ts, lines 11-29 *)
Definition fetchWithTimeout : Url -> option RequestInit -> M Response :=
  fetchWithTimeout_with clearTimeout.

(** index.js, lines 11-30 *)
Definition fetchWithTimeout_js : Url -> option RequestInit -> M Response :=
  fetchWithTimeout_with clearImmediate.

(** The options [addHeader({ init, key, value })] returns when [set]
    lets [key] and [value] through. *)
Definition addHeader (init : option RequestInit) (key value : string)
  : RequestInit :=
  let newHeaders :=
    new_Headers (match init with Some i => headers i | None => [] end) in
  let newHeaders := headers_set key value newHeaders in
  match init with
  | Some i => with_headers i newHeaders
  | None => only_headers newHeaders
  end.

(** src/index.ts, lines 56-61: [addHeader({ init, key, value })] as a
    call, which throws what [newHeaders.set(key, value)] throws. *)
Definition addHeader_or_throw (init : option RequestInit)
    (key value : string) : RequestInit + jserror :=
  let newHeaders :=
    new_Headers (match init with Some i => headers i | None => [] end) in
  match Headers_set key value newHeaders with
  | inr e => inr e
  | inl newHeaders =>
      inl (match init with
           | Some i => with_headers i newHeaders
           | None => only_headers newHeaders
           end)
  end.

(** [new HttpsProxyAgent(proxyUrl)], of the https-proxy-agent package:
    the constructor either builds an agent or throws. *)
Variable HttpsProxyAgent : option string -> Agent + jserror.

Definition new_HttpsProxyAgent (u : option string) : M Agent :=
  match HttpsProxyAgent u with
  | inl a => ret a
  | inr e => reject e
  end.

(** src/index.ts, lines 93-99.  [init] is optional here because a
    JavaScript caller can leave it out; reading [init.proxyUrl] then
    throws. *)
Definition fetchByProxy (url : Url) (init : option RequestInit)
  : M Response :=
  match init with
  | None => reject (undefined_property "proxyUrl")
  | Some init =>
      let proxyUrl_ := proxyUrl init in
      let* agent_ := new_HttpsProxyAgent proxyUrl_ in
      let init := with_agent init agent_ in
      let* res := fetchWithTimeout url (Some init) in
      ret res
  end.

(** The operation [fun] passed to [fetchWithRetry], by invocation. *)
Variable A : Type.
Variable fun_ : nat -> attempt A.

(** [await fun()] *)
Definition call_fun : M A :=
  fun w =>
    let w' := count_call w in
    match fun_ (fun_calls w) with
    | Returns a => (Resolved a, w')
    | Throws e => (Rejected e, w')
    | Hangs => (Pending, w')
    end.

(** src/index.ts, lines 39-49.  [fuel] bounds the number of invocations
    looked at; a run that has used it up is still pending.  The recursive
    call passes no interval, so the parameter takes its default. *)
Fixpoint fetchWithRetry (fuel : nat) (interval : option Z) : M A :=
  match fuel with
  | O => fun w => (Pending, w)
  | S fuel' =>
      let interval := param_default interval 5 in
      try_catch
        (let* res := call_fun in
         ret res)
        (fun err =>
           console_log (LogError err) ;;
           console_log (LogRetry interval) ;;
           sleep (Num (1000 * interval)) ;;
           fetchWithRetry fuel' None)
  end.

End Wrappers.

(** ** The promise heap of an [update] closure

    Both [fetchWithAuth] and [fixedRefresh] keep a variable [promise] and
    an inner function

      async function update() {
        if (promise) return promise;
        promise = fetchWithRetry(fun);
        X = await promise;
        promise = null;
      }

    Every call of [fetchWithRetry(fun)] creates a promise of its own; they
    are kept in [runs], and the variable [promise] refers to one of them or
    is null.  A run advances when the event loop delivers the settlement of
    its pending [fun()] or the expiry of its retry timer.

    One step of the machines below is one such delivery together with the
    continuations it releases.  The [update] that starts a run awaits it in
    the synchronous segment that created it, so its continuation
    [X = await promise; promise = null] is the first reaction on the
    promise and has run by the time any caller goes on after
    [await update()]. *)

Module Flight.

Inductive run_status (A : Type) : Type :=
| Attempting                 (* awaiting [fun()] *)
| Sleeping                   (* awaiting the retry timer *)
| Fulfilled (a : A).
Arguments Attempting {A}.
Arguments Sleeping {A}.
Arguments Fulfilled {A} a.

Record Run (A : Type) : Type := MkRun {
  run_status_of : run_status A;
  run_interval : option Z;       (* the [interval] argument of the current
                                    activation of [fetchWithRetry] *)
  run_calls : nat;               (* invocations of [fun] *)
  run_slept : list Z;            (* retry delays, in milliseconds *)
  run_console : list log_entry
}.
Arguments MkRun {A}.
Arguments run_status_of {A}.
Arguments run_interval {A}.
Arguments run_calls {A}.
Arguments run_slept {A}.
Arguments run_console {A}.

Record t (A : Type) : Type := Mk {
  promise : option nat;
  runs : list (Run A)
}.
Arguments Mk {A}.
Arguments promise {A}.
Arguments runs {A}.

Definition empty {A : Type} : t A := Mk None [].

Definition in_flight {A : Type} (r : Run A) : bool :=
  match run_status_of r with
  | Fulfilled _ => false
  | _ => true
  end.

(** [fetchWithRetry(fun, interval)] up to its first [await]. *)
Definition run_start {A : Type} (interval : option Z) : Run A :=
  MkRun Attempting interval 1 [] [].

(** [fun()] resolved: [return res]. *)
Definition run_return {A : Type} (a : A) (r : Run A) : option (Run A) :=
  match run_status_of r with
  | Attempting =>
      Some (MkRun (Fulfilled a) (run_interval r) (run_calls r) (run_slept r)
                  (run_console r))
  | _ => None
  end.

(** [fun()] rejected: the [catch] block up to its [await]. *)
Definition run_throw {A : Type} (e : jserror) (r : Run A) : option (Run A) :=
  match run_status_of r with
  | Attempting =>
      let interval := param_default (run_interval r) 5 in
      Some (MkRun Sleeping (run_interval r) (run_calls r)
                  (run_slept r ++ [timer_ms (Num (1000 * interval))])
                  (run_console r ++ [LogError e; LogRetry interval]))
  | _ => None
  end.

(** The retry timer fired: [return fetchWithRetry(fun)], which invokes
    [fun] again. *)
Definition run_wake {A : Type} (r : Run A) : option (Run A) :=
  match run_status_of r with
  | Sleeping =>
      Some (MkRun Attempting None (S (run_calls r)) (run_slept r)
                  (run_console r))
  | _ => None
  end.

Definition on_run {A : Type} (f : Run A -> option (Run A)) (p : nat)
    (fl : t A) : option (t A) :=
  match runs fl !! p with
  | Some r =>
      match f r with
      | Some r' => Some (Mk (promise fl) (<[p := r']> (runs fl)))
      | None => None
      end
  | None => None
  end.

(** The first two statements of [update]: the promise the caller ends up
    awaiting, which is a new run when [promise] is null. *)
Definition update {A : Type} (fl : t A) : nat * t A :=
  match promise fl with
  | Some p => (p, fl)
  | None =>
      let p := length (runs fl) in
      (p, Mk (Some p) (runs fl ++ [run_start None]))
  end.

(** Run [p] resolves and the continuation of the [update] that started it
    executes [promise = null]. *)
Definition fulfil {A : Type} (p : nat) (a : A) (fl : t A) : option (t A) :=
  match on_run (run_return a) p fl with
  | Some fl' => Some (Mk None (runs fl'))
  | None => None
  end.

(** Invocations of the operation over all runs. *)
Definition total_calls {A : Type} (fl : t A) : nat :=
  list_sum (map run_calls (runs fl)).

End Flight.

(** ** [fetchWithAuth]: src/index.ts, lines 69-86 *)

Module fetchWithAuth.

(** Where a call of the returned function [_] is suspended. *)
Inductive pc : Type :=
| AwaitFirst                  (* [await fetchWithTimeout(...)], line 79 *)
| AwaitUpdate (p : nat)       (* [await update()], on run [p] *)
| AwaitSecond                 (* the [fetchWithTimeout] of line 82 *)
| Done (r : settled Response).

Record Caller : Type := MkCaller {
  c_url : Url;
  c_init : option RequestInit;
  c_pc : pc;
  c_attempts : list RequestInit  (* what it passed to [fetchWithTimeout] *)
}.

Record State : Type := MkState {
  Authorization : string;        (* [let Authorization = ""] *)
  flight : Flight.t string;      (* [let promise], and the runs so far *)
  callers : list Caller
}.

Definition init_state : State := MkState "" Flight.empty [].

Inductive event : Type :=
| Call (url : Url) (init : option RequestInit)
| Settle (c : nat) (o : Response + jserror)
| FunReturns (p : nat) (token : string)
| FunThrows (p : nat) (e : jserror)
| TimerFires (p : nat).

(** [[401, 403].includes(res.status)] *)
Definition unauthorized (res : Response) : bool :=
  existsb (Z.eqb (status res)) [401; 403].

(** [fetchWithTimeout(url, addHeader({ init, key: "Authorization",
    value: Authorization }))], as issued for caller [cl].  When
    [addHeader] throws, no request is issued and the call of [_] rejects
    with what was thrown. *)
Definition request (auth : string) (cl : Caller) (next : pc) : Caller :=
  match addHeader_or_throw (c_init cl) "Authorization" auth with
  | inl init' =>
      MkCaller (c_url cl) (c_init cl) next (c_attempts cl ++ [init'])
  | inr e =>
      MkCaller (c_url cl) (c_init cl) (Done (Rejected e)) (c_attempts cl)
  end.

Definition set_pc (next : pc) (cl : Caller) : Caller :=
  MkCaller (c_url cl) (c_init cl) next (c_attempts cl).

(** [_(url, init)] up to its first [await]. *)
Definition call (url : Url) (init : option RequestInit) (s : State) : State :=
  MkState (Authorization s) (flight s)
          (callers s ++
             [request (Authorization s) (MkCaller url init AwaitFirst [])
                      AwaitFirst]).

(** [update()] called by caller [c], up to its [await]. *)
Definition update (c : nat) (cl : Caller) (s : State) : State :=
  let (p, fl) := Flight.update (flight s) in
  MkState (Authorization s) fl
          (<[c := set_pc (AwaitUpdate p) cl]> (callers s)).

(** A [fetchWithTimeout] of caller [c] settles. *)
Definition settle_request (c : nat) (o : Response + jserror) (s : State)
  : option State :=
  match callers s !! c with
  | Some cl =>
      match c_pc cl with
      | AwaitFirst =>
          match o with
          | inr e =>
              Some (MkState (Authorization s) (flight s)
                      (<[c := set_pc (Done (Rejected e)) cl]> (callers s)))
          | inl res =>
              if unauthorized res
              then Some (update c cl s)
              else Some (MkState (Authorization s) (flight s)
                           (<[c := set_pc (Done (Resolved res)) cl]>
                              (callers s)))
          end
      | AwaitSecond =>
          Some (MkState (Authorization s) (flight s)
                  (<[c := set_pc (Done (settle o)) cl]> (callers s)))
      | _ => None
      end
  | None => None
  end.

(** After [await update()]: line 82, with the credential as it is now. *)
Definition resume (p : nat) (auth : string) (cl : Caller) : Caller :=
  match c_pc cl with
  | AwaitUpdate q => if Nat.eqb q p then request auth cl AwaitSecond else cl
  | _ => cl
  end.

(** Run [p] resolves with [token]: [Authorization = await promise;
    promise = null], then every caller awaiting [p] goes on. *)
Definition refreshed (p : nat) (token : string) (s : State) : option State :=
  match Flight.fulfil p token (flight s) with
  | Some fl => Some (MkState token fl (map (resume p token) (callers s)))
  | None => None
  end.

Definition step (s : State) (ev : event) : option State :=
  match ev with
  | Call url init => Some (call url init s)
  | Settle c o => settle_request c o s
  | FunReturns p token => refreshed p token s
  | FunThrows p e =>
      match Flight.on_run (Flight.run_throw e) p (flight s) with
      | Some fl => Some (MkState (Authorization s) fl (callers s))
      | None => None
      end
  | TimerFires p =>
      match Flight.on_run Flight.run_wake p (flight s) with
      | Some fl => Some (MkState (Authorization s) fl (callers s))
      | None => None
      end
  end.

(** A schedule is what the event loop delivers, in order; it is rejected
    when an event is delivered that nothing is waiting for. *)
Fixpoint run (s : State) (sch : list event) : option State :=
  match sch with
  | [] => Some s
  | ev :: sch' =>
      match step s ev with
      | Some s' => run s' sch'
      | None => None
      end
  end.

Definition completes (ev : event) : bool :=
  match ev with
  | FunReturns _ _ => true
  | _ => false
  end.

Definition throws (ev : event) : bool :=
  match ev with
  | FunThrows _ _ => true
  | _ => false
  end.

Definition awaiting_update (cl : Caller) : bool :=
  match c_pc cl with
  | AwaitUpdate _ => true
  | _ => false
  end.

End fetchWithAuth.

(** ** [fixedRefresh]: src/index.ts, lines 108-125 *)

Module fixedRefresh.

Inductive pc : Type :=
| AwaitUpdate (p : nat)       (* [await update()], on run [p] *)
| Done (v : jsval).           (* [return res] *)

Record State : Type := MkState {
  res : jsval;                   (* [let res] *)
  lastUpdateTimestamp : Z;       (* [let lastUpdateTimestamp = 0] *)
  flight : Flight.t jsval;       (* [let promise], and the runs so far *)
  callers : list pc
}.

Definition init_state : State := MkState VUndefined 0 Flight.empty [].

Inductive event : Type :=
| Get (now : Z)
| FunReturns (p : nat) (v : jsval) (now : Z)
| FunThrows (p : nat) (e : jserror)
| TimerFires (p : nat).

Section Instance.

(** The [interval] argument of [fixedRefresh], in seconds. *)
Variable interval : option Z.

(** [Date.now() - lastUpdateTimestamp >= interval * 1000 || !res] *)
Definition stale (now : Z) (s : State) : bool :=
  (now - lastUpdateTimestamp s >=? param_default interval (60 * 5) * 1000)
  || negb (truthy (res s)).

(** [update()] called by a new caller, up to its [await]. *)
Definition update (s : State) : State :=
  let (p, fl) := Flight.update (flight s) in
  MkState (res s) (lastUpdateTimestamp s) fl (callers s ++ [AwaitUpdate p]).

(** [_()] up to its first [await], or to its [return]. *)
Definition get (now : Z) (s : State) : State :=
  if stale now s
  then update s
  else MkState (res s) (lastUpdateTimestamp s) (flight s)
               (callers s ++ [Done (res s)]).

(** After [await update()]: [return res]. *)
Definition resume (p : nat) (v : jsval) (c : pc) : pc :=
  match c with
  | AwaitUpdate q => if Nat.eqb q p then Done v else c
  | Done _ => c
  end.

(** Run [p] resolves with [v]: [res = await promise; lastUpdateTimestamp =
    Date.now(); promise = null], then every caller awaiting [p] returns
    [res]. *)
Definition refreshed (p : nat) (v : jsval) (now : Z) (s : State)
  : option State :=
  match Flight.fulfil p v (flight s) with
  | Some fl => Some (MkState v now fl (map (resume p v) (callers s)))
  | None => None
  end.

Definition step (s : State) (ev : event) : option State :=
  match ev with
  | Get now => Some (get now s)
  | FunReturns p v now => refreshed p v now s
  | FunThrows p e =>
      match Flight.on_run (Flight.run_throw e) p (flight s) with
      | Some fl =>
          Some (MkState (res s) (lastUpdateTimestamp s) fl (callers s))
      | None => None
      end
  | TimerFires p =>
      match Flight.on_run Flight.run_wake p (flight s) with
      | Some fl =>
          Some (MkState (res s) (lastUpdateTimestamp s) fl (callers s))
      | None => None
      end
  end.

Fixpoint run (s : State) (sch : list event) : option State :=
  match sch with
  | [] => Some s
  | ev :: sch' =>
      match step s ev with
      | Some s' => run s' sch'
      | None => None
      end
  end.

End Instance.

Definition is_get (ev : event) : bool :=
  match ev with
  | Get _ => true
  | _ => false
  end.

Definition completes (ev : event) : bool :=
  match ev with
  | FunReturns _ _ _ => true
  | _ => false
  end.

Definition throws (ev : event) : bool :=
  match ev with
  | FunThrows _ _ => true
  | _ => false
  end.

End fixedRefresh.

(** ** Vocabulary of the specification *)

(** The delay after which the timer armed by [fetchWithTimeout] comes
    due. *)
Definition deadline (init : option RequestInit) : Z :=
  timer_ms (or_default (init ≫= timeout) (Num 5000)).

(** The [timeout] option is absent or falsy. *)
Definition timeout_falsy (init : option RequestInit) : bool :=
  match init ≫= timeout with
  | Some n => negb (number_truthy n)
  | None => true
  end.

(** [newInit] of [fetchWithTimeout], for the controller [c]. *)
Definition sent_init (init : option RequestInit) (c : nat) : RequestInit :=
  match init with
  | Some i => with_signal i c
  | None => only_signal c
  end.

(** The timer [fetchWithTimeout] arms when called in world [w]. *)
Definition abort_timer (init : option RequestInit) (w : World) : Timer :=
  MkTimer (S (next_id w)) (or_default (init ≫= timeout) (Num 5000))
          (Abort (next_id w)).

(** The world once [fetchWithTimeout] has created its controller and
    armed its timer, and once it has handed the request to the
    transport. *)
Definition after_setup (init : option RequestInit) (w : World) : World :=
  arm (abort_timer init w) (snd (new_AbortController w)).

Definition started (url : Url) (init : option RequestInit) (w : World)
  : World :=
  log_request url (sent_init init (next_id w)) (after_setup init w).

(** The transport, left alone, settles before [d] milliseconds. *)
Definition in_time (b : behaviour) (d : Z) : bool :=
  match b with
  | Settles t _ => t <? d
  | NeverSettles => false
  end.

(** Identifiers handed out so far are below [next_id]. *)
Definition World_ok (w : World) : Prop :=
  Forall (fun t =>
            (timer_id t < next_id w)%nat /\
            match timer_action_of t with
            | Abort c => (c < next_id w)%nat
            | Wake => True
            end) (timeouts w).

Definition is_wake (t : Timer) : bool :=
  match timer_action_of t with
  | Wake => true
  | Abort _ => false
  end.

(** The delays of the timers armed after the first [n], in milliseconds. *)
Definition delays_since (n : nat) (w : World) : list Z :=
  map timer_delay (drop n (armed w)).

(** The options omit [proxyUrl]. *)
Definition omits_proxyUrl (init : option RequestInit) : bool :=
  match init ≫= proxyUrl with
  | Some _ => false
  | None => true
  end.

(** Single flight: a run that has not resolved is the one [promise]
    refers to, and [promise] refers to a run that has not resolved. *)
Definition single_flight {A : Type} (fl : Flight.t A) : Prop :=
  (forall p r, Flight.runs fl !! p = Some r ->
               Flight.in_flight r = true -> Flight.promise fl = Some p) /\
  (forall p, Flight.promise fl = Some p ->
             exists r, Flight.runs fl !! p = Some r /\
                       Flight.in_flight r = true).

(** Run [r] has seen [k] failed attempts: it has invoked the operation
    [k] times and sleeps, or [k + 1] times otherwise. *)
Definition failed_attempts {A : Type} (r : Flight.Run A) (k : nat) : Prop :=
  match Flight.run_status_of r with
  | Flight.Sleeping => Flight.run_calls r = k
  | _ => Flight.run_calls r = S k
  end.

(** Since the heap was [fl0], with nothing in flight, at most one run has
    been started, and it has not resolved; [k] of its attempts failed. *)
Definition one_run_since {A : Type} (fl0 fl : Flight.t A) (k : nat) : Prop :=
  (k = O /\ fl = fl0) \/
  (Flight.promise fl = Some (length (Flight.runs fl0)) /\
   exists r, Flight.runs fl = Flight.runs fl0 ++ [r] /\
             Flight.in_flight r = true /\ failed_attempts r k).

(** A run followed while the operation behaves as [fun_] says: every
    pending invocation settles accordingly and every retry timer fires.
    [base] counts the invocations made before the run started, [fuel]
    the attempts followed. *)
Fixpoint drive {A : Type} (fun_ : nat -> attempt A) (base fuel : nat)
    (r : Flight.Run A) : option (Flight.Run A) :=
  match fuel with
  | O => Some r
  | S fuel' =>
      match fun_ (base + Flight.run_calls r - 1)%nat with
      | Returns a => Flight.run_return a r
      | Throws e =>
          match Flight.run_throw e r with
          | Some r1 =>
              match Flight.run_wake r1 with
              | Some r2 => drive fun_ base fuel' r2
              | None => None
              end
          | None => None
          end
      | Hangs => Some r
      end
  end.

(** The requests a call of [_] has issued, by where it is suspended. *)
Definition attempts_match (cl : fetchWithAuth.Caller) : Prop :=
  match fetchWithAuth.c_pc cl with
  | fetchWithAuth.AwaitFirst | fetchWithAuth.AwaitUpdate _ =>
      length (fetchWithAuth.c_attempts cl) = 1%nat
  | fetchWithAuth.AwaitSecond => length (fetchWithAuth.c_attempts cl) = 2%nat
  | fetchWithAuth.Done _ =>
      (length (fetchWithAuth.c_attempts cl) <= 2)%nat
  end.

(** Invariant of the closure of [fetchWithAuth]. *)
Definition Auth_ok (s : fetchWithAuth.State) : Prop :=
  single_flight (fetchWithAuth.flight s) /\
  forall c cl, fetchWithAuth.callers s !! c = Some cl ->
    attempts_match cl /\
    forall p, fetchWithAuth.c_pc cl = fetchWithAuth.AwaitUpdate p ->
              Flight.promise (fetchWithAuth.flight s) = Some p.

(** Invariant of the closure of [fixedRefresh]. *)
Definition Refresh_ok (s : fixedRefresh.State) : Prop :=
  single_flight (fixedRefresh.flight s) /\
  forall c p, fixedRefresh.callers s !! c = Some (fixedRefresh.AwaitUpdate p) ->
              Flight.promise (fixedRefresh.flight s) = Some p.

(** Since the closure of [fixedRefresh] was in state [s0], with nothing in
    flight, [g] calls have triggered a refresh and [k] attempts of the
    one run have failed; nothing has been cached meanwhile. *)
Definition refreshing (s0 s : fixedRefresh.State) (k g : nat) : Prop :=
  one_run_since (fixedRefresh.flight s0) (fixedRefresh.flight s) k /\
  fixedRefresh.res s = fixedRefresh.res s0 /\
  fixedRefresh.lastUpdateTimestamp s = fixedRefresh.lastUpdateTimestamp s0 /\
  fixedRefresh.callers s
  = fixedRefresh.callers s0
    ++ repeat (fixedRefresh.AwaitUpdate
                 (length (Flight.runs (fixedRefresh.flight s0)))) g.

(** Sample collaborators, used to instantiate the statements below. *)
Module Sample.

Definition ok : Response := MkResponse 200 "ok".
Definition denied : Response := MkResponse 401 "".
Definition forbidden : Response := MkResponse 403 "".

Definition quick : Url -> RequestInit -> behaviour :=
  fun _ _ => Settles 10 (inl ok).

Definition slow : Url -> RequestInit -> behaviour :=
  fun _ _ => Settles 6000 (inl ok).

Definition refused : jserror := MkError ClsFetchError "ECONNREFUSED".

Definition failing : Url -> RequestInit -> behaviour :=
  fun _ _ => Settles 10 (inr refused).

(** An agent constructor in the manner of https-proxy-agent: it accepts
    a string and throws on [undefined]. *)
Definition proxy_agent (u : option string) : Agent + jserror :=
  match u with
  | Some s => inl (MkAgent s)
  | None => inr (MkError ClsTypeError "Invalid URL")
  end.

(** An operation that fails [n] times and then returns [v]. *)
Definition flaky {A : Type} (n : nat) (v : A) : nat -> attempt A :=
  fun k => if (k <? n)%nat then Throws refused else Returns v.

Definition always_down : nat -> attempt Z := fun _ => Throws refused.

Definition zero_timeout : RequestInit :=
  MkInit (Some (Num 0)) [] None None None [].

(** One call, refused twice. *)
Definition denied_twice : list fetchWithAuth.event :=
  [fetchWithAuth.Call "https://example.org/a" None;
   fetchWithAuth.Settle 0 (inl denied);
   fetchWithAuth.FunReturns 0 "token";
   fetchWithAuth.Settle 0 (inl forbidden)].

(** Two calls in flight together, both refused while nothing has been
    refreshed yet. *)
Definition both_denied : list fetchWithAuth.event :=
  [fetchWithAuth.Call "https://example.org/a" None;
   fetchWithAuth.Call "https://example.org/b" None;
   fetchWithAuth.Settle 1 (inl forbidden);
   fetchWithAuth.Settle 0 (inl denied)].

(** Two calls in flight together; the second refusal arrives after the
    refresh started by the first has resolved. *)
Definition late_denial : list fetchWithAuth.event :=
  [fetchWithAuth.Call "https://example.org/a" None;
   fetchWithAuth.Call "https://example.org/b" None;
   fetchWithAuth.Settle 0 (inl denied);
   fetchWithAuth.FunReturns 0 "token-1";
   fetchWithAuth.Settle 1 (inl denied)].

(** An operation whose first attempt fails: a first call, and a second
    one half a second after the update. *)
Definition flaky_then_cached : list fixedRefresh.event :=
  [fixedRefresh.Get 1000;
   fixedRefresh.FunThrows 0 refused;
   fixedRefresh.TimerFires 0;
   fixedRefresh.FunReturns 0 (VNum (Num 1)) 6000;
   fixedRefresh.Get 6500].

(** A first call, a second one within the window, a third one after it;
    times in milliseconds, for an interval of one second. *)
Definition cached_then_stale : list fixedRefresh.event :=
  [fixedRefresh.Get 1000;
   fixedRefresh.FunReturns 0 (VNum (Num 1)) 1000;
   fixedRefresh.Get 1500;
   fixedRefresh.Get 2500].

(** Two calls together, on an operation whose first attempt fails. *)
Definition together_flaky : list fixedRefresh.event :=
  [fixedRefresh.Get 1000;
   fixedRefresh.Get 1000;
   fixedRefresh.FunThrows 0 refused;
   fixedRefresh.TimerFires 0].

(** Three calls together. *)
Definition together : list fixedRefresh.event :=
  [fixedRefresh.Get 1000; fixedRefresh.Get 1000; fixedRefresh.Get 1001].

End Sample.

(** ** [index.js] where it is written differently *)

(** index.js, lines 57-63.  [origin] is the argument array [url, init] of
    the caller; [args[1]] is assigned in place and the same array is
    returned, so the caller's array holds the new options afterwards. *)
Definition addHeader_js (origin : Url * option RequestInit)
    (key value : string) : Url * option RequestInit :=
  let args := origin in
  let newHeaders :=
    new_Headers (match snd args with Some i => headers i | None => [] end) in
  let newHeaders := headers_set key value newHeaders in
  (fst args,
   Some (match snd args with
         | Some i => with_headers i newHeaders
         | None => only_headers newHeaders
         end)).

(** index.js, lines 81 and 84: the arrays one call of [_] spreads into
    [fetchWithTimeout].  Line 84 starts from the array line 81 wrote to. *)
Definition js_first_request (args : Url * option RequestInit)
    (auth : string) : Url * option RequestInit :=
  addHeader_js args "Authorization" auth.

Definition js_retry_request (args : Url * option RequestInit)
    (auth0 auth1 : string) : Url * option RequestInit :=
  addHeader_js (js_first_request args auth0) "Authorization" auth1.

(** [{ agent }] *)
Definition only_agent (a : Agent) : RequestInit :=
  MkInit None [] None None (Some a) [].

(** index.js, lines 95-102. *)
Definition fetchByProxy_js (transport : Url -> RequestInit -> behaviour)
    (HttpsProxyAgent : option string -> Agent + jserror)
    (url : Url) (init : option RequestInit) : M Response :=
  match init with
  | None => reject (undefined_property "proxyUrl")
  | Some i =>
      let proxyUrl_ := proxyUrl i in
      let* agent_ := new_HttpsProxyAgent HttpsProxyAgent proxyUrl_ in
      let newInit :=
        match init with
        | Some i' => with_agent i' agent_
        | None => only_agent agent_
        end in
      let* res := fetchWithTimeout_js transport url (Some newInit) in
      ret res
  end.

(** ** Further vocabulary *)

(** Header names as [Headers] keeps them. *)
Definition normal_headers (h : Headers) : Prop :=
  Forall (fun kv => lower (fst kv) = fst kv) h.

(** The values [!res] holds of. *)
Definition falsy_values : list jsval :=
  [VUndefined; VNull; VBool false; VNum (Num 0); VNum NaN; VStr ""].

(** No two entries share a name. *)
Fixpoint distinct_names (h : Headers) : bool :=
  match h with
  | [] => true
  | kv :: h' =>
      negb (existsb (fun kv' => String.eqb (fst kv') (fst kv)) h')
      && distinct_names h'
  end.

(** The entries are those of a [Headers] object: legal names in lower
    case, legal values, one entry per name. *)
Definition headers_object (h : Headers) : bool :=
  forallb (fun kv => String.eqb (lower (fst kv)) (fst kv)
                     && legal_header_name (fst kv)
                     && legal_header_value (snd kv)) h
  && distinct_names h.

(** The interval announced in the log after the [k]-th failure. *)
Definition announced (interval : option Z) (k : nat) : Z :=
  if Nat.eqb k 0 then param_default interval 5 else 5.

(** The time spent in [n] retry delays. *)
Definition retry_time (interval : option Z) (n : nat) : Z :=
  match n with
  | O => 0
  | S m => timer_ms (Num (1000 * param_default interval 5)) + 5000 * Z.of_nat m
  end.

(** Some run of the heap resolved with [v]. *)
Definition produced {A : Type} (fl : Flight.t A) (v : A) : Prop :=
  exists p r, Flight.runs fl !! p = Some r /\
              Flight.run_status_of r = Flight.Fulfilled v.

(** A run of the default cadence: no interval argument, 5000 ms before
    each retry, one invocation to start with and one after each delay. *)
Definition paced {A : Type} (r : Flight.Run A) : Prop :=
  Flight.run_interval r = None /\
  Forall (fun d => d = 5000) (Flight.run_slept r) /\
  Flight.run_calls r
  = (length (Flight.run_slept r)
     + match Flight.run_status_of r with
       | Flight.Sleeping => 0
       | _ => 1
       end)%nat.


(** A credential the closure can hold: the initial empty string, or a
    token some refresh resolved with. *)
Definition credential (s : fetchWithAuth.State) (v : string) : Prop :=
  v = "" \/ produced (fetchWithAuth.flight s) v.

(** A call that has resolved with a 401 or 403 has made its retry. *)
Definition retried_if_denied (cl : fetchWithAuth.Caller) : Prop :=
  forall r, fetchWithAuth.c_pc cl = fetchWithAuth.Done (Resolved r) ->
            fetchWithAuth.unauthorized r = true ->
            length (fetchWithAuth.c_attempts cl) = 2%nat.

(** Every request of the call is the caller's own options with an
    [Authorization] header holding a credential of the closure. *)
Definition sent_with_credential (s : fetchWithAuth.State)
    (cl : fetchWithAuth.Caller) : Prop :=
  Forall (fun a => exists v,
              a = addHeader (fetchWithAuth.c_init cl) "Authorization" v /\
              credential s v)
         (fetchWithAuth.c_attempts cl).

(** The calls made since there were [n0] of them, while the credential
    was [token].  When [token] is a legal header value each has issued
    one request, which carries it; when it is not, [addHeader] threw:
    each has issued no request and is rejected with the [TypeError]. *)
Definition new_calls_send (n0 : nat) (token : string)
    (s : fetchWithAuth.State) : Prop :=
  forall c cl, (n0 <= c)%nat -> fetchWithAuth.callers s !! c = Some cl ->
    if legal_header_value token
    then fetchWithAuth.c_attempts cl
         = [addHeader (fetchWithAuth.c_init cl) "Authorization" token]
    else fetchWithAuth.c_attempts cl = [] /\
         fetchWithAuth.c_pc cl
         = fetchWithAuth.Done (Rejected (illegal_value token)).

(** What one step of the event loop does to the call numbered [d]: it
    leaves it alone, creates it, or moves it along [_]. *)
Inductive caller_step (s : fetchWithAuth.State) (ev : fetchWithAuth.event)
    (d : nat) : option fetchWithAuth.Caller -> fetchWithAuth.Caller -> Prop :=
| cs_same cl :
    caller_step s ev d (Some cl) cl
| cs_new url init :
    ev = fetchWithAuth.Call url init ->
    d = length (fetchWithAuth.callers s) ->
    caller_step s ev d None
      (fetchWithAuth.request (fetchWithAuth.Authorization s)
         (fetchWithAuth.MkCaller url init fetchWithAuth.AwaitFirst [])
         fetchWithAuth.AwaitFirst)
| cs_reject cl e :
    fetchWithAuth.c_pc cl = fetchWithAuth.AwaitFirst ->
    ev = fetchWithAuth.Settle d (inr e) ->
    caller_step s ev d (Some cl)
      (fetchWithAuth.set_pc (fetchWithAuth.Done (Rejected e)) cl)
| cs_pass cl res :
    fetchWithAuth.c_pc cl = fetchWithAuth.AwaitFirst ->
    ev = fetchWithAuth.Settle d (inl res) ->
    fetchWithAuth.unauthorized res = false ->
    caller_step s ev d (Some cl)
      (fetchWithAuth.set_pc (fetchWithAuth.Done (Resolved res)) cl)
| cs_denied cl res :
    fetchWithAuth.c_pc cl = fetchWithAuth.AwaitFirst ->
    ev = fetchWithAuth.Settle d (inl res) ->
    fetchWithAuth.unauthorized res = true ->
    caller_step s ev d (Some cl)
      (fetchWithAuth.set_pc
         (fetchWithAuth.AwaitUpdate
            (fst (Flight.update (fetchWithAuth.flight s)))) cl)
| cs_final cl o :
    fetchWithAuth.c_pc cl = fetchWithAuth.AwaitSecond ->
    ev = fetchWithAuth.Settle d o ->
    caller_step s ev d (Some cl)
      (fetchWithAuth.set_pc (fetchWithAuth.Done (settle o)) cl)
| cs_retry cl p token :
    fetchWithAuth.c_pc cl = fetchWithAuth.AwaitUpdate p ->
    ev = fetchWithAuth.FunReturns p token ->
    caller_step s ev d (Some cl)
      (fetchWithAuth.request token cl fetchWithAuth.AwaitSecond).


Module Scenario.

(** A transport that fails with an [AbortError] of its own after 10 ms. *)
Definition aborting : Url -> RequestInit -> behaviour :=
  fun _ _ => Settles 10 (inr (MkError ClsAbortError "socket closed")).

(** An operation that fails [n] times and then never settles. *)
Definition stuck (n : nat) : nat -> attempt Z :=
  fun k => if (k <? n)%nat then Throws Sample.refused else Hangs.

Definition via_proxy : RequestInit :=
  MkInit (Some (Num 2000)) [("Accept", "text/html")]
         (Some "http://127.0.0.1:3000") None None [].


(** A refresh that keeps failing while a call waits for it. *)
Definition refresh_down : list fetchWithAuth.event :=
  [fetchWithAuth.FunThrows 0 Sample.refused;
   fetchWithAuth.TimerFires 0;
   fetchWithAuth.Call "https://example.org/b" None;
   fetchWithAuth.FunThrows 0 Sample.refused].

(** Options whose headers are a [Headers] object that holds a stale
    credential. *)
Definition stale_credential : RequestInit :=
  MkInit (Some (Num 2000))
         [("accept", "text/html"); ("authorization", "stale")]
         None None None [].

(** A token that holds a line feed. *)
Definition broken_token : string :=
  String.append "abc" (String "010"%char EmptyString).

(** Calls after a refresh has delivered a token. *)
Definition after_refresh : list fetchWithAuth.event :=
  [fetchWithAuth.Call "https://example.org/c" None;
   fetchWithAuth.Call "https://example.org/d" (Some via_proxy);
   fetchWithAuth.Settle 2 (inl Sample.ok)].

(** Calls after a refresh has delivered a token no header can hold. *)
Definition after_broken_refresh : list fetchWithAuth.event :=
  [fetchWithAuth.Call "https://example.org/c" None;
   fetchWithAuth.Call "https://example.org/d" (Some via_proxy)].

(** Accessor calls while the operation keeps failing. *)
Definition operation_down : list fixedRefresh.event :=
  [fixedRefresh.Get 1000;
   fixedRefresh.FunThrows 0 Sample.refused;
   fixedRefresh.Get 2000;
   fixedRefresh.TimerFires 0;
   fixedRefresh.FunThrows 0 Sample.refused;
   fixedRefresh.Get 7000].

End Scenario.

(** * Properties *)

(** ** Timers and the world *)

Lemma find_abort_fresh (w : World) (tm : Timer) :
  World_ok w ->
  timer_action_of tm = Abort (next_id w) ->
  List.find (aborts (next_id w)) (timeouts w ++ [tm]) = Some tm.
Proof.
  unfold World_ok. intros Hok Htm.
  induction (timeouts w) as [|t l IH]; simpl.
  - unfold aborts. rewrite Htm, Nat.eqb_refl. reflexivity.
  - inversion Hok as [|? ? [_ Ht] Hl]; subst.
    assert (aborts (next_id w) t = false) as ->.
    { unfold aborts. destruct (timer_action_of t); [|reflexivity].
      apply Nat.eqb_neq. lia. }
    auto.
Qed.

Lemma drop_timer_fresh (n : nat) (l : list Timer) (tm : Timer) :
  Forall (fun t => (timer_id t < n)%nat) l ->
  timer_id tm = n ->
  drop_timer n (l ++ [tm]) = l.
Proof.
  intros Hl Htm. unfold drop_timer.
  rewrite List.filter_app. simpl.
  unfold is_timer at 2. rewrite Htm, Nat.eqb_refl. simpl.
  rewrite app_nil_r.
  induction Hl as [|t l Ht Hl IH]; simpl; [reflexivity|].
  unfold is_timer at 1.
  destruct (Nat.eqb_spec (timer_id t) n); [lia|]. simpl. f_equal. exact IH.
Qed.

Lemma World_ok_ids (w : World) :
  World_ok w -> Forall (fun t => (timer_id t < S (next_id w))%nat) (timeouts w).
Proof.
  unfold World_ok. intros H. eapply Forall_impl; [exact H|].
  simpl. intros t [Ht _]. lia.
Qed.

(** ** [fetchWithTimeout] *)

Section TimeoutFacts.

Variable transport : Url -> RequestInit -> behaviour.

Lemma fetch_guarded (url : Url) (init : option RequestInit) (w : World) :
  World_ok w ->
  fetch transport url (sent_init init (next_id w)) (after_setup init w) =
  match transport url (sent_init init (next_id w)) with
  | Settles t o =>
      if t <? deadline init
      then (settle o, advance t (started url init w))
      else (Rejected abort_error,
            fire (abort_timer init w) (started url init w))
  | NeverSettles =>
      (Rejected abort_error, fire (abort_timer init w) (started url init w))
  end.
Proof.
  intros Hok. unfold fetch.
  assert (signal (sent_init init (next_id w)) = Some (next_id w)) as ->
    by (destruct init; reflexivity).
  assert (timeouts (log_request url (sent_init init (next_id w))
                      (after_setup init w))
          = timeouts w ++ [abort_timer init w]) as -> by reflexivity.
  rewrite (find_abort_fresh w (abort_timer init w) Hok eq_refl).
  reflexivity.
Qed.

Lemma fetchWithTimeout_with_unfold (clear : handle -> M unit) (url : Url)
    (init : option RequestInit) (w : World) :
  fetchWithTimeout_with transport clear url init w =
  try_finally
    (try_catch
       (let* res := fetch transport url (sent_init init (next_id w)) in
        ret res)
       (fun err =>
          if instanceof_AbortError err
          then reject (new_Error "timeout")
          else reject err))
    (clear (Timeout (S (next_id w))))
    (after_setup init w).
Proof. reflexivity. Qed.

Ltac timeout_cases url init w Hok :=
  rewrite fetchWithTimeout_with_unfold;
  unfold try_finally, try_catch, bind;
  rewrite fetch_guarded by exact Hok;
  destruct (transport url (sent_init init (next_id w))) as [?t ?o|] eqn:?Hb.

(** The two builds settle alike. *)
Lemma fetchWithTimeout_js_outcome (url : Url) (init : option RequestInit)
    (w : World) :
  fst (fetchWithTimeout_js transport url init w) =
  fst (fetchWithTimeout transport url init w).
Proof.
  unfold fetchWithTimeout_js, fetchWithTimeout.
  rewrite !fetchWithTimeout_with_unfold. unfold try_finally.
  destruct (try_catch _ _ _) as [[r|e|] w']; reflexivity.
Qed.

(** A call arms exactly one timer, whatever happens next. *)
Lemma fetchWithTimeout_with_armed (clear : handle -> M unit) (url : Url)
    (init : option RequestInit) (w : World) :
  (forall h w0, armed (snd (clear h w0)) = armed w0) ->
  armed (snd (fetchWithTimeout_with transport clear url init w)) =
  armed w ++ [abort_timer init w].
Proof.
  intros Hclear. rewrite fetchWithTimeout_with_unfold.
  unfold try_finally, try_catch, bind, fetch.
  set (c := clear (Timeout (S (next_id w)))).
  assert (Hc : forall w0, armed (snd (c w0)) = armed w0)
    by (intros w0; apply Hclear).
  destruct (transport url (sent_init init (next_id w))) as [t o|];
    destruct (match signal (sent_init init (next_id w)) with
              | Some c0 => _
              | None => None
              end) as [tm|];
    try destruct (t <? timer_delay tm);
    try destruct o as [r|e]; simpl;
    try destruct (instanceof_AbortError _); simpl;
    match goal with
    | |- context [c ?w0] =>
        specialize (Hc w0); destruct (c w0) as [[[]|?|] ?]; simpl in *;
        rewrite Hc; reflexivity
    | |- _ => reflexivity
    end.
Qed.

Lemma clearTimeout_armed (h : handle) (w : World) :
  armed (snd (clearTimeout h w)) = armed w.
Proof. destruct h; reflexivity. Qed.

Lemma clearImmediate_armed (h : handle) (w : World) :
  armed (snd (clearImmediate h w)) = armed w.
Proof. destruct h; reflexivity. Qed.

Lemma drop_abort_timer (init : option RequestInit) (w : World) :
  World_ok w ->
  drop_timer (S (next_id w)) (timeouts w ++ [abort_timer init w]) =
  timeouts w.
Proof.
  intros Hok. apply drop_timer_fresh; [|reflexivity].
  apply World_ok_ids, Hok.
Qed.

Lemma drop_timer_idem (n : nat) (l : list Timer) :
  drop_timer n (drop_timer n l) = drop_timer n l.
Proof.
  unfold drop_timer. induction l as [|t l IH]; simpl; [reflexivity|].
  destruct (negb (is_timer n t)) eqn:E; simpl; rewrite ?E, IH; reflexivity.
Qed.

(** [src/index.ts]: once the call has settled, the timers pending are
    those that were pending before it. *)
Lemma fetchWithTimeout_clears_timer (url : Url) (init : option RequestInit)
    (w : World) :
  World_ok w ->
  fst (fetchWithTimeout transport url init w) <> Pending /\
  timeouts (snd (fetchWithTimeout transport url init w)) = timeouts w.
Proof.
  intros Hok. unfold fetchWithTimeout.
  pose proof (drop_abort_timer init w Hok) as Hdrop.
  timeout_cases url init w Hok.
  - destruct (t <? deadline init).
    + destruct o as [r|e]; simpl; [|destruct (instanceof_AbortError e)];
        simpl; (split; [discriminate|exact Hdrop]).
    + simpl. split; [discriminate|].
      rewrite drop_timer_idem. exact Hdrop.
  - simpl. split; [discriminate|].
    rewrite drop_timer_idem. exact Hdrop.
Qed.

(** [World_ok] is kept by both builds. *)
Lemma fetchWithTimeout_World_ok (url : Url) (init : option RequestInit)
    (w : World) :
  World_ok w ->
  World_ok (snd (fetchWithTimeout transport url init w)) /\
  World_ok (snd (fetchWithTimeout_js transport url init w)).
Proof.
  intros Hok.
  pose proof (drop_abort_timer init w Hok) as Hdrop.
  set (P := fun t : Timer =>
              (timer_id t < S (S (next_id w)))%nat /\
              match timer_action_of t with
              | Abort c => (c < S (S (next_id w)))%nat
              | Wake => True
              end).
  assert (Hweak : Forall P (timeouts w)).
  { eapply Forall_impl; [exact Hok|]. intros t [H1 H2]. split; [lia|].
    destruct (timer_action_of t); [lia|exact I]. }
  assert (Hall : Forall P (timeouts w ++ [abort_timer init w])).
  { apply Forall_app. split; [exact Hweak|].
    constructor; [|constructor]. split; simpl; lia. }
  split.
  - unfold fetchWithTimeout. timeout_cases url init w Hok;
      [destruct (t <? deadline init);
       [destruct o as [r|e]; simpl;
        [|destruct (instanceof_AbortError e); simpl]|]|];
      unfold World_ok; simpl; rewrite ?drop_timer_idem, Hdrop; exact Hweak.
  - unfold fetchWithTimeout_js. timeout_cases url init w Hok;
      [destruct (t <? deadline init);
       [destruct o as [r|e]; simpl;
        [|destruct (instanceof_AbortError e); simpl]|]|];
      unfold World_ok; simpl; rewrite ?drop_timer_idem, Hdrop; exact Hweak.
Qed.

(** [index.js]: [clearImmediate] unlinks the pending abort timer, and
    finds it gone when it has fired, so the build leaves the world
    [src/index.ts] leaves. *)
Lemma fetchWithTimeout_js_world (url : Url) (init : option RequestInit)
    (w : World) :
  fetchWithTimeout_js transport url init w =
  fetchWithTimeout transport url init w.
Proof.
  unfold fetchWithTimeout_js, fetchWithTimeout.
  rewrite !fetchWithTimeout_with_unfold. reflexivity.
Qed.

(** C5. When the transport has not settled by the deadline the call
    rejects with [Error("timeout")], which is not the transport's
    [AbortError]; a transport failure that is not an [AbortError] and
    arrives before the deadline is the rejection reason, unchanged.  Both
    builds settle alike. *)
Theorem fetchWithTimeout_timeout_or_unchanged (url : Url)
    (init : option RequestInit) (w : World) :
  World_ok w ->
  let b := transport url (sent_init init (next_id w)) in
  (in_time b (deadline init) = false ->
   fst (fetchWithTimeout transport url init w) = Rejected (new_Error "timeout")
   /\ fst (fetchWithTimeout_js transport url init w)
      = Rejected (new_Error "timeout")
   /\ instanceof_AbortError (new_Error "timeout") = false
   /\ new_Error "timeout" <> abort_error) /\
  (forall t e,
     b = Settles t (inr e) ->
     t < deadline init ->
     instanceof_AbortError e = false ->
     fst (fetchWithTimeout transport url init w) = Rejected e
     /\ fst (fetchWithTimeout_js transport url init w) = Rejected e).
Proof.
  intros Hok b.
  assert (Hjs := fetchWithTimeout_js_outcome url init w).
  split.
  - intros Hlate. rewrite Hjs.
    assert (fst (fetchWithTimeout transport url init w)
            = Rejected (new_Error "timeout")) as ->.
    { unfold fetchWithTimeout. subst b.
      timeout_cases url init w Hok; simpl in Hlate.
      - rewrite Hlate. reflexivity.
      - reflexivity. }
    repeat split; discriminate.
  - intros t e Hb Ht He. rewrite Hjs.
    assert (fst (fetchWithTimeout transport url init w) = Rejected e) as ->.
    { unfold fetchWithTimeout. subst b.
      timeout_cases url init w Hok; [|discriminate].
      injection Hb as -> ->.
      destruct (Z.ltb_spec t (deadline init)); [|lia].
      simpl. rewrite He. reflexivity. }
    split; reflexivity.
Qed.

(** C7. When the transport answers before the deadline, the call
    resolves with that very response.  However the request ends (a
    response, a failure, or the abort at the deadline), the call settles
    and the timers pending afterwards are those that were pending before
    it: the abort timer it armed is not among them.  This holds for
    [src/index.ts], whose [finally] block calls [clearTimeout], and for
    [index.js], whose [finally] block calls [clearImmediate] on the handle
    of [setTimeout]. *)
Theorem fetchWithTimeout_returns_response_and_clears_timer (url : Url)
    (init : option RequestInit) (w : World) :
  World_ok w ->
  let ts := fetchWithTimeout transport url init w in
  let js := fetchWithTimeout_js transport url init w in
  (forall t r,
     transport url (sent_init init (next_id w)) = Settles t (inl r) ->
     t < deadline init ->
     fst ts = Resolved r /\ fst js = Resolved r) /\
  (fst ts <> Pending /\ fst js <> Pending) /\
  (In (abort_timer init w) (armed (snd ts)) /\
   timeouts (snd ts) = timeouts w /\
   ~ In (abort_timer init w) (timeouts (snd ts))) /\
  (In (abort_timer init w) (armed (snd js)) /\
   timeouts (snd js) = timeouts w /\
   ~ In (abort_timer init w) (timeouts (snd js))).
Proof.
  intros Hok ts js.
  assert (Hjs : js = ts) by apply fetchWithTimeout_js_world.
  destruct (fetchWithTimeout_clears_timer url init w Hok) as [Hset Hclear].
  assert (Harmed : In (abort_timer init w) (armed (snd ts))).
  { subst ts. unfold fetchWithTimeout.
    rewrite fetchWithTimeout_with_armed by apply clearTimeout_armed.
    apply in_or_app. right. left. reflexivity. }
  assert (Hgone : ~ In (abort_timer init w) (timeouts (snd ts))).
  { subst ts. rewrite Hclear. intros Hin.
    pose proof (World_ok_ids w Hok) as Hids.
    rewrite List.Forall_forall in Hids. apply Hids in Hin.
    simpl in Hin. lia. }
  rewrite Hjs. split; [|split; [|split]].
  - intros t r Hb Ht.
    assert (fst ts = Resolved r) as ->; [|split; reflexivity].
    subst ts. unfold fetchWithTimeout.
    timeout_cases url init w Hok; [|discriminate].
    injection Hb as -> ->.
    destruct (Z.ltb_spec t (deadline init)); [|lia]. reflexivity.
  - split; exact Hset.
  - split; [exact Harmed|split; [exact Hclear|exact Hgone]].
  - split; [exact Harmed|split; [exact Hclear|exact Hgone]].
Qed.

(** C10. A [timeout] option that is absent or falsy (0, NaN) makes the
    call arm its timer with the default of 5000 ms, in both builds; the
    same holds through [fetchByProxy], which passes its options on, and
    through [fetchWithAuth], whose [addHeader] keeps the option. *)
Theorem falsy_timeout_selects_default (url : Url)
    (init : option RequestInit) (w : World) :
  timeout_falsy init = true ->
  let t5000 := MkTimer (S (next_id w)) (Num 5000) (Abort (next_id w)) in
  deadline init = 5000 /\
  armed (snd (fetchWithTimeout transport url init w)) = armed w ++ [t5000] /\
  armed (snd (fetchWithTimeout_js transport url init w))
  = armed w ++ [t5000] /\
  (forall proxy i a,
     init = Some i ->
     proxy (proxyUrl i) = inl a ->
     armed (snd (fetchByProxy transport proxy url init w))
     = armed w ++ [t5000]) /\
  (forall key value,
     timeout_falsy (Some (addHeader init key value)) = true).
Proof.
  intros Hfalsy t5000.
  assert (Harg : or_default (init ≫= timeout) (Num 5000) = Num 5000).
  { unfold timeout_falsy in Hfalsy. unfold or_default.
    destruct (init ≫= timeout) as [n|]; [|reflexivity].
    destruct (number_truthy n); [discriminate|reflexivity]. }
  assert (Htm : abort_timer init w = t5000).
  { unfold abort_timer. rewrite Harg. reflexivity. }
  split; [unfold deadline; rewrite Harg; reflexivity|].
  split; [|split; [|split]].
  - unfold fetchWithTimeout.
    rewrite fetchWithTimeout_with_armed by apply clearTimeout_armed.
    rewrite Htm. reflexivity.
  - unfold fetchWithTimeout_js.
    rewrite fetchWithTimeout_with_armed by apply clearImmediate_armed.
    rewrite Htm. reflexivity.
  - intros proxy i a -> Ha. unfold fetchByProxy, new_HttpsProxyAgent.
    rewrite Ha. unfold bind at 1. unfold ret at 1. unfold bind at 1.
    assert (Hsame : abort_timer (Some (with_agent i a)) w = t5000).
    { rewrite <- Htm. reflexivity. }
    pose proof (fetchWithTimeout_with_armed clearTimeout url
                  (Some (with_agent i a)) w clearTimeout_armed) as Harmed.
    rewrite Hsame in Harmed. unfold fetchWithTimeout.
    destruct (fetchWithTimeout_with transport clearTimeout url
                (Some (with_agent i a)) w) as [[r|e|] w']; exact Harmed.
  - intros key value. destruct init as [i|]; [exact Hfalsy|reflexivity].
Qed.

(** C8. With [proxyUrl] left out, and an agent constructor that throws
    on [undefined], [fetchByProxy] rejects before it touches the world: no
    request reaches the transport and no timer is armed.  Without options
    at all the rejection is the [TypeError] of reading [init.proxyUrl]. *)
Theorem fetchByProxy_requires_proxyUrl
    (proxy : option string -> Agent + jserror) (url : Url)
    (init : option RequestInit) (w : World) (e : jserror) :
  omits_proxyUrl init = true ->
  proxy None = inr e ->
  exists e',
    fetchByProxy transport proxy url init w = (Rejected e', w) /\
    e' = match init with
         | Some _ => e
         | None => undefined_property "proxyUrl"
         end.
Proof.
  intros Homit He. destruct init as [i|]; simpl.
  - exists e. split; [|reflexivity].
    unfold omits_proxyUrl in Homit. simpl in Homit.
    unfold bind, new_HttpsProxyAgent.
    destruct (proxyUrl i); [discriminate|]. rewrite He. reflexivity.
  - eexists. split; reflexivity.
Qed.

End TimeoutFacts.

Lemma fetchWithTimeout_timeout_or_unchanged_witness :
  fst (fetchWithTimeout Sample.slow "https://example.org" None world0)
  = Rejected (new_Error "timeout") /\
  fst (fetchWithTimeout Sample.failing "https://example.org" None world0)
  = Rejected Sample.refused.
Proof.
  assert (Hok : World_ok world0) by constructor.
  split.
  - destruct (fetchWithTimeout_timeout_or_unchanged
                Sample.slow "https://example.org" None world0 Hok)
      as [Hlate _].
    apply Hlate. reflexivity.
  - destruct (fetchWithTimeout_timeout_or_unchanged
                Sample.failing "https://example.org" None world0 Hok)
      as [_ Hfail].
    apply (Hfail 10 Sample.refused); [reflexivity|reflexivity|reflexivity].
Defined.

Lemma fetchWithTimeout_returns_response_and_clears_timer_witness :
  fst (fetchWithTimeout_js Sample.quick "https://example.org" None world0)
  = Resolved Sample.ok /\
  timeouts (snd (fetchWithTimeout Sample.quick "https://example.org" None
                   world0)) = [] /\
  timeouts (snd (fetchWithTimeout_js Sample.slow "https://example.org" None
                   world0)) = [].
Proof.
  assert (Hok : World_ok world0) by constructor.
  destruct (fetchWithTimeout_returns_response_and_clears_timer
              Sample.quick "https://example.org" None world0 Hok)
    as [Hres [_ [[_ [Hts _]] _]]].
  destruct (fetchWithTimeout_returns_response_and_clears_timer
              Sample.slow "https://example.org" None world0 Hok)
    as [_ [_ [_ [_ [Hjs _]]]]].
  split; [|split; [exact Hts|exact Hjs]].
  apply (Hres 10 Sample.ok); reflexivity.
Defined.

Lemma falsy_timeout_selects_default_witness :
  deadline (Some Sample.zero_timeout) = 5000 /\
  armed (snd (fetchWithTimeout Sample.quick "https://example.org"
                (Some Sample.zero_timeout) world0))
  = [MkTimer 1 (Num 5000) (Abort 0)].
Proof.
  destruct (falsy_timeout_selects_default
              Sample.quick "https://example.org" (Some Sample.zero_timeout)
              world0 eq_refl) as [Hd [Ha _]].
  split; [exact Hd|exact Ha].
Defined.

Lemma fetchByProxy_requires_proxyUrl_witness :
  exists e,
    fetchByProxy Sample.quick Sample.proxy_agent "https://example.org"
      (Some (MkInit None [] None None None [])) world0
    = (Rejected e, world0).
Proof.
  destruct (fetchByProxy_requires_proxyUrl
              Sample.quick Sample.proxy_agent "https://example.org"
              (Some (MkInit None [] None None None [])) world0
              (MkError ClsTypeError "Invalid URL") eq_refl eq_refl)
    as [e [He _]].
  exists e. exact He.
Defined.

(** ** [fetchWithRetry] *)

Section RetryFacts.

Variable A : Type.
Variable fun_ : nat -> attempt A.

Lemma find_timer_last (n : nat) (l : list Timer) (tm : Timer) :
  timer_id tm = n ->
  List.find (is_timer n) (l ++ [tm]) <> None.
Proof.
  intros Htm. induction l as [|t l IH]; simpl.
  - unfold is_timer. rewrite Htm, Nat.eqb_refl. discriminate.
  - destruct (is_timer n t); [discriminate|exact IH].
Qed.

(** The world after a failed attempt: the operation was invoked once
    more, two lines were logged, one timer was armed with the interval
    of this activation, and the next activation runs with the default. *)
Lemma fetchWithRetry_throw (fuel : nat) (interval : option Z) (w : World)
    (e : jserror) :
  fun_ (fun_calls w) = Throws e ->
  exists w1,
    fetchWithRetry A fun_ (S fuel) interval w
    = fetchWithRetry A fun_ fuel None w1 /\
    fun_calls w1 = S (fun_calls w) /\
    armed w1 = armed w ++ [MkTimer (next_id w)
                             (Num (1000 * param_default interval 5)) Wake] /\
    console w1 = console w ++ [LogError e;
                               LogRetry (param_default interval 5)].
Proof.
  intros He. simpl.
  unfold try_catch, bind at 1, call_fun. rewrite He.
  unfold bind, console_log, modify, sleep, setTimeout, bind. simpl.
  set (tm := MkTimer (next_id w) (Num (1000 * param_default interval 5)) Wake).
  pose proof (find_timer_last (next_id w) (timeouts w) tm eq_refl) as Hfind.
  destruct (List.find (is_timer (next_id w)) (timeouts w ++ [tm])) as [t|];
    [|contradiction].
  eexists. split; [reflexivity|].
  simpl. rewrite <- app_assoc. repeat split; reflexivity.
Qed.

Lemma fetchWithRetry_return (fuel : nat) (interval : option Z) (w : World)
    (v : A) :
  fun_ (fun_calls w) = Returns v ->
  fetchWithRetry A fun_ (S fuel) interval w = (Resolved v, count_call w).
Proof.
  intros Hv. simpl. unfold try_catch, bind, call_fun. rewrite Hv.
  reflexivity.
Qed.

Lemma fetchWithRetry_hang (fuel : nat) (interval : option Z) (w : World) :
  fun_ (fun_calls w) = Hangs ->
  fetchWithRetry A fun_ (S fuel) interval w = (Pending, count_call w).
Proof.
  intros Hv. simpl. unfold try_catch, bind, call_fun. rewrite Hv.
  reflexivity.
Qed.

(** An operation that fails [n] times and then returns [v]: the call
    resolves to [v] after [n] further timers, the first armed with the
    interval given and the others with the default. *)
Lemma fetchWithRetry_resolves (n extra : nat) (interval : option Z)
    (w : World) (v : A) :
  (forall k, (k < n)%nat -> exists e, fun_ (fun_calls w + k) = Throws e) ->
  fun_ (fun_calls w + n) = Returns v ->
  exists w' timers,
    fetchWithRetry A fun_ (S n + extra) interval w = (Resolved v, w') /\
    fun_calls w' = (fun_calls w + S n)%nat /\
    armed w' = armed w ++ timers /\
    map timer_arg timers
    = match n with
      | O => []
      | S m => Num (1000 * param_default interval 5) :: repeat (Num 5000) m
      end /\
    length (console w') = (length (console w) + 2 * n)%nat.
Proof.
  revert interval w. induction n as [|n IH]; intros interval w Hfail Hok.
  - rewrite Nat.add_0_r in Hok.
    exists (count_call w), []. rewrite (fetchWithRetry_return _ _ _ _ Hok).
    simpl. rewrite app_nil_r. repeat split; lia.
  - destruct (Hfail 0%nat ltac:(lia)) as [e He].
    rewrite Nat.add_0_r in He.
    destruct (fetchWithRetry_throw (S n + extra) interval w e He)
      as (w1 & Hstep & Hcalls & Harmed & Hconsole).
    destruct (IH None w1) as (w' & timers & Hrun & Hcalls' & Hext & Hargs & Hlog).
    { intros k Hk. rewrite Hcalls.
      destruct (Hfail (S k) ltac:(lia)) as [e' He']. exists e'.
      rewrite <- He'. f_equal. lia. }
    { rewrite Hcalls. rewrite <- Hok. f_equal. lia. }
    exists w', (MkTimer (next_id w)
                  (Num (1000 * param_default interval 5)) Wake :: timers).
    split; [|split; [|split; [|split]]].
    + change (S (S n) + extra)%nat with (S (S n + extra)).
      rewrite Hstep. exact Hrun.
    + lia.
    + rewrite Hext, Harmed, <- app_assoc. reflexivity.
    + simpl. rewrite Hargs. destruct n; reflexivity.
    + rewrite Hlog, Hconsole, length_app. simpl. lia.
Qed.

(** Every attempt consumes one unit of fuel, and a failed one is followed
    by the next. *)
Lemma fetchWithRetry_all_fail (fuel : nat) (interval : option Z) (w : World) :
  (forall k, exists e, fun_ k = Throws e) ->
  fst (fetchWithRetry A fun_ fuel interval w) = Pending /\
  fun_calls (snd (fetchWithRetry A fun_ fuel interval w))
  = (fun_calls w + fuel)%nat /\
  length (console (snd (fetchWithRetry A fun_ fuel interval w)))
  = (length (console w) + 2 * fuel)%nat /\
  length (armed (snd (fetchWithRetry A fun_ fuel interval w)))
  = (length (armed w) + fuel)%nat.
Proof.
  intros Hdown. revert interval w.
  induction fuel as [|fuel IH]; intros interval w.
  - simpl. repeat split; lia.
  - destruct (Hdown (fun_calls w)) as [e He].
    destruct (fetchWithRetry_throw fuel interval w e He)
      as (w1 & Hstep & Hcalls & Harmed & Hconsole).
    rewrite Hstep. destruct (IH None w1) as (Hp & Hc & Hl & Ha).
    rewrite Hp, Hc, Hl, Ha, Hcalls, Hconsole, Harmed, !length_app. simpl.
    repeat split; lia.
Qed.

Lemma fetchWithRetry_not_rejected (fuel : nat) (interval : option Z)
    (w : World) (e : jserror) :
  fst (fetchWithRetry A fun_ fuel interval w) <> Rejected e.
Proof.
  revert interval w. induction fuel as [|fuel IH]; intros interval w.
  - discriminate.
  - destruct (fun_ (fun_calls w)) as [v|e'|] eqn:Hf.
    + rewrite (fetchWithRetry_return _ _ _ _ Hf). discriminate.
    + destruct (fetchWithRetry_throw fuel interval w e' Hf)
        as (w1 & Hstep & _).
      rewrite Hstep. apply IH.
    + rewrite (fetchWithRetry_hang _ _ _ Hf). discriminate.
Qed.

Lemma fetchWithRetry_value (fuel : nat) (interval : option Z) (w : World)
    (v : A) :
  fst (fetchWithRetry A fun_ fuel interval w) = Resolved v ->
  exists k, (fun_calls w <= k)%nat /\ fun_ k = Returns v.
Proof.
  revert interval w. induction fuel as [|fuel IH]; intros interval w.
  - discriminate.
  - destruct (fun_ (fun_calls w)) as [v'|e'|] eqn:Hf.
    + rewrite (fetchWithRetry_return _ _ _ _ Hf). simpl.
      intros [= <-]. exists (fun_calls w). split; [lia|exact Hf].
    + destruct (fetchWithRetry_throw fuel interval w e' Hf)
        as (w1 & Hstep & Hcalls & _).
      rewrite Hstep. intros Hres.
      destruct (IH None w1 Hres) as (k & Hk & Hv).
      exists k. split; [lia|exact Hv].
    + rewrite (fetchWithRetry_hang _ _ _ Hf). discriminate.
Qed.

Lemma fetchWithRetry_never_returns (fuel : nat) (interval : option Z)
    (w : World) :
  (forall k v, fun_ k <> Returns v) ->
  fst (fetchWithRetry A fun_ fuel interval w) = Pending.
Proof.
  intros Hnever.
  destruct (fst (fetchWithRetry A fun_ fuel interval w)) as [v|e|] eqn:Hres.
  - destruct (fetchWithRetry_value _ _ _ _ Hres) as (k & _ & Hv).
    destruct (Hnever k v Hv).
  - destruct (fetchWithRetry_not_rejected fuel interval w e Hres).
  - reflexivity.
Qed.

(** C1. Given an operation that fails [n] times and then returns [v], and
    an interval of [i] seconds, the call resolves to [v] after exactly [n]
    timers; the first is armed with [1000 * i] ms, every later one with
    5000 ms, because the recursive call passes no interval.  With
    [5 < i] and [2 <= n] a later delay is shorter than [i] seconds. *)
Theorem fetchWithRetry_forgets_interval (n extra : nat) (i : Z) (w : World)
    (v : A) :
  (forall k, (k < n)%nat -> exists e, fun_ (fun_calls w + k) = Throws e) ->
  fun_ (fun_calls w + n) = Returns v ->
  exists w' timers,
    fetchWithRetry A fun_ (S n + extra) (Some i) w = (Resolved v, w') /\
    fun_calls w' = (fun_calls w + S n)%nat /\
    armed w' = armed w ++ timers /\
    map timer_arg timers
    = match n with
      | O => []
      | S m => Num (1000 * i) :: repeat (Num 5000) m
      end /\
    ((2 <= n)%nat -> 5 < i ->
     exists t, In t timers /\ timer_delay t = 5000 /\ timer_delay t < 1000 * i).
Proof.
  intros Hfail Hok.
  destruct (fetchWithRetry_resolves n extra (Some i) w v Hfail Hok)
    as (w' & timers & Hrun & Hcalls & Hext & Hargs & _).
  exists w', timers. repeat split; try assumption.
  intros Hn Hi.
  destruct n as [|[|m]]; [lia|lia|]. simpl in Hargs.
  destruct timers as [|t1 [|t2 rest]]; try discriminate.
  injection Hargs as _ H2 _.
  exists t2. split; [right; left; reflexivity|].
  unfold timer_delay. rewrite H2. simpl. lia.
Qed.

(** C9. The promise of [fetchWithRetry] is never rejected; when it
    resolves, the value is one the operation returned; when the operation
    never returns the promise stays pending however far the run is
    followed, and when every attempt fails each of them is logged (two
    lines) and followed by one more timer and one more attempt. *)
Theorem fetchWithRetry_never_rejects (fuel : nat) (interval : option Z)
    (w : World) :
  (forall e, fst (fetchWithRetry A fun_ fuel interval w) <> Rejected e) /\
  (forall v, fst (fetchWithRetry A fun_ fuel interval w) = Resolved v ->
             exists k, fun_ k = Returns v) /\
  ((forall k v, fun_ k <> Returns v) ->
   fst (fetchWithRetry A fun_ fuel interval w) = Pending) /\
  ((forall k, exists e, fun_ k = Throws e) ->
   fun_calls (snd (fetchWithRetry A fun_ fuel interval w))
   = (fun_calls w + fuel)%nat /\
   length (console (snd (fetchWithRetry A fun_ fuel interval w)))
   = (length (console w) + 2 * fuel)%nat /\
   length (armed (snd (fetchWithRetry A fun_ fuel interval w)))
   = (length (armed w) + fuel)%nat).
Proof.
  split; [|split; [|split]].
  - intros e. apply fetchWithRetry_not_rejected.
  - intros v Hres.
    destruct (fetchWithRetry_value _ _ _ _ Hres) as (k & _ & Hv).
    exists k. exact Hv.
  - apply fetchWithRetry_never_returns.
  - intros Hdown.
    destruct (fetchWithRetry_all_fail fuel interval w Hdown)
      as (_ & Hc & Hl & Ha).
    repeat split; assumption.
Qed.

End RetryFacts.

Lemma fetchWithRetry_forgets_interval_witness :
  exists w' t1 t2,
    fetchWithRetry Z (Sample.flaky 2 42) 3 (Some 10) world0
    = (Resolved 42, w') /\
    armed w' = [t1; t2] /\
    timer_delay t1 = 10000 /\
    timer_delay t2 = 5000.
Proof.
  destruct (fetchWithRetry_forgets_interval Z (Sample.flaky 2 42)
              2 0 10 world0 42) as (w' & timers & Hrun & _ & Hext & Hargs & _).
  - intros k Hk. exists Sample.refused.
    destruct k as [|[|k]]; [reflexivity|reflexivity|lia].
  - reflexivity.
  - destruct timers as [|t1 [|t2 [|t3 rest]]]; try discriminate.
    injection Hargs as H1 H2.
    exists w', t1, t2. unfold timer_delay. rewrite H1, H2.
    repeat split; assumption.
Defined.

Lemma fetchWithRetry_never_rejects_witness :
  fst (fetchWithRetry Z Sample.always_down 7 (Some 1) world0) = Pending /\
  fun_calls (snd (fetchWithRetry Z Sample.always_down 7 (Some 1) world0))
  = 7%nat.
Proof.
  destruct (fetchWithRetry_never_rejects Z Sample.always_down 7 (Some 1)
              world0) as (_ & _ & Hpending & Hcount).
  split.
  - apply Hpending. intros k v. discriminate.
  - destruct Hcount as [Hc _].
    + intros k. exists Sample.refused. reflexivity.
    + exact Hc.
Defined.

(** ** The promise heap *)

Section FlightFacts.

Context {A : Type}.
Implicit Types (fl : Flight.t A) (r : Flight.Run A).

Lemma run_throw_in_flight (e : jserror) r r' :
  Flight.run_throw e r = Some r' ->
  Flight.run_status_of r = Flight.Attempting /\
  Flight.run_status_of r' = Flight.Sleeping /\
  Flight.run_calls r' = Flight.run_calls r.
Proof.
  unfold Flight.run_throw.
  destruct (Flight.run_status_of r) eqn:E; [|discriminate..].
  intros [= <-]. auto.
Qed.

Lemma run_wake_in_flight r r' :
  Flight.run_wake r = Some r' ->
  Flight.run_status_of r = Flight.Sleeping /\
  Flight.run_status_of r' = Flight.Attempting /\
  Flight.run_calls r' = S (Flight.run_calls r).
Proof.
  unfold Flight.run_wake.
  destruct (Flight.run_status_of r) eqn:E; [discriminate| |discriminate].
  intros [= <-]. auto.
Qed.

Lemma run_return_fulfilled (a : A) r r' :
  Flight.run_return a r = Some r' ->
  Flight.run_status_of r = Flight.Attempting /\
  Flight.run_status_of r' = Flight.Fulfilled a /\
  Flight.run_calls r' = Flight.run_calls r.
Proof.
  unfold Flight.run_return.
  destruct (Flight.run_status_of r) eqn:E; [|discriminate..].
  intros [= <-]. auto.
Qed.

Lemma in_flight_status r :
  Flight.in_flight r = true <->
  Flight.run_status_of r = Flight.Attempting \/
  Flight.run_status_of r = Flight.Sleeping.
Proof.
  unfold Flight.in_flight. destruct (Flight.run_status_of r); split; intros H;
    try discriminate; auto; destruct H; discriminate.
Qed.

Lemma on_run_inv (f : Flight.Run A -> option (Flight.Run A)) (p : nat)
    fl fl' :
  Flight.on_run f p fl = Some fl' ->
  exists r r', Flight.runs fl !! p = Some r /\ f r = Some r' /\
               fl' = Flight.Mk (Flight.promise fl) (<[p := r']> (Flight.runs fl)).
Proof.
  unfold Flight.on_run.
  destruct (Flight.runs fl !! p) as [r|]; [|discriminate].
  destruct (f r) as [r'|] eqn:Hf; [|discriminate].
  intros [= <-]. exists r, r'. repeat split. exact Hf.
Qed.

Lemma single_flight_empty : single_flight (@Flight.empty A).
Proof.
  split.
  - intros p r H. discriminate.
  - intros p H. discriminate.
Qed.

Lemma single_flight_unique fl (p q : nat) r1 r2 :
  single_flight fl ->
  Flight.runs fl !! p = Some r1 -> Flight.in_flight r1 = true ->
  Flight.runs fl !! q = Some r2 -> Flight.in_flight r2 = true ->
  p = q.
Proof.
  intros [H _] Hp H1 Hq H2.
  pose proof (H p r1 Hp H1) as E1. pose proof (H q r2 Hq H2) as E2.
  congruence.
Qed.

Lemma single_flight_idle fl (p : nat) r :
  single_flight fl -> Flight.promise fl = None ->
  Flight.runs fl !! p = Some r -> Flight.in_flight r = false.
Proof.
  intros [H _] Hidle Hp.
  destruct (Flight.in_flight r) eqn:E; [|reflexivity].
  rewrite (H p r Hp E) in Hidle. discriminate.
Qed.

(** [update] joins the run in flight or starts the only one. *)
Lemma single_flight_update fl :
  single_flight fl ->
  single_flight (snd (Flight.update fl)) /\
  Flight.promise (snd (Flight.update fl)) = Some (fst (Flight.update fl)).
Proof.
  intros Hsf. unfold Flight.update.
  destruct (Flight.promise fl) as [p|] eqn:Hp; simpl; [auto|].
  split; [|reflexivity]. split; simpl.
  - intros q r Hq Hr.
    destruct (lookup_app_Some (Flight.runs fl) [Flight.run_start None] q r)
      as [Hcases _].
    destruct (Hcases Hq) as [Hold|[Hge Hnew]].
    + rewrite (single_flight_idle fl q r Hsf Hp Hold) in Hr. discriminate.
    + destruct (q - length (Flight.runs fl))%nat as [|n] eqn:E;
        [|discriminate].
      f_equal. lia.
  - intros q [= <-]. exists (Flight.run_start None). split; [|reflexivity].
    rewrite lookup_app_r by lia. rewrite Nat.sub_diag. reflexivity.
Qed.

(** A step of a run that leaves it in flight. *)
Lemma single_flight_on_run (f : Flight.Run A -> option (Flight.Run A))
    (p : nat) fl fl' :
  (forall r r', f r = Some r' ->
                Flight.in_flight r = true /\ Flight.in_flight r' = true) ->
  single_flight fl ->
  Flight.on_run f p fl = Some fl' ->
  single_flight fl' /\ Flight.promise fl' = Flight.promise fl.
Proof.
  intros Hf [H1 H2] Hrun.
  destruct (on_run_inv f p fl fl' Hrun) as (r & r' & Hp & Hfr & ->).
  destruct (Hf r r' Hfr) as [Hr Hr'].
  pose proof (lookup_lt_Some _ _ _ Hp) as Hlt.
  split; [|reflexivity]. split; simpl.
  - intros q rq Hq Hin.
    destruct (decide (p = q)) as [<-|Hne].
    + apply (H1 p r Hp Hr).
    + rewrite list_lookup_insert_ne in Hq by exact Hne.
      apply (H1 q rq Hq Hin).
  - intros q Hq. destruct (H2 q Hq) as (rq & Hlook & Hin).
    destruct (decide (p = q)) as [<-|Hne].
    + exists r'. split; [|exact Hr'].
      apply list_lookup_insert_eq. exact Hlt.
    + exists rq. split; [|exact Hin].
      rewrite list_lookup_insert_ne by exact Hne. exact Hlook.
Qed.

Lemma throw_keeps_flight (e : jserror) r r' :
  Flight.run_throw e r = Some r' ->
  Flight.in_flight r = true /\ Flight.in_flight r' = true.
Proof.
  intros H. destruct (run_throw_in_flight e r r' H) as (H1 & H2 & _).
  unfold Flight.in_flight. rewrite H1, H2. auto.
Qed.

Lemma wake_keeps_flight r r' :
  Flight.run_wake r = Some r' ->
  Flight.in_flight r = true /\ Flight.in_flight r' = true.
Proof.
  intros H. destruct (run_wake_in_flight r r' H) as (H1 & H2 & _).
  unfold Flight.in_flight. rewrite H1, H2. auto.
Qed.

(** Only the run [promise] refers to can resolve, and then nothing is in
    flight. *)
Lemma single_flight_fulfil (p : nat) (a : A) fl fl' :
  single_flight fl ->
  Flight.fulfil p a fl = Some fl' ->
  single_flight fl' /\ Flight.promise fl = Some p /\
  Flight.promise fl' = None /\
  length (Flight.runs fl') = length (Flight.runs fl).
Proof.
  intros [H1 H2] Hful. unfold Flight.fulfil in Hful.
  destruct (Flight.on_run (Flight.run_return a) p fl) as [fl1|] eqn:Hrun;
    [|discriminate].
  injection Hful as <-.
  destruct (on_run_inv _ p fl fl1 Hrun) as (r & r' & Hp & Hret & ->).
  destruct (run_return_fulfilled a r r' Hret) as (Hr & Hr' & _).
  assert (Hin : Flight.in_flight r = true)
    by (unfold Flight.in_flight; rewrite Hr; reflexivity).
  pose proof (H1 p r Hp Hin) as Hprom.
  simpl. split; [|split; [exact Hprom|split; [reflexivity|]]].
  - split; simpl.
    + intros q rq Hq Hinq. exfalso.
      destruct (decide (p = q)) as [<-|Hne].
      * rewrite list_lookup_insert_eq in Hq
          by (eapply lookup_lt_Some; exact Hp).
        injection Hq as <-. unfold Flight.in_flight in Hinq.
        rewrite Hr' in Hinq. discriminate.
      * rewrite list_lookup_insert_ne in Hq by exact Hne.
        pose proof (H1 q rq Hq Hinq) as E. congruence.
    + intros q Hq. discriminate.
  - apply length_insert.
Qed.

(** *** One run between two idle moments *)

Lemma idle_step_impossible (f : Flight.Run A -> option (Flight.Run A))
    (p : nat) fl fl' :
  (forall r r', f r = Some r' -> Flight.in_flight r = true) ->
  single_flight fl -> Flight.promise fl = None ->
  Flight.on_run f p fl = Some fl' -> False.
Proof.
  intros Hf Hsf Hidle Hrun.
  destruct (on_run_inv f p fl fl' Hrun) as (r & r' & Hp & Hfr & _).
  pose proof (Hf r r' Hfr) as Hin.
  rewrite (single_flight_idle fl p r Hsf Hidle Hp) in Hin. discriminate.
Qed.

Lemma one_run_update fl0 fl (k : nat) :
  Flight.promise fl0 = None ->
  one_run_since fl0 fl k ->
  one_run_since fl0 (snd (Flight.update fl)) k /\
  fst (Flight.update fl) = length (Flight.runs fl0) /\
  Flight.promise (snd (Flight.update fl)) = Some (length (Flight.runs fl0)).
Proof.
  intros Hidle [[-> ->]|(Hp & r & Hruns & Hin & Hk)].
  - unfold Flight.update. rewrite Hidle. simpl.
    split; [|split; reflexivity].
    right. simpl. split; [reflexivity|].
    exists (Flight.run_start None). repeat split.
  - unfold Flight.update. rewrite Hp. simpl.
    split; [|split; [reflexivity|exact Hp]].
    right. split; [exact Hp|]. exists r. auto.
Qed.

(** In a heap with one run since [fl0], a step of a run concerns that
    run. *)
Lemma one_run_on_run (f : Flight.Run A -> option (Flight.Run A)) (p : nat)
    fl0 fl fl' (k : nat) :
  (forall r r', f r = Some r' -> Flight.in_flight r = true) ->
  single_flight fl0 -> Flight.promise fl0 = None ->
  one_run_since fl0 fl k ->
  Flight.on_run f p fl = Some fl' ->
  p = length (Flight.runs fl0) /\
  exists r r', Flight.runs fl = Flight.runs fl0 ++ [r] /\
               failed_attempts r k /\ f r = Some r' /\
               Flight.promise fl = Some p /\
               fl' = Flight.Mk (Some p) (Flight.runs fl0 ++ [r']).
Proof.
  intros Hf Hsf Hidle [[-> ->]|(Hp & r & Hruns & Hin & Hk)] Hrun.
  - destruct (idle_step_impossible f p fl0 fl' Hf Hsf Hidle Hrun).
  - destruct (on_run_inv f p fl fl' Hrun) as (rp & r' & Hlook & Hfr & ->).
    rewrite Hruns in Hlook.
    destruct (lookup_app_Some (Flight.runs fl0) [r] p rp) as [Hcases _].
    destruct (Hcases Hlook) as [Hold|[Hge Hnew]].
    + pose proof (Hf rp r' Hfr) as Hinp.
      rewrite (single_flight_idle fl0 p rp Hsf Hidle Hold) in Hinp.
      discriminate.
    + destruct (p - length (Flight.runs fl0))%nat as [|n] eqn:E;
        [|discriminate].
      injection Hnew as ->.
      assert (Hpeq : p = length (Flight.runs fl0)) by lia.
      split; [exact Hpeq|]. exists rp, r'.
      split; [exact Hruns|]. split; [exact Hk|]. split; [exact Hfr|].
      split; [rewrite Hp, Hpeq; reflexivity|].
      rewrite Hp, Hruns, Hpeq. f_equal.
      rewrite insert_app_r_alt by lia. rewrite Nat.sub_diag. reflexivity.
Qed.

Lemma one_run_throw (p : nat) (e : jserror) fl0 fl fl' (k : nat) :
  single_flight fl0 -> Flight.promise fl0 = None ->
  one_run_since fl0 fl k ->
  Flight.on_run (Flight.run_throw e) p fl = Some fl' ->
  one_run_since fl0 fl' (S k).
Proof.
  intros Hsf Hidle Hone Hrun.
  destruct (one_run_on_run _ p fl0 fl fl' k
              (fun r r' H => proj1 (throw_keeps_flight e r r' H))
              Hsf Hidle Hone Hrun)
    as (-> & r & r' & Hruns & Hk & Hthrow & _ & ->).
  destruct (run_throw_in_flight e r r' Hthrow) as (Hr & Hr' & Hcalls).
  right. simpl. split; [reflexivity|]. exists r'.
  split; [reflexivity|]. split.
  - unfold Flight.in_flight. rewrite Hr'. reflexivity.
  - unfold failed_attempts in *. rewrite Hr in Hk. rewrite Hr'. lia.
Qed.

Lemma one_run_wake (p : nat) fl0 fl fl' (k : nat) :
  single_flight fl0 -> Flight.promise fl0 = None ->
  one_run_since fl0 fl k ->
  Flight.on_run Flight.run_wake p fl = Some fl' ->
  one_run_since fl0 fl' k.
Proof.
  intros Hsf Hidle Hone Hrun.
  destruct (one_run_on_run _ p fl0 fl fl' k
              (fun r r' H => proj1 (wake_keeps_flight r r' H))
              Hsf Hidle Hone Hrun)
    as (-> & r & r' & Hruns & Hk & Hwake & _ & ->).
  destruct (run_wake_in_flight r r' Hwake) as (Hr & Hr' & Hcalls).
  right. simpl. split; [reflexivity|]. exists r'.
  split; [reflexivity|]. split.
  - unfold Flight.in_flight. rewrite Hr'. reflexivity.
  - unfold failed_attempts in *. rewrite Hr in Hk. rewrite Hr'. lia.
Qed.

Lemma total_calls_snoc (l : list (Flight.Run A)) r (pr : option nat) :
  Flight.total_calls (Flight.Mk pr (l ++ [r]))
  = (Flight.total_calls (Flight.Mk pr l) + Flight.run_calls r)%nat.
Proof.
  unfold Flight.total_calls. simpl.
  rewrite map_app, list_sum_app. simpl. lia.
Qed.

Lemma total_calls_promise fl (pr : option nat) :
  Flight.total_calls (Flight.Mk pr (Flight.runs fl)) = Flight.total_calls fl.
Proof. reflexivity. Qed.

(** When the one run resolves it has invoked the operation once and once
    more for every failed attempt. *)
Lemma one_run_fulfil (p : nat) (a : A) fl0 fl fl' (k : nat) :
  single_flight fl0 -> Flight.promise fl0 = None ->
  one_run_since fl0 fl k ->
  Flight.fulfil p a fl = Some fl' ->
  p = length (Flight.runs fl0) /\
  Flight.promise fl' = None /\
  length (Flight.runs fl') = S (length (Flight.runs fl0)) /\
  Flight.total_calls fl' = (Flight.total_calls fl0 + S k)%nat.
Proof.
  intros Hsf Hidle Hone Hful. unfold Flight.fulfil in Hful.
  destruct (Flight.on_run (Flight.run_return a) p fl) as [fl1|] eqn:Hrun;
    [|discriminate].
  injection Hful as <-.
  assert (Hf : forall r r', Flight.run_return a r = Some r' ->
                            Flight.in_flight r = true).
  { intros r r' H. destruct (run_return_fulfilled a r r' H) as (Hr & _).
    unfold Flight.in_flight. rewrite Hr. reflexivity. }
  destruct (one_run_on_run _ p fl0 fl fl1 k Hf Hsf Hidle Hone Hrun)
    as (-> & r & r' & Hruns & Hk & Hret & _ & ->).
  destruct (run_return_fulfilled a r r' Hret) as (Hr & Hr' & Hcalls).
  simpl. split; [reflexivity|]. split; [reflexivity|]. split.
  - rewrite length_app. simpl. lia.
  - rewrite total_calls_snoc, total_calls_promise.
    unfold failed_attempts in Hk. rewrite Hr in Hk. lia.
Qed.

End FlightFacts.

(** ** The runs of the heap are runs of [fetchWithRetry] *)

Section RunRefinement.

Variable A : Type.
Variable fun_ : nat -> attempt A.

Lemma fetchWithRetry_drive (fuel : nat) (interval : option Z) (w w' : World)
    (v : A) (base : nat) (r0 : Flight.Run A) :
  Flight.run_status_of r0 = Flight.Attempting ->
  Flight.run_interval r0 = interval ->
  (base + Flight.run_calls r0 = S (fun_calls w))%nat ->
  fetchWithRetry A fun_ fuel interval w = (Resolved v, w') ->
  exists r timers lines,
    drive fun_ base fuel r0 = Some r /\
    Flight.run_status_of r = Flight.Fulfilled v /\
    (base + Flight.run_calls r = fun_calls w')%nat /\
    armed w' = armed w ++ timers /\
    Flight.run_slept r = Flight.run_slept r0 ++ map timer_delay timers /\
    console w' = console w ++ lines /\
    Flight.run_console r = Flight.run_console r0 ++ lines.
Proof.
  revert interval w base r0.
  induction fuel as [|fuel IH]; intros interval w base r0 Hst Hint Hbase Hrun.
  - discriminate.
  - assert (Hidx : (base + Flight.run_calls r0 - 1)%nat = fun_calls w) by lia.
    simpl drive. rewrite Hidx.
    destruct (fun_ (fun_calls w)) as [a|e|] eqn:Hf.
    + rewrite (fetchWithRetry_return A fun_ _ _ _ _ Hf) in Hrun.
      injection Hrun as <- <-.
      unfold Flight.run_return. rewrite Hst.
      eexists. exists [], []. split; [reflexivity|]. simpl.
      rewrite !app_nil_r. repeat split. lia.
    + destruct (fetchWithRetry_throw A fun_ fuel interval w e Hf)
        as (w1 & Hstep & Hcalls & Harmed & Hconsole).
      rewrite Hstep in Hrun.
      unfold Flight.run_throw. rewrite Hst. unfold Flight.run_wake. simpl.
      destruct (IH None w1 base
                  (Flight.MkRun Flight.Attempting None
                     (S (Flight.run_calls r0))
                     (Flight.run_slept r0
                      ++ [timer_ms (Num (1000 * param_default
                                                  (Flight.run_interval r0) 5))])
                     (Flight.run_console r0
                      ++ [LogError e;
                          LogRetry (param_default (Flight.run_interval r0) 5)]))
                  eq_refl eq_refl ltac:(simpl; lia) Hrun)
        as (r & timers & lines & Hdrive & Hful & Hc & Ha & Hs & Hl & Hrc).
      exists r, (MkTimer (next_id w)
                   (Num (1000 * param_default interval 5)) Wake :: timers),
        ([LogError e; LogRetry (param_default interval 5)] ++ lines).
      split; [exact Hdrive|]. split; [exact Hful|]. split; [exact Hc|].
      simpl in Hs, Hrc. rewrite Hint in Hs, Hrc.
      split; [rewrite Ha, Harmed, <- app_assoc; reflexivity|].
      split; [rewrite Hs, <- app_assoc; reflexivity|].
      split; [rewrite Hl, Hconsole, <- app_assoc; reflexivity|].
      rewrite Hrc, <- app_assoc. reflexivity.
    + rewrite (fetchWithRetry_hang A fun_ _ _ _ Hf) in Hrun. discriminate.
Qed.

(** Whenever [fetchWithRetry(fun, interval)] resolves, the run started
    for it and followed as far reaches [Fulfilled] with the same value,
    the same number of invocations, the same delays and the same log. *)
Lemma fetchWithRetry_as_run (fuel : nat) (interval : option Z) (w w' : World)
    (v : A) :
  fetchWithRetry A fun_ fuel interval w = (Resolved v, w') ->
  exists r timers lines,
    drive fun_ (fun_calls w) fuel (Flight.run_start interval) = Some r /\
    Flight.run_status_of r = Flight.Fulfilled v /\
    (fun_calls w + Flight.run_calls r = fun_calls w')%nat /\
    armed w' = armed w ++ timers /\
    Flight.run_slept r = map timer_delay timers /\
    console w' = console w ++ lines /\
    Flight.run_console r = lines.
Proof.
  intros Hrun.
  destruct (fetchWithRetry_drive fuel interval w w' v (fun_calls w)
              (Flight.run_start interval) eq_refl eq_refl
              ltac:(simpl; lia) Hrun)
    as (r & timers & lines & H).
  exists r, timers, lines. exact H.
Qed.

End RunRefinement.

(** ** [addHeader] *)

Lemma find_after_filter {X : Type} (f : X -> bool) (l : list X) (x : X) :
  f x = true ->
  List.find f (List.filter (fun y => negb (f y)) l ++ [x]) = Some x.
Proof.
  intros Hx. induction l as [|y l IH]; simpl.
  - rewrite Hx. reflexivity.
  - destruct (f y) eqn:Hy; simpl; [exact IH|]. rewrite Hy. exact IH.
Qed.

Lemma headers_get_set (k v : string) (h : Headers) :
  headers_get k (headers_set k v h) = Some v.
Proof.
  unfold headers_get, headers_set.
  rewrite (find_after_filter (fun kv => String.eqb (fst kv) (lower k)) h
             (lower k, v)).
  - reflexivity.
  - simpl. apply String.eqb_refl.
Qed.

(** The request [addHeader] builds carries the credential, and keeps the
    caller's timeout. *)
Lemma addHeader_authorization (init : option RequestInit) (auth : string) :
  headers_get "Authorization" (headers (addHeader init "Authorization" auth))
  = Some auth /\
  timeout (addHeader init "Authorization" auth) = init ≫= timeout.
Proof.
  unfold addHeader. destruct init as [i|]; simpl;
    (split; [apply headers_get_set|reflexivity]).
Qed.

(** Legal and illegal names and values. *)
Lemma header_legality_examples :
  legal_header_name "Authorization" = true /\
  legal_header_name "x-request_id.1" = true /\
  legal_header_name "" = false /\
  legal_header_name "a b" = false /\
  legal_header_name "a:b" = false /\
  legal_header_name (String "010"%char "a") = false /\
  legal_header_value "" = true /\
  legal_header_value "Bearer abc.DEF-123~/+=" = true /\
  legal_header_value (String "009"%char "tab") = true /\
  legal_header_value (String "233"%char "") = true /\
  legal_header_value (String "010"%char "") = false /\
  legal_header_value (String "013"%char "") = false /\
  legal_header_value (String "000"%char "") = false /\
  legal_header_value (String "127"%char "") = false.
Proof. repeat split. Qed.

(** [addHeader] throws exactly when the name or the value is not legal,
    and otherwise returns the options with the header set. *)
Lemma addHeader_or_throw_cases (init : option RequestInit)
    (key value : string) :
  addHeader_or_throw init key value =
  if negb (legal_header_name key) then inr (illegal_name key)
  else if negb (legal_header_value value) then inr (illegal_value value)
  else inl (addHeader init key value).
Proof.
  unfold addHeader_or_throw, Headers_set, addHeader.
  destruct (negb (legal_header_name key)); [reflexivity|].
  destruct (negb (legal_header_value value)); reflexivity.
Qed.

Lemma request_legal (auth : string) (cl : fetchWithAuth.Caller)
    (next : fetchWithAuth.pc) :
  legal_header_value auth = true ->
  fetchWithAuth.request auth cl next =
  fetchWithAuth.MkCaller (fetchWithAuth.c_url cl) (fetchWithAuth.c_init cl)
    next
    (fetchWithAuth.c_attempts cl
     ++ [addHeader (fetchWithAuth.c_init cl) "Authorization" auth]).
Proof.
  intros Hlegal. unfold fetchWithAuth.request.
  rewrite addHeader_or_throw_cases, Hlegal. reflexivity.
Qed.

Lemma request_illegal (auth : string) (cl : fetchWithAuth.Caller)
    (next : fetchWithAuth.pc) :
  legal_header_value auth = false ->
  fetchWithAuth.request auth cl next =
  fetchWithAuth.MkCaller (fetchWithAuth.c_url cl) (fetchWithAuth.c_init cl)
    (fetchWithAuth.Done (Rejected (illegal_value auth)))
    (fetchWithAuth.c_attempts cl).
Proof.
  intros Hlegal. unfold fetchWithAuth.request.
  rewrite addHeader_or_throw_cases, Hlegal. reflexivity.
Qed.

Lemma request_cases (auth : string) (cl : fetchWithAuth.Caller)
    (next : fetchWithAuth.pc) :
  (legal_header_value auth = true /\
   fetchWithAuth.request auth cl next =
   fetchWithAuth.MkCaller (fetchWithAuth.c_url cl) (fetchWithAuth.c_init cl)
     next
     (fetchWithAuth.c_attempts cl
      ++ [addHeader (fetchWithAuth.c_init cl) "Authorization" auth])) \/
  (legal_header_value auth = false /\
   fetchWithAuth.request auth cl next =
   fetchWithAuth.MkCaller (fetchWithAuth.c_url cl) (fetchWithAuth.c_init cl)
     (fetchWithAuth.Done (Rejected (illegal_value auth)))
     (fetchWithAuth.c_attempts cl)).
Proof.
  destruct (legal_header_value auth) eqn:Hl; [left|right];
    (split; [reflexivity|]);
    [apply request_legal|apply request_illegal]; exact Hl.
Qed.

Ltac request_cases H :=
  match type of H with
  | context [fetchWithAuth.request ?a ?c ?n] =>
      let Hr := fresh "Hr" in
      destruct (request_cases a c n) as [[_ Hr]|[_ Hr]]; rewrite Hr in H
  end.

Ltac request_cases_goal :=
  match goal with
  | |- context [fetchWithAuth.request ?a ?c ?n] =>
      let Hl := fresh "Hlegal" in
      let Hr := fresh "Hr" in
      destruct (request_cases a c n) as [[Hl Hr]|[Hl Hr]]; rewrite !Hr
  end.

(** ** [fetchWithAuth] *)

Section AuthFacts.

Implicit Types (s : fetchWithAuth.State) (cl : fetchWithAuth.Caller).

Lemma Auth_ok_init : Auth_ok fetchWithAuth.init_state.
Proof.
  split; [apply single_flight_empty|].
  intros c cl H. discriminate.
Qed.

(** Replacing one caller, possibly after [update]. *)
Lemma Auth_ok_insert s (c : nat) cl cl' (fl' : Flight.t string) :
  Auth_ok s ->
  fetchWithAuth.callers s !! c = Some cl ->
  single_flight fl' ->
  (forall p, Flight.promise (fetchWithAuth.flight s) = Some p ->
             Flight.promise fl' = Some p) ->
  attempts_match cl' ->
  (forall p, fetchWithAuth.c_pc cl' = fetchWithAuth.AwaitUpdate p ->
             Flight.promise fl' = Some p) ->
  Auth_ok (fetchWithAuth.MkState (fetchWithAuth.Authorization s) fl'
             (<[c := cl']> (fetchWithAuth.callers s))).
Proof.
  intros [Hsf Hcallers] Hc Hsf' Hkeep Hmatch Hwait.
  split; [exact Hsf'|]. simpl. intros d cd Hd.
  destruct (decide (c = d)) as [<-|Hne].
  - rewrite list_lookup_insert_eq in Hd by (eapply lookup_lt_Some; exact Hc).
    injection Hd as <-. split; assumption.
  - rewrite list_lookup_insert_ne in Hd by exact Hne.
    destruct (Hcallers d cd Hd) as [Hm Hw]. split; [exact Hm|].
    intros p Hp. apply Hkeep, Hw, Hp.
Qed.

Lemma Auth_ok_step s s' (ev : fetchWithAuth.event) :
  Auth_ok s -> fetchWithAuth.step s ev = Some s' -> Auth_ok s'.
Proof.
  intros Hok Hstep. pose proof Hok as [Hsf Hcallers].
  destruct ev as [url init|c o|p token|p e|p]; simpl in Hstep.
  - (* Call *)
    injection Hstep as <-. split; [exact Hsf|]. simpl. intros c cl Hc.
    apply lookup_app_Some in Hc as [Hold|[_ Hnew]].
    + apply (Hcallers c cl Hold).
    + destruct (c - length (fetchWithAuth.callers s))%nat; [|discriminate].
      injection Hnew as <-.
      destruct (legal_header_value (fetchWithAuth.Authorization s)) eqn:Hl;
        [rewrite request_legal by exact Hl
        |rewrite request_illegal by exact Hl];
        (split; [unfold attempts_match; simpl; lia|]);
        intros p Hp; discriminate.
  - (* Settle *)
    unfold fetchWithAuth.settle_request in Hstep.
    destruct (fetchWithAuth.callers s !! c) as [cl|] eqn:Hc; [|discriminate].
    destruct (Hcallers c cl Hc) as [Hm Hw].
    destruct (fetchWithAuth.c_pc cl) eqn:Hpc; try discriminate.
    + destruct o as [res|e].
      * destruct (fetchWithAuth.unauthorized res).
        -- injection Hstep as <-. unfold fetchWithAuth.update.
           destruct (single_flight_update (fetchWithAuth.flight s) Hsf) as [Hsf' Hp'].
           destruct (Flight.update (fetchWithAuth.flight s)) as [p fl] eqn:Hupd.
           simpl in Hsf', Hp'.
           apply (Auth_ok_insert s c cl _ fl Hok Hc Hsf').
           ++ intros q Hq. unfold Flight.update in Hupd. rewrite Hq in Hupd.
              injection Hupd as <- <-. exact Hq.
           ++ unfold attempts_match in *. rewrite Hpc in Hm. exact Hm.
           ++ simpl. intros q [= <-]. exact Hp'.
        -- injection Hstep as <-.
           apply (Auth_ok_insert s c cl _ _ Hok Hc Hsf); auto.
           ++ unfold attempts_match in *. rewrite Hpc in Hm. simpl. lia.
           ++ simpl. discriminate.
      * injection Hstep as <-.
        apply (Auth_ok_insert s c cl _ _ Hok Hc Hsf); auto.
        -- unfold attempts_match in *. rewrite Hpc in Hm. simpl. lia.
        -- simpl. discriminate.
    + injection Hstep as <-.
      apply (Auth_ok_insert s c cl _ _ Hok Hc Hsf); auto.
      * unfold attempts_match in *. rewrite Hpc in Hm. simpl. lia.
      * simpl. discriminate.
  - (* FunReturns *)
    unfold fetchWithAuth.refreshed in Hstep.
    destruct (Flight.fulfil p token (fetchWithAuth.flight s)) as [fl|] eqn:Hful;
      [|discriminate].
    injection Hstep as <-.
    destruct (single_flight_fulfil p token _ fl Hsf Hful)
      as (Hsf' & Hprom & Hnone & _).
    split; [exact Hsf'|]. simpl. intros c cl' Hc.
    rewrite list_lookup_fmap in Hc.
    destruct (fetchWithAuth.callers s !! c) as [cl|] eqn:Hcl; [|discriminate].
    injection Hc as <-. destruct (Hcallers c cl Hcl) as [Hm Hw].
    unfold fetchWithAuth.resume. unfold attempts_match in Hm.
    destruct (fetchWithAuth.c_pc cl) as [|q| |r] eqn:Hpc.
    + unfold attempts_match. rewrite Hpc. split; [exact Hm|discriminate].
    + pose proof (Hw q eq_refl) as Hq. rewrite Hprom in Hq.
      injection Hq as ->. rewrite Nat.eqb_refl.
      destruct (legal_header_value token) eqn:Hl;
        [rewrite request_legal by exact Hl
        |rewrite request_illegal by exact Hl];
        unfold attempts_match; simpl; rewrite ?length_app; simpl;
        (split; [lia|discriminate]).
    + unfold attempts_match. rewrite Hpc. split; [exact Hm|discriminate].
    + unfold attempts_match. rewrite Hpc. split; [exact Hm|discriminate].
  - (* FunThrows *)
    destruct (Flight.on_run (Flight.run_throw e) p (fetchWithAuth.flight s))
      as [fl|] eqn:Hrun; [|discriminate].
    injection Hstep as <-.
    destruct (single_flight_on_run _ p _ fl (throw_keeps_flight e) Hsf Hrun)
      as [Hsf' Hprom].
    split; [exact Hsf'|]. simpl. rewrite Hprom. exact Hcallers.
  - (* TimerFires *)
    destruct (Flight.on_run Flight.run_wake p (fetchWithAuth.flight s))
      as [fl|] eqn:Hrun; [|discriminate].
    injection Hstep as <-.
    destruct (single_flight_on_run _ p _ fl wake_keeps_flight Hsf Hrun)
      as [Hsf' Hprom].
    split; [exact Hsf'|]. simpl. rewrite Hprom. exact Hcallers.
Qed.

Lemma Auth_ok_run (sch : list fetchWithAuth.event) s s' :
  Auth_ok s -> fetchWithAuth.run s sch = Some s' -> Auth_ok s'.
Proof.
  revert s. induction sch as [|ev sch IH]; intros s Hok Hrun; simpl in Hrun.
  - injection Hrun as <-. exact Hok.
  - destruct (fetchWithAuth.step s ev) as [s1|] eqn:Hstep; [|discriminate].
    apply (IH s1); [|exact Hrun]. apply (Auth_ok_step s s1 ev Hok Hstep).
Qed.

Lemma settle_request_flight (c : nat) (o : Response + jserror) s s' :
  fetchWithAuth.settle_request c o s = Some s' ->
  fetchWithAuth.flight s' = fetchWithAuth.flight s \/
  fetchWithAuth.flight s' = snd (Flight.update (fetchWithAuth.flight s)).
Proof.
  unfold fetchWithAuth.settle_request.
  destruct (fetchWithAuth.callers s !! c) as [cl|]; [|discriminate].
  destruct (fetchWithAuth.c_pc cl); try discriminate.
  - destruct o as [res|e]; [destruct (fetchWithAuth.unauthorized res)|];
      intros [= <-]; auto.
    right. unfold fetchWithAuth.update.
    destruct (Flight.update (fetchWithAuth.flight s)); reflexivity.
  - intros [= <-]; auto.
Qed.

Lemma Auth_one_run_step s0 s s' (k : nat) (ev : fetchWithAuth.event) :
  single_flight (fetchWithAuth.flight s0) ->
  Flight.promise (fetchWithAuth.flight s0) = None ->
  one_run_since (fetchWithAuth.flight s0) (fetchWithAuth.flight s) k ->
  fetchWithAuth.step s ev = Some s' ->
  fetchWithAuth.completes ev = false ->
  one_run_since (fetchWithAuth.flight s0) (fetchWithAuth.flight s')
                (k + length (List.filter fetchWithAuth.throws [ev])).
Proof.
  intros Hsf Hidle Hone Hstep Hev.
  destruct ev as [url init|c o|p token|p e|p]; simpl in *;
    rewrite ?Nat.add_0_r.
  - injection Hstep as <-. exact Hone.
  - destruct (settle_request_flight c o s s' Hstep) as [->| ->];
      [exact Hone|].
    apply (one_run_update _ _ k Hidle Hone).
  - discriminate.
  - destruct (Flight.on_run (Flight.run_throw e) p (fetchWithAuth.flight s))
      as [fl|] eqn:Hrun; [|discriminate].
    injection Hstep as <-. simpl. rewrite Nat.add_1_r.
    apply (one_run_throw p e _ _ fl k Hsf Hidle Hone Hrun).
  - destruct (Flight.on_run Flight.run_wake p (fetchWithAuth.flight s))
      as [fl|] eqn:Hrun; [|discriminate].
    injection Hstep as <-. simpl.
    apply (one_run_wake p _ _ fl k Hsf Hidle Hone Hrun).
Qed.

Lemma Auth_one_run (sch : list fetchWithAuth.event) s0 s s1 (k : nat) :
  single_flight (fetchWithAuth.flight s0) ->
  Flight.promise (fetchWithAuth.flight s0) = None ->
  one_run_since (fetchWithAuth.flight s0) (fetchWithAuth.flight s) k ->
  fetchWithAuth.run s sch = Some s1 ->
  forallb (fun ev => negb (fetchWithAuth.completes ev)) sch = true ->
  one_run_since (fetchWithAuth.flight s0) (fetchWithAuth.flight s1)
                (k + length (List.filter fetchWithAuth.throws sch)).
Proof.
  intros Hsf Hidle. revert s k.
  induction sch as [|ev sch IH]; intros s k Hone Hrun Hall; simpl in Hrun.
  - injection Hrun as <-. simpl. rewrite Nat.add_0_r. exact Hone.
  - destruct (fetchWithAuth.step s ev) as [s2|] eqn:Hstep; [|discriminate].
    simpl in Hall. apply andb_prop in Hall as [Hev Hall].
    apply negb_true_iff in Hev.
    pose proof (Auth_one_run_step s0 s s2 k ev Hsf Hidle Hone Hstep Hev)
      as Hone2.
    pose proof (IH s2 _ Hone2 Hrun Hall) as Hfinal.
    replace (k + length (List.filter fetchWithAuth.throws (ev :: sch)))%nat
      with (k + length (List.filter fetchWithAuth.throws [ev])
            + length (List.filter fetchWithAuth.throws sch))%nat; [exact Hfinal|].
    simpl. destruct (fetchWithAuth.throws ev); simpl; lia.
Qed.

(** When run [p] resolves, the callers awaiting [update()] issue their
    second request with the new credential. *)
Lemma refreshed_retries (p : nat) (token : string) s s' :
  Auth_ok s ->
  fetchWithAuth.step s (fetchWithAuth.FunReturns p token) = Some s' ->
  fetchWithAuth.Authorization s' = token /\
  Flight.promise (fetchWithAuth.flight s') = None /\
  length (Flight.runs (fetchWithAuth.flight s'))
  = length (Flight.runs (fetchWithAuth.flight s)) /\
  forall c cl,
    fetchWithAuth.callers s !! c = Some cl ->
    fetchWithAuth.callers s' !! c
    = Some (if fetchWithAuth.awaiting_update cl
            then fetchWithAuth.request token cl fetchWithAuth.AwaitSecond
            else cl).
Proof.
  intros [Hsf Hcallers] Hstep. simpl in Hstep. unfold fetchWithAuth.refreshed in Hstep.
  destruct (Flight.fulfil p token (fetchWithAuth.flight s)) as [fl|] eqn:Hful;
    [|discriminate].
  injection Hstep as <-.
  destruct (single_flight_fulfil p token _ fl Hsf Hful)
    as (_ & Hprom & Hnone & Hlen).
  simpl. repeat split; try assumption.
  intros c cl Hc. rewrite list_lookup_fmap, Hc. simpl. f_equal.
  destruct (Hcallers c cl Hc) as [_ Hw].
  unfold fetchWithAuth.resume, fetchWithAuth.awaiting_update.
  destruct (fetchWithAuth.c_pc cl) as [|q| |r] eqn:Hpc; try reflexivity.
  pose proof (Hw q eq_refl) as Hq. rewrite Hprom in Hq. injection Hq as ->.
  rewrite Nat.eqb_refl. reflexivity.
Qed.

(** C4. In every state the event loop can reach, a call of the wrapped
    function has issued at most two requests; and when the answer to its
    second request arrives, whatever its status, the call settles with
    that very answer, issues nothing more, and leaves the credential and
    the refresh state as they were. *)
Theorem fetchWithAuth_at_most_two_attempts (sch : list fetchWithAuth.event) s :
  fetchWithAuth.run fetchWithAuth.init_state sch = Some s ->
  (forall c cl, fetchWithAuth.callers s !! c = Some cl ->
                (length (fetchWithAuth.c_attempts cl) <= 2)%nat) /\
  (forall c cl o,
     fetchWithAuth.callers s !! c = Some cl ->
     fetchWithAuth.c_pc cl = fetchWithAuth.AwaitSecond ->
     exists s',
       fetchWithAuth.step s (fetchWithAuth.Settle c o) = Some s' /\
       fetchWithAuth.callers s' !! c
       = Some (fetchWithAuth.MkCaller
                 (fetchWithAuth.c_url cl) (fetchWithAuth.c_init cl)
                 (fetchWithAuth.Done (settle o))
                 (fetchWithAuth.c_attempts cl)) /\
       fetchWithAuth.flight s' = fetchWithAuth.flight s /\
       fetchWithAuth.Authorization s' = fetchWithAuth.Authorization s) /\
  (forall c cl r ev s',
     fetchWithAuth.callers s !! c = Some cl ->
     fetchWithAuth.c_pc cl = fetchWithAuth.Done r ->
     fetchWithAuth.step s ev = Some s' ->
     fetchWithAuth.callers s' !! c = Some cl).
Proof.
  intros Hrun.
  pose proof (Auth_ok_run sch _ s Auth_ok_init Hrun) as Hok.
  pose proof Hok as [Hsf Hcallers].
  split; [|split].
  - intros c cl Hc. destruct (Hcallers c cl Hc) as [Hm _].
    unfold attempts_match in Hm. destruct (fetchWithAuth.c_pc cl); lia.
  - intros c cl o Hc Hpc. eexists. simpl. unfold fetchWithAuth.settle_request.
    rewrite Hc, Hpc. split; [reflexivity|]. simpl.
    split; [|split; reflexivity].
    apply list_lookup_insert_eq. eapply lookup_lt_Some. exact Hc.
  - intros c cl r ev s' Hc Hpc Hstep.
    destruct ev as [url init|d o|p token|p e|p]; simpl in Hstep.
    + injection Hstep as <-. simpl. apply lookup_app_l_Some. exact Hc.
    + unfold fetchWithAuth.settle_request in Hstep.
      destruct (fetchWithAuth.callers s !! d) as [cd|] eqn:Hd; [|discriminate].
      assert (Hne : d <> c).
      { intros ->. rewrite Hc in Hd. injection Hd as <-.
        rewrite Hpc in Hstep. discriminate. }
      destruct (fetchWithAuth.c_pc cd); try discriminate.
      * destruct o as [res|e]; [destruct (fetchWithAuth.unauthorized res)|];
          injection Hstep as <-; simpl;
          try (rewrite list_lookup_insert_ne by exact Hne; exact Hc).
        unfold fetchWithAuth.update. destruct (Flight.update (fetchWithAuth.flight s)).
        simpl. rewrite list_lookup_insert_ne by exact Hne. exact Hc.
      * injection Hstep as <-. simpl.
        rewrite list_lookup_insert_ne by exact Hne. exact Hc.
    + destruct (refreshed_retries p token s s' Hok Hstep) as (_ & _ & _ & H).
      rewrite (H c cl Hc). unfold fetchWithAuth.awaiting_update. rewrite Hpc.
      reflexivity.
    + destruct (Flight.on_run _ p _); [|discriminate].
      injection Hstep as <-. exact Hc.
    + destruct (Flight.on_run _ p _); [|discriminate].
      injection Hstep as <-. exact Hc.
Qed.

(** C2, as amended.  In every state the event loop can reach:
    - at most one run of the token fetch is in flight;
    - every call suspended in [update()] awaits that run;
    - when the run resolves with a token, the credential is replaced and
      no new run is started; if the token is a legal header value, each
      of those calls issues its second request, which carries the token;
      if it is not, [addHeader] throws, and each of those calls rejects
      with the [TypeError] without a second request;
    - from a moment when none is in flight until the next run resolves,
      exactly one run is started, however many calls are answered 401 or
      403 in between, and it invokes the token fetch once, and once more
      for each of its failed attempts;
    - a 401 or 403 answering the first request of a call makes the call
      await the run in flight when there is one, and otherwise (before
      any refresh, or after the last one has resolved) starts a new run,
      which invokes the token fetch. *)
Theorem fetchWithAuth_single_flight (sch : list fetchWithAuth.event) s :
  fetchWithAuth.run fetchWithAuth.init_state sch = Some s ->
  (forall p q rp rq,
     Flight.runs (fetchWithAuth.flight s) !! p = Some rp ->
     Flight.in_flight rp = true ->
     Flight.runs (fetchWithAuth.flight s) !! q = Some rq ->
     Flight.in_flight rq = true ->
     p = q) /\
  (forall c cl,
     fetchWithAuth.callers s !! c = Some cl ->
     fetchWithAuth.awaiting_update cl = true ->
     exists p r,
       fetchWithAuth.c_pc cl = fetchWithAuth.AwaitUpdate p /\
       Flight.promise (fetchWithAuth.flight s) = Some p /\
       Flight.runs (fetchWithAuth.flight s) !! p = Some r /\
       Flight.in_flight r = true) /\
  (forall p token s',
     fetchWithAuth.step s (fetchWithAuth.FunReturns p token) = Some s' ->
     fetchWithAuth.Authorization s' = token /\
     Flight.promise (fetchWithAuth.flight s') = None /\
     length (Flight.runs (fetchWithAuth.flight s'))
     = length (Flight.runs (fetchWithAuth.flight s)) /\
     forall c cl,
       fetchWithAuth.callers s !! c = Some cl ->
       fetchWithAuth.awaiting_update cl = true ->
       (legal_header_value token = true ->
        fetchWithAuth.callers s' !! c
        = Some (fetchWithAuth.MkCaller
                  (fetchWithAuth.c_url cl) (fetchWithAuth.c_init cl)
                  fetchWithAuth.AwaitSecond
                  (fetchWithAuth.c_attempts cl
                   ++ [addHeader (fetchWithAuth.c_init cl) "Authorization"
                         token])) /\
        headers_get "Authorization"
          (headers (addHeader (fetchWithAuth.c_init cl) "Authorization"
                      token))
        = Some token) /\
       (legal_header_value token = false ->
        fetchWithAuth.callers s' !! c
        = Some (fetchWithAuth.MkCaller
                  (fetchWithAuth.c_url cl) (fetchWithAuth.c_init cl)
                  (fetchWithAuth.Done (Rejected (illegal_value token)))
                  (fetchWithAuth.c_attempts cl)))) /\
  (forall sch' s1 p token s2,
     Flight.promise (fetchWithAuth.flight s) = None ->
     fetchWithAuth.run s sch' = Some s1 ->
     forallb (fun ev => negb (fetchWithAuth.completes ev)) sch' = true ->
     fetchWithAuth.step s1 (fetchWithAuth.FunReturns p token) = Some s2 ->
     length (Flight.runs (fetchWithAuth.flight s2))
     = S (length (Flight.runs (fetchWithAuth.flight s))) /\
     Flight.total_calls (fetchWithAuth.flight s2)
     = (Flight.total_calls (fetchWithAuth.flight s)
        + S (length (List.filter fetchWithAuth.throws sch')))%nat) /\
  (forall c cl res,
     fetchWithAuth.callers s !! c = Some cl ->
     fetchWithAuth.c_pc cl = fetchWithAuth.AwaitFirst ->
     fetchWithAuth.unauthorized res = true ->
     exists s' p,
       fetchWithAuth.step s (fetchWithAuth.Settle c (inl res)) = Some s' /\
       fetchWithAuth.callers s' !! c
       = Some (fetchWithAuth.set_pc (fetchWithAuth.AwaitUpdate p) cl) /\
       fetchWithAuth.Authorization s' = fetchWithAuth.Authorization s /\
       Flight.promise (fetchWithAuth.flight s') = Some p /\
       match Flight.promise (fetchWithAuth.flight s) with
       | Some _ => fetchWithAuth.flight s' = fetchWithAuth.flight s
       | None =>
           p = length (Flight.runs (fetchWithAuth.flight s)) /\
           Flight.runs (fetchWithAuth.flight s')
           = Flight.runs (fetchWithAuth.flight s) ++ [Flight.run_start None]
           /\
           Flight.total_calls (fetchWithAuth.flight s')
           = S (Flight.total_calls (fetchWithAuth.flight s))
       end).
Proof.
  intros Hrun.
  pose proof (Auth_ok_run sch _ s Auth_ok_init Hrun) as Hok.
  pose proof Hok as [Hsf Hcallers].
  split; [|split; [|split; [|split]]].
  - intros p q rp rq Hp Hrp Hq Hrq.
    apply (single_flight_unique _ p q rp rq Hsf Hp Hrp Hq Hrq).
  - intros c cl Hc Hwait. unfold fetchWithAuth.awaiting_update in Hwait.
    destruct (fetchWithAuth.c_pc cl) as [|p| |r] eqn:Hpc; try discriminate.
    destruct (Hcallers c cl Hc) as [_ Hw].
    pose proof (Hw p Hpc) as Hp.
    destruct Hsf as [_ H2]. destruct (H2 p Hp) as (r & Hr & Hin).
    exists p, r. auto.
  - intros p token s' Hstep.
    destruct (refreshed_retries p token s s' Hok Hstep)
      as (Hauth & Hnone & Hlen & Hretry).
    split; [exact Hauth|]. split; [exact Hnone|]. split; [exact Hlen|].
    intros c cl Hc Hwait. rewrite (Hretry c cl Hc), Hwait. split.
    + intros Hl. rewrite request_legal by exact Hl.
      split; [reflexivity|apply addHeader_authorization].
    + intros Hl. rewrite request_illegal by exact Hl. reflexivity.
  - intros sch' s1 p token s2 Hidle Hrun' Hall Hstep.
    assert (Hone : one_run_since (fetchWithAuth.flight s) (fetchWithAuth.flight s) 0)
      by (left; auto).
    pose proof (Auth_one_run sch' s s s1 0 Hsf Hidle Hone Hrun' Hall)
      as Hone1.
    simpl in Hstep. unfold fetchWithAuth.refreshed in Hstep.
    destruct (Flight.fulfil p token (fetchWithAuth.flight s1)) as [fl|] eqn:Hful;
      [|discriminate].
    injection Hstep as <-. simpl.
    destruct (one_run_fulfil p token _ _ fl _ Hsf Hidle Hone1 Hful)
      as (_ & _ & Hlen & Htotal).
    split; [exact Hlen|exact Htotal].
  - intros c cl res Hc Hpc Hdenied.
    pose proof (lookup_lt_Some _ _ _ Hc) as Hlt.
    simpl. unfold fetchWithAuth.settle_request.
    rewrite Hc, Hpc, Hdenied. unfold fetchWithAuth.update, Flight.update.
    destruct (fetchWithAuth.flight s) as [pr rs] eqn:Hfl. simpl.
    destruct pr as [q|]; eexists; eexists;
      (split; [reflexivity|]); simpl;
      (split; [apply list_lookup_insert_eq; exact Hlt|]);
      (split; [reflexivity|]); (split; [reflexivity|]).
    + reflexivity.
    + split; [reflexivity|]. split; [reflexivity|].
      rewrite total_calls_snoc. unfold Flight.total_calls. simpl. lia.
Qed.

End AuthFacts.

Lemma fetchWithAuth_at_most_two_attempts_witness :
  exists s,
    fetchWithAuth.run fetchWithAuth.init_state Sample.denied_twice = Some s /\
    (forall c cl, fetchWithAuth.callers s !! c = Some cl ->
                  (length (fetchWithAuth.c_attempts cl) <= 2)%nat) /\
    fetchWithAuth.c_pc <$> fetchWithAuth.callers s
    = [fetchWithAuth.Done (Resolved Sample.forbidden)] /\
    Flight.total_calls (fetchWithAuth.flight s) = 1%nat.
Proof.
  let r := eval vm_compute in
           (fetchWithAuth.run fetchWithAuth.init_state Sample.denied_twice) in
  match r with
  | Some ?st =>
      exists st; split; [reflexivity|];
      destruct (fetchWithAuth_at_most_two_attempts Sample.denied_twice st
                  eq_refl) as (Hle & _ & _);
      split; [exact Hle|split; reflexivity]
  end.
Defined.

Lemma fetchWithAuth_single_flight_witness :
  exists s1 s2 s3,
    fetchWithAuth.run fetchWithAuth.init_state Sample.both_denied = Some s1 /\
    fetchWithAuth.step s1 (fetchWithAuth.FunReturns 0 "token") = Some s2 /\
    length (Flight.runs (fetchWithAuth.flight s2)) = 1%nat /\
    Flight.total_calls (fetchWithAuth.flight s2) = 1%nat /\
    fetchWithAuth.c_pc <$> fetchWithAuth.callers s2
    = [fetchWithAuth.AwaitSecond; fetchWithAuth.AwaitSecond] /\
    (exists cl,
       fetchWithAuth.callers s2 !! 0%nat = Some cl /\
       length (fetchWithAuth.c_attempts cl) = 2%nat) /\
    fetchWithAuth.step s1 (fetchWithAuth.FunReturns 0 Scenario.broken_token)
    = Some s3 /\
    (exists cl,
       fetchWithAuth.callers s3 !! 0%nat = Some cl /\
       fetchWithAuth.c_pc cl
       = fetchWithAuth.Done (Rejected (illegal_value Scenario.broken_token))
       /\
       length (fetchWithAuth.c_attempts cl) = 1%nat).
Proof.
  destruct (fetchWithAuth_single_flight [] fetchWithAuth.init_state eq_refl)
    as (_ & _ & _ & Hone & _).
  let r := eval vm_compute in
           (fetchWithAuth.run fetchWithAuth.init_state Sample.both_denied) in
  match r with
  | Some ?st1 =>
      let r2 := eval vm_compute in
                (fetchWithAuth.step st1 (fetchWithAuth.FunReturns 0 "token")) in
      let r3 := eval vm_compute in
                (fetchWithAuth.step st1
                   (fetchWithAuth.FunReturns 0 Scenario.broken_token)) in
      let c0 := eval vm_compute in (fetchWithAuth.callers st1 !! 0%nat) in
      match r2 with
      | Some ?st2 =>
          match r3 with
          | Some ?st3 =>
              match c0 with
              | Some ?cl0 =>
                  exists st1, st2, st3;
                  split; [reflexivity|]; split; [reflexivity|];
                  destruct (Hone Sample.both_denied st1 0%nat "token" st2
                              eq_refl eq_refl eq_refl eq_refl)
                    as [Hlen Htotal];
                  split; [exact Hlen|];
                  split; [exact Htotal|];
                  split; [reflexivity|];
                  destruct (fetchWithAuth_single_flight Sample.both_denied st1
                              eq_refl) as (_ & _ & Hretry & _);
                  destruct (Hretry 0%nat "token" st2 eq_refl)
                    as (_ & _ & _ & Hcl);
                  destruct (Hcl 0%nat cl0 eq_refl eq_refl) as [Hlegal _];
                  destruct (Hlegal eq_refl) as [Hlook _];
                  split; [eexists; split; [exact Hlook|reflexivity]|];
                  split; [reflexivity|];
                  destruct (Hretry 0%nat Scenario.broken_token st3 eq_refl)
                    as (_ & _ & _ & Hcl');
                  destruct (Hcl' 0%nat cl0 eq_refl eq_refl) as [_ Hillegal];
                  eexists; split; [exact (Hillegal eq_refl)|];
                  split; reflexivity
              end
          end
      end
  end.
Defined.

(** C2, as stated, fails: two calls are in flight together and each is
    answered 401 on its first attempt, but the second answer arrives after
    the refresh started by the first has resolved.  [update] finds
    [promise] null again and starts a second run: the token fetch is
    invoked twice, and the second call awaits run 1, not run 0. *)
Lemma fetchWithAuth_late_401_refreshes_again :
  exists s,
    fetchWithAuth.run fetchWithAuth.init_state Sample.late_denial = Some s /\
    length (Flight.runs (fetchWithAuth.flight s)) = 2%nat /\
    Flight.total_calls (fetchWithAuth.flight s) = 2%nat /\
    fetchWithAuth.c_pc <$> fetchWithAuth.callers s
    = [fetchWithAuth.AwaitSecond; fetchWithAuth.AwaitUpdate 1].
Proof.
  eexists. split; [reflexivity|]. repeat split; reflexivity.
Qed.

(** ToBoolean is false of these values and of no other. *)
Lemma truthy_false_iff (v : jsval) :
  truthy v = false <-> In v falsy_values.
Proof.
  unfold falsy_values. split.
  - destruct v as [| |[]|[z|]|str|id]; simpl; intros H; try discriminate;
      auto 10.
    + apply negb_false_iff, Z.eqb_eq in H. subst z. auto 10.
    + apply negb_false_iff, String.eqb_eq in H. subst str. auto 10.
  - simpl. intros [<-|[<-|[<-|[<-|[<-|[<-|[]]]]]]]; reflexivity.
Qed.

(** ** [fixedRefresh] *)

Section RefreshFacts.

Variable interval : option Z.
Implicit Types (s : fixedRefresh.State).

Lemma Refresh_ok_init : Refresh_ok fixedRefresh.init_state.
Proof.
  split; [apply single_flight_empty|].
  intros c p H. discriminate.
Qed.

Lemma Refresh_ok_step s s' (ev : fixedRefresh.event) :
  Refresh_ok s -> fixedRefresh.step interval s ev = Some s' -> Refresh_ok s'.
Proof.
  intros [Hsf Hcallers] Hstep.
  destruct ev as [now|p v now|p e|p]; simpl in Hstep.
  - (* Get *)
    injection Hstep as <-. unfold fixedRefresh.get, fixedRefresh.update.
    destruct (fixedRefresh.stale interval now s).
    + destruct (single_flight_update (fixedRefresh.flight s) Hsf) as [Hsf' Hp'].
      destruct (Flight.update (fixedRefresh.flight s)) as [p fl] eqn:Hupd.
      simpl in Hsf', Hp'. split; [exact Hsf'|]. simpl. intros c q Hc.
      apply lookup_app_Some in Hc as [Hold|[_ Hnew]].
      * pose proof (Hcallers c q Hold) as Hq.
        unfold Flight.update in Hupd. rewrite Hq in Hupd.
        injection Hupd as <- <-. exact Hq.
      * destruct (c - length (fixedRefresh.callers s))%nat; [|discriminate].
        injection Hnew as <-. exact Hp'.
    + split; [exact Hsf|]. simpl. intros c q Hc.
      apply lookup_app_Some in Hc as [Hold|[_ Hnew]].
      * apply (Hcallers c q Hold).
      * destruct (c - length (fixedRefresh.callers s))%nat; discriminate.
  - (* FunReturns *)
    unfold fixedRefresh.refreshed in Hstep.
    destruct (Flight.fulfil p v (fixedRefresh.flight s)) as [fl|] eqn:Hful;
      [|discriminate].
    injection Hstep as <-.
    destruct (single_flight_fulfil p v _ fl Hsf Hful)
      as (Hsf' & Hprom & Hnone & _).
    split; [exact Hsf'|]. simpl. intros c q Hc. exfalso.
    rewrite list_lookup_fmap in Hc.
    destruct (fixedRefresh.callers s !! c) as [[q'|v']|] eqn:Hcl;
      simpl in Hc; try discriminate.
    pose proof (Hcallers c q' Hcl) as Hq. rewrite Hprom in Hq.
    injection Hq as ->. rewrite Nat.eqb_refl in Hc. discriminate.
  - (* FunThrows *)
    destruct (Flight.on_run (Flight.run_throw e) p (fixedRefresh.flight s))
      as [fl|] eqn:Hrun; [|discriminate].
    injection Hstep as <-.
    destruct (single_flight_on_run _ p _ fl (throw_keeps_flight e) Hsf Hrun)
      as [Hsf' Hprom].
    split; [exact Hsf'|]. simpl. rewrite Hprom. exact Hcallers.
  - (* TimerFires *)
    destruct (Flight.on_run Flight.run_wake p (fixedRefresh.flight s))
      as [fl|] eqn:Hrun; [|discriminate].
    injection Hstep as <-.
    destruct (single_flight_on_run _ p _ fl wake_keeps_flight Hsf Hrun)
      as [Hsf' Hprom].
    split; [exact Hsf'|]. simpl. rewrite Hprom. exact Hcallers.
Qed.

Lemma Refresh_ok_run (sch : list fixedRefresh.event) s s' :
  Refresh_ok s -> fixedRefresh.run interval s sch = Some s' -> Refresh_ok s'.
Proof.
  revert s. induction sch as [|ev sch IH]; intros s Hok Hrun; simpl in Hrun.
  - injection Hrun as <-. exact Hok.
  - destruct (fixedRefresh.step interval s ev) as [s1|] eqn:Hstep; [|discriminate].
    apply (IH s1); [|exact Hrun]. apply (Refresh_ok_step s s1 ev Hok Hstep).
Qed.

Lemma stale_same (now : Z) s0 s :
  fixedRefresh.res s = fixedRefresh.res s0 ->
  fixedRefresh.lastUpdateTimestamp s = fixedRefresh.lastUpdateTimestamp s0 ->
  fixedRefresh.stale interval now s = fixedRefresh.stale interval now s0.
Proof. unfold fixedRefresh.stale. intros -> ->. reflexivity. Qed.

Lemma Refresh_one_run_step s0 s s' (k g : nat) (ev : fixedRefresh.event) :
  single_flight (fixedRefresh.flight s0) ->
  Flight.promise (fixedRefresh.flight s0) = None ->
  refreshing s0 s k g ->
  fixedRefresh.step interval s ev = Some s' ->
  fixedRefresh.completes ev = false ->
  (forall now, ev = fixedRefresh.Get now ->
               fixedRefresh.stale interval now s0 = true) ->
  refreshing s0 s' (k + length (List.filter fixedRefresh.throws [ev]))
                   (g + length (List.filter fixedRefresh.is_get [ev])).
Proof.
  intros Hsf Hidle (Hone & Hres & Hts & Hcallers) Hstep Hev Hstale.
  destruct ev as [now|p v now|p e|p]; simpl in *;
    rewrite ?Nat.add_0_r.
  - injection Hstep as <-. unfold fixedRefresh.get, fixedRefresh.update.
    rewrite (stale_same now s0 s Hres Hts), (Hstale now eq_refl).
    destruct (one_run_update _ _ k Hidle Hone) as (Hone' & Hp & _).
    destruct (Flight.update (fixedRefresh.flight s)) as [p fl]. simpl in *.
    subst p. repeat split; try assumption.
    rewrite Hcallers, <- app_assoc. f_equal.
    rewrite Nat.add_1_r. simpl. rewrite repeat_cons. reflexivity.
  - discriminate.
  - destruct (Flight.on_run (Flight.run_throw e) p (fixedRefresh.flight s))
      as [fl|] eqn:Hrun; [|discriminate].
    injection Hstep as <-. simpl. rewrite Nat.add_1_r.
    repeat split; try assumption.
    apply (one_run_throw p e _ _ fl k Hsf Hidle Hone Hrun).
  - destruct (Flight.on_run Flight.run_wake p (fixedRefresh.flight s))
      as [fl|] eqn:Hrun; [|discriminate].
    injection Hstep as <-. simpl.
    repeat split; try assumption.
    apply (one_run_wake p _ _ fl k Hsf Hidle Hone Hrun).
Qed.

Lemma Refresh_one_run (sch : list fixedRefresh.event) s0 s s1 (k g : nat) :
  single_flight (fixedRefresh.flight s0) ->
  Flight.promise (fixedRefresh.flight s0) = None ->
  refreshing s0 s k g ->
  fixedRefresh.run interval s sch = Some s1 ->
  forallb (fun ev => negb (fixedRefresh.completes ev)) sch = true ->
  (forall now, In (fixedRefresh.Get now) sch ->
               fixedRefresh.stale interval now s0 = true) ->
  refreshing s0 s1 (k + length (List.filter fixedRefresh.throws sch))
                   (g + length (List.filter fixedRefresh.is_get sch)).
Proof.
  intros Hsf Hidle. revert s k g.
  induction sch as [|ev sch IH]; intros s k g Hone Hrun Hall Hstale;
    simpl in Hrun.
  - injection Hrun as <-. simpl. rewrite !Nat.add_0_r. exact Hone.
  - destruct (fixedRefresh.step interval s ev) as [s2|] eqn:Hstep; [|discriminate].
    simpl in Hall. apply andb_prop in Hall as [Hev Hall].
    apply negb_true_iff in Hev.
    assert (Hhead : forall now, ev = fixedRefresh.Get now ->
                                fixedRefresh.stale interval now s0 = true).
    { intros now ->. apply Hstale. left. reflexivity. }
    pose proof (Refresh_one_run_step s0 s s2 k g ev Hsf Hidle Hone Hstep Hev
                  Hhead) as Hone2.
    assert (Htail : forall now, In (fixedRefresh.Get now) sch ->
                                fixedRefresh.stale interval now s0 = true).
    { intros now Hin. apply Hstale. right. exact Hin. }
    pose proof (IH s2 _ _ Hone2 Hrun Hall Htail) as Hfinal.
    replace (k + length (List.filter fixedRefresh.throws (ev :: sch)))%nat
      with (k + length (List.filter fixedRefresh.throws [ev])
            + length (List.filter fixedRefresh.throws sch))%nat
      by (simpl; destruct (fixedRefresh.throws ev); simpl; lia).
    replace (g + length (List.filter fixedRefresh.is_get (ev :: sch)))%nat
      with (g + length (List.filter fixedRefresh.is_get [ev])
            + length (List.filter fixedRefresh.is_get sch))%nat
      by (simpl; destruct (fixedRefresh.is_get ev); simpl; lia).
    exact Hfinal.
Qed.

(** With nothing in flight, no earlier caller is still waiting. *)
Lemma idle_callers_settled (p : nat) (v : jsval) s :
  Refresh_ok s -> Flight.promise (fixedRefresh.flight s) = None ->
  map (fixedRefresh.resume p v) (fixedRefresh.callers s)
  = fixedRefresh.callers s.
Proof.
  intros [_ Hcallers] Hidle.
  assert (H : forall c q, fixedRefresh.callers s !! c
                          <> Some (fixedRefresh.AwaitUpdate q)).
  { intros c q Hc. rewrite (Hcallers c q Hc) in Hidle. discriminate. }
  clear Hcallers. revert H. generalize (fixedRefresh.callers s) as l.
  induction l as [|x l IH]; intros H; simpl; [reflexivity|].
  f_equal.
  - destruct x as [q|w]; [|reflexivity]. destruct (H 0%nat q eq_refl).
  - apply IH. intros c q. apply (H (S c) q).
Qed.

Lemma resume_waiting (p : nat) (v : jsval) (n : nat) :
  map (fixedRefresh.resume p v) (repeat (fixedRefresh.AwaitUpdate p) n)
  = repeat (fixedRefresh.Done v) n.
Proof.
  induction n as [|n IH]; simpl; [reflexivity|].
  rewrite Nat.eqb_refl, IH. reflexivity.
Qed.

Lemma Refresh_flight_step s0 s s' (k : nat) (ev : fixedRefresh.event) :
  single_flight (fixedRefresh.flight s0) ->
  Flight.promise (fixedRefresh.flight s0) = None ->
  one_run_since (fixedRefresh.flight s0) (fixedRefresh.flight s) k ->
  fixedRefresh.step interval s ev = Some s' ->
  fixedRefresh.completes ev = false ->
  one_run_since (fixedRefresh.flight s0) (fixedRefresh.flight s')
                (k + length (List.filter fixedRefresh.throws [ev])).
Proof.
  intros Hsf Hidle Hone Hstep Hev.
  destruct ev as [now|p v now|p e|p]; simpl in *; rewrite ?Nat.add_0_r.
  - injection Hstep as <-. unfold fixedRefresh.get, fixedRefresh.update.
    destruct (fixedRefresh.stale interval now s); [|exact Hone].
    destruct (one_run_update _ _ k Hidle Hone) as (Hone' & _).
    destruct (Flight.update (fixedRefresh.flight s)) as [p fl]. exact Hone'.
  - discriminate.
  - destruct (Flight.on_run (Flight.run_throw e) p (fixedRefresh.flight s))
      as [fl|] eqn:Hrun; [|discriminate].
    injection Hstep as <-. simpl. rewrite Nat.add_1_r.
    apply (one_run_throw p e _ _ fl k Hsf Hidle Hone Hrun).
  - destruct (Flight.on_run Flight.run_wake p (fixedRefresh.flight s))
      as [fl|] eqn:Hrun; [|discriminate].
    injection Hstep as <-. simpl.
    apply (one_run_wake p _ _ fl k Hsf Hidle Hone Hrun).
Qed.

Lemma Refresh_flight_run (sch : list fixedRefresh.event) s0 s s1 (k : nat) :
  single_flight (fixedRefresh.flight s0) ->
  Flight.promise (fixedRefresh.flight s0) = None ->
  one_run_since (fixedRefresh.flight s0) (fixedRefresh.flight s) k ->
  fixedRefresh.run interval s sch = Some s1 ->
  forallb (fun ev => negb (fixedRefresh.completes ev)) sch = true ->
  one_run_since (fixedRefresh.flight s0) (fixedRefresh.flight s1)
                (k + length (List.filter fixedRefresh.throws sch)).
Proof.
  intros Hsf Hidle. revert s k.
  induction sch as [|ev sch IH]; intros s k Hone Hrun Hall; simpl in Hrun.
  - injection Hrun as <-. simpl. rewrite Nat.add_0_r. exact Hone.
  - destruct (fixedRefresh.step interval s ev) as [s2|] eqn:Hstep;
      [|discriminate].
    simpl in Hall. apply andb_prop in Hall as [Hev Hall].
    apply negb_true_iff in Hev.
    pose proof (Refresh_flight_step s0 s s2 k ev Hsf Hidle Hone Hstep Hev)
      as Hone2.
    pose proof (IH s2 _ Hone2 Hrun Hall) as Hfinal.
    replace (k + length (List.filter fixedRefresh.throws (ev :: sch)))%nat
      with (k + length (List.filter fixedRefresh.throws [ev])
            + length (List.filter fixedRefresh.throws sch))%nat;
      [exact Hfinal|].
    simpl. destruct (fixedRefresh.throws ev); simpl; lia.
Qed.

(** While a truthy value cached at [t1] is within its window and nothing
    is in flight, the event loop has nothing to deliver but accessor
    calls, and each returns the value and leaves the rest alone. *)
Lemma Refresh_cached_run (sch : list fixedRefresh.event) s1 s2 :
  single_flight (fixedRefresh.flight s1) ->
  Flight.promise (fixedRefresh.flight s1) = None ->
  truthy (fixedRefresh.res s1) = true ->
  fixedRefresh.run interval s1 sch = Some s2 ->
  (forall t, In (fixedRefresh.Get t) sch ->
             t - fixedRefresh.lastUpdateTimestamp s1
             < param_default interval (60 * 5) * 1000) ->
  fixedRefresh.flight s2 = fixedRefresh.flight s1 /\
  fixedRefresh.res s2 = fixedRefresh.res s1 /\
  fixedRefresh.lastUpdateTimestamp s2 = fixedRefresh.lastUpdateTimestamp s1 /\
  fixedRefresh.callers s2
  = fixedRefresh.callers s1
    ++ repeat (fixedRefresh.Done (fixedRefresh.res s1)) (length sch).
Proof.
  revert s1. induction sch as [|ev sch IH]; intros s1 Hsf Hidle Hv Hrun Hin;
    simpl in Hrun.
  - injection Hrun as <-. simpl. rewrite app_nil_r. auto.
  - destruct (fixedRefresh.step interval s1 ev) as [sa|] eqn:Hstep;
      [|discriminate].
    assert (Hsa : sa = fixedRefresh.MkState
                         (fixedRefresh.res s1)
                         (fixedRefresh.lastUpdateTimestamp s1)
                         (fixedRefresh.flight s1)
                         (fixedRefresh.callers s1
                          ++ [fixedRefresh.Done (fixedRefresh.res s1)])).
    { destruct ev as [now|p v now|p e|p]; simpl in Hstep.
      - injection Hstep as <-. unfold fixedRefresh.get, fixedRefresh.stale.
        rewrite Hv. simpl.
        pose proof (Hin now (or_introl eq_refl)) as Hnow.
        destruct (Z.geb_spec (now - fixedRefresh.lastUpdateTimestamp s1)
                    (param_default interval (60 * 5) * 1000)); [lia|].
        reflexivity.
      - exfalso. unfold fixedRefresh.refreshed, Flight.fulfil in Hstep.
        destruct (Flight.on_run (Flight.run_return v) p (fixedRefresh.flight s1))
          as [fl|] eqn:Hrun'; [|discriminate].
        apply (idle_step_impossible _ p _ fl
                 (fun r r' H =>
                    proj2 (in_flight_status r)
                      (or_introl (proj1 (run_return_fulfilled v r r' H))))
                 Hsf Hidle Hrun').
      - exfalso.
        destruct (Flight.on_run (Flight.run_throw e) p (fixedRefresh.flight s1))
          as [fl|] eqn:Hrun'; [|discriminate].
        apply (idle_step_impossible _ p _ fl
                 (fun r r' H => proj1 (throw_keeps_flight e r r' H))
                 Hsf Hidle Hrun').
      - exfalso.
        destruct (Flight.on_run Flight.run_wake p (fixedRefresh.flight s1))
          as [fl|] eqn:Hrun'; [|discriminate].
        apply (idle_step_impossible _ p _ fl
                 (fun r r' H => proj1 (wake_keeps_flight r r' H))
                 Hsf Hidle Hrun'). }
    destruct (IH sa) as (Hfl & Hres & Hts & Hcallers);
      try (subst sa; assumption).
    { subst sa. intros t Ht. apply Hin. right. exact Ht. }
    subst sa. simpl in *. split; [exact Hfl|]. split; [exact Hres|].
    split; [exact Hts|].
    rewrite Hcallers, <- app_assoc. reflexivity.
Qed.

(** C3, as amended.  In every state the event loop can reach:
    - from a moment when nothing is in flight until the next run
      resolves, the run invokes the operation once, and once more for
      each of its failed attempts, and leaves its value cached;
    - once a run has resolved at [t1] with a truthy [v], whatever the
      event loop delivers while every call of the accessor is made less
      than [interval] seconds after [t1]: the calls have returned [v] and
      the operation has not been invoked; a further such call returns [v]
      at once and invokes nothing; and a call [interval] seconds after
      [t1], or later, starts a refresh that invokes the operation once
      more;
    - the truthy values are all but [undefined], [null], [false], [0],
      [NaN] and the empty string. *)
Theorem fixedRefresh_serves_truthy_cache (sch : list fixedRefresh.event) s :
  fixedRefresh.run interval fixedRefresh.init_state sch = Some s ->
  (forall sch' s1 p v now s2,
     Flight.promise (fixedRefresh.flight s) = None ->
     fixedRefresh.run interval s sch' = Some s1 ->
     forallb (fun ev => negb (fixedRefresh.completes ev)) sch' = true ->
     fixedRefresh.step interval s1 (fixedRefresh.FunReturns p v now)
     = Some s2 ->
     Flight.total_calls (fixedRefresh.flight s2)
     = (Flight.total_calls (fixedRefresh.flight s)
        + S (length (List.filter fixedRefresh.throws sch')))%nat /\
     fixedRefresh.res s2 = v /\
     fixedRefresh.lastUpdateTimestamp s2 = now) /\
  (forall p v t1 s1 sch' s2,
     fixedRefresh.step interval s (fixedRefresh.FunReturns p v t1) = Some s1 ->
     truthy v = true ->
     fixedRefresh.run interval s1 sch' = Some s2 ->
     (forall t, In (fixedRefresh.Get t) sch' ->
                t - t1 < param_default interval (60 * 5) * 1000) ->
     (fixedRefresh.flight s2 = fixedRefresh.flight s1 /\
      Flight.total_calls (fixedRefresh.flight s2)
      = Flight.total_calls (fixedRefresh.flight s1) /\
      fixedRefresh.callers s2
      = fixedRefresh.callers s1
        ++ repeat (fixedRefresh.Done v) (length sch')) /\
     (forall t2,
        t2 - t1 < param_default interval (60 * 5) * 1000 ->
        exists s3,
          fixedRefresh.step interval s2 (fixedRefresh.Get t2) = Some s3 /\
          fixedRefresh.callers s3
          = fixedRefresh.callers s2 ++ [fixedRefresh.Done v] /\
          fixedRefresh.flight s3 = fixedRefresh.flight s2) /\
     (forall t3,
        param_default interval (60 * 5) * 1000 <= t3 - t1 ->
        exists s3,
          fixedRefresh.step interval s2 (fixedRefresh.Get t3) = Some s3 /\
          fixedRefresh.callers s3
          = fixedRefresh.callers s2
            ++ [fixedRefresh.AwaitUpdate
                  (length (Flight.runs (fixedRefresh.flight s2)))] /\
          Flight.runs (fixedRefresh.flight s3)
          = Flight.runs (fixedRefresh.flight s2) ++ [Flight.run_start None] /\
          Flight.total_calls (fixedRefresh.flight s3)
          = S (Flight.total_calls (fixedRefresh.flight s2)))) /\
  (forall v, truthy v = true <-> ~ In v falsy_values).
Proof.
  intros Hrun.
  pose proof (Refresh_ok_run sch _ s Refresh_ok_init Hrun) as Hok.
  pose proof Hok as [Hsf _].
  split; [|split];
    [| |intros v; rewrite <- truthy_false_iff; destruct (truthy v);
        split; congruence].
  - intros sch' s1 p v now s2 Hidle Hrun' Hall Hstep.
    assert (Hone : one_run_since (fixedRefresh.flight s)
                     (fixedRefresh.flight s) 0) by (left; auto).
    pose proof (Refresh_flight_run sch' s s s1 0 Hsf Hidle Hone Hrun' Hall)
      as Hone1.
    simpl in Hstep. unfold fixedRefresh.refreshed in Hstep.
    destruct (Flight.fulfil p v (fixedRefresh.flight s1)) as [fl|] eqn:Hful;
      [|discriminate].
    injection Hstep as <-. simpl.
    destruct (one_run_fulfil p v _ _ fl _ Hsf Hidle Hone1 Hful)
      as (_ & _ & _ & Htotal).
    split; [exact Htotal|]. split; reflexivity.
  - intros p v t1 s1 sch' s2 Hstep Hv Hrun' Hin.
    pose proof (Refresh_ok_step s s1 _ Hok Hstep) as [Hsf1 _].
    simpl in Hstep. unfold fixedRefresh.refreshed in Hstep.
    destruct (Flight.fulfil p v (fixedRefresh.flight s)) as [fl|] eqn:Hful;
      [|discriminate].
    destruct (single_flight_fulfil p v _ fl Hsf Hful) as (_ & _ & Hnone & _).
    injection Hstep as <-. simpl in *.
    destruct (Refresh_cached_run sch'
                (fixedRefresh.MkState v t1 fl
                   (map (fixedRefresh.resume p v) (fixedRefresh.callers s)))
                s2 Hsf1 Hnone Hv Hrun' Hin)
      as (Hfl & Hres & Hts & Hcallers).
    simpl in *. split; [|split].
    + split; [exact Hfl|]. split; [rewrite Hfl; reflexivity|exact Hcallers].
    + intros t2 Ht2. eexists. split; [reflexivity|].
      unfold fixedRefresh.get, fixedRefresh.stale. rewrite Hres, Hts, Hv.
      destruct (Z.geb_spec (t2 - t1) (param_default interval (60 * 5) * 1000));
        [lia|].
      simpl. split; reflexivity.
    + intros t3 Ht3. eexists. split; [reflexivity|].
      unfold fixedRefresh.get, fixedRefresh.update, fixedRefresh.stale.
      rewrite Hts.
      destruct (Z.geb_spec (t3 - t1) (param_default interval (60 * 5) * 1000));
        [|lia].
      simpl. unfold Flight.update. rewrite Hfl. simpl. rewrite Hnone. simpl.
      split; [reflexivity|]. split; [reflexivity|].
      rewrite total_calls_snoc. unfold Flight.total_calls. simpl. lia.
Qed.

(** C6, as amended.  In every state the event loop can reach: at most
    one run of the operation is in flight, and every suspended call awaits
    it.  From a moment when none is in flight until the next run resolves
    with [v], the calls that trigger a refresh start exactly one run
    between them; it invokes the operation once, and once more for each of
    its failed attempts; and every one of those calls returns [v]. *)
Theorem fixedRefresh_single_flight (sch : list fixedRefresh.event) s :
  fixedRefresh.run interval fixedRefresh.init_state sch = Some s ->
  (forall p q rp rq,
     Flight.runs (fixedRefresh.flight s) !! p = Some rp ->
     Flight.in_flight rp = true ->
     Flight.runs (fixedRefresh.flight s) !! q = Some rq ->
     Flight.in_flight rq = true ->
     p = q) /\
  (forall c p,
     fixedRefresh.callers s !! c = Some (fixedRefresh.AwaitUpdate p) ->
     Flight.promise (fixedRefresh.flight s) = Some p /\
     exists r, Flight.runs (fixedRefresh.flight s) !! p = Some r /\
               Flight.in_flight r = true) /\
  (forall sch' s1 p v now s2,
     Flight.promise (fixedRefresh.flight s) = None ->
     fixedRefresh.run interval s sch' = Some s1 ->
     forallb (fun ev => negb (fixedRefresh.completes ev)) sch' = true ->
     (forall t, In (fixedRefresh.Get t) sch' ->
                fixedRefresh.stale interval t s = true) ->
     fixedRefresh.step interval s1 (fixedRefresh.FunReturns p v now)
     = Some s2 ->
     length (Flight.runs (fixedRefresh.flight s2))
     = S (length (Flight.runs (fixedRefresh.flight s))) /\
     Flight.total_calls (fixedRefresh.flight s2)
     = (Flight.total_calls (fixedRefresh.flight s)
        + S (length (List.filter fixedRefresh.throws sch')))%nat /\
     fixedRefresh.callers s2
     = fixedRefresh.callers s
       ++ repeat (fixedRefresh.Done v)
                 (length (List.filter fixedRefresh.is_get sch')) /\
     fixedRefresh.res s2 = v).
Proof.
  intros Hrun.
  pose proof (Refresh_ok_run sch _ s Refresh_ok_init Hrun) as Hok.
  pose proof Hok as [Hsf Hcallers].
  split; [|split].
  - intros p q rp rq Hp Hrp Hq Hrq.
    apply (single_flight_unique _ p q rp rq Hsf Hp Hrp Hq Hrq).
  - intros c p Hc. pose proof (Hcallers c p Hc) as Hp.
    split; [exact Hp|]. destruct Hsf as [_ H2]. apply (H2 p Hp).
  - intros sch' s1 p v now s2 Hidle Hrun' Hall Hstale Hstep.
    assert (Hone : refreshing s s 0 0).
    { repeat split; [left; auto|]. simpl. rewrite app_nil_r. reflexivity. }
    destruct (Refresh_one_run sch' s s s1 0 0 Hsf Hidle Hone Hrun' Hall Hstale)
      as (Hone1 & _ & _ & Hcallers1).
    simpl in Hstep. unfold fixedRefresh.refreshed in Hstep.
    destruct (Flight.fulfil p v (fixedRefresh.flight s1)) as [fl|] eqn:Hful;
      [|discriminate].
    injection Hstep as <-. simpl.
    destruct (one_run_fulfil p v _ _ fl _ Hsf Hidle Hone1 Hful)
      as (-> & _ & Hlen & Htotal).
    split; [exact Hlen|]. split; [exact Htotal|]. split; [|reflexivity].
    rewrite Hcallers1, map_app, (idle_callers_settled _ v s Hok Hidle).
    f_equal. apply resume_waiting.
Qed.

End RefreshFacts.

Lemma fixedRefresh_serves_truthy_cache_witness :
  exists s1 s2 s3,
    fixedRefresh.run (Some 1) fixedRefresh.init_state
      [fixedRefresh.Get 1000;
       fixedRefresh.FunReturns 0 (VNum (Num 1)) 1000] = Some s1 /\
    fixedRefresh.run (Some 1) s1
      [fixedRefresh.Get 1500; fixedRefresh.Get 1999] = Some s2 /\
    fixedRefresh.callers s2 = repeat (fixedRefresh.Done (VNum (Num 1))) 3 /\
    Flight.total_calls (fixedRefresh.flight s2) = 1%nat /\
    fixedRefresh.step (Some 1) s2 (fixedRefresh.Get 2000) = Some s3 /\
    Flight.total_calls (fixedRefresh.flight s3) = 2%nat.
Proof.
  let r := eval vm_compute in
           (fixedRefresh.run (Some 1) fixedRefresh.init_state
              [fixedRefresh.Get 1000]) in
  match r with
  | Some ?st =>
      let r1 := eval vm_compute in
                (fixedRefresh.step (Some 1) st
                   (fixedRefresh.FunReturns 0 (VNum (Num 1)) 1000)) in
      let r2 := eval vm_compute in
                (fixedRefresh.run (Some 1) st
                   [fixedRefresh.FunReturns 0 (VNum (Num 1)) 1000;
                    fixedRefresh.Get 1500; fixedRefresh.Get 1999]) in
      match r1 with
      | Some ?st1 =>
          match r2 with
          | Some ?st2 =>
              destruct (fixedRefresh_serves_truthy_cache (Some 1)
                          [fixedRefresh.Get 1000] st eq_refl)
                as (_ & Hcache & _);
              destruct (Hcache 0%nat (VNum (Num 1)) 1000 st1
                          [fixedRefresh.Get 1500; fixedRefresh.Get 1999] st2
                          eq_refl eq_refl eq_refl)
                as ((_ & Htotal & Hcallers) & _ & Hstale);
              [intros t [[= <-]|[[= <-]|[]]]; simpl; lia|];
              destruct (Hstale 2000 ltac:(simpl; lia))
                as (s3 & Hstep3 & _ & _ & Htotal3);
              exists st1, st2, s3;
              split; [reflexivity|]; split; [reflexivity|];
              split; [exact Hcallers|];
              split; [rewrite Htotal; reflexivity|];
              split; [exact Hstep3|];
              rewrite Htotal3, Htotal; reflexivity
          end
      end
  end.
Defined.

(** C3, as stated, fails when the operation does not succeed at once:
    the first call starts a refresh whose first attempt fails, and the
    run retries after its delay.  By the time the second call, made half
    a second after the update, has been served from the cache, the
    operation has been invoked twice. *)
Lemma fixedRefresh_first_refresh_retries :
  exists s,
    fixedRefresh.run (Some 300) fixedRefresh.init_state
      Sample.flaky_then_cached = Some s /\
    6500 - 6000 < 300 * 1000 /\
    fixedRefresh.lastUpdateTimestamp s = 6000 /\
    fixedRefresh.callers s
    = [fixedRefresh.Done (VNum (Num 1)); fixedRefresh.Done (VNum (Num 1))] /\
    length (Flight.runs (fixedRefresh.flight s)) = 1%nat /\
    Flight.total_calls (fixedRefresh.flight s) = 2%nat.
Proof.
  eexists. split; [reflexivity|]. repeat split; reflexivity.
Qed.

Lemma fixedRefresh_single_flight_witness :
  exists s1 s2,
    fixedRefresh.run None fixedRefresh.init_state Sample.together = Some s1 /\
    fixedRefresh.step None s1 (fixedRefresh.FunReturns 0 (VStr "data") 1200)
    = Some s2 /\
    length (Flight.runs (fixedRefresh.flight s2)) = 1%nat /\
    Flight.total_calls (fixedRefresh.flight s2) = 1%nat /\
    fixedRefresh.callers s2 = repeat (fixedRefresh.Done (VStr "data")) 3.
Proof.
  destruct (fixedRefresh_single_flight None [] fixedRefresh.init_state eq_refl)
    as (_ & _ & Hone).
  let r := eval vm_compute in
           (fixedRefresh.run None fixedRefresh.init_state Sample.together) in
  match r with
  | Some ?st1 =>
      let r2 := eval vm_compute in
                (fixedRefresh.step None st1
                   (fixedRefresh.FunReturns 0 (VStr "data") 1200)) in
      match r2 with
      | Some ?st2 =>
          exists st1, st2; split; [reflexivity|]; split; [reflexivity|];
          destruct (Hone Sample.together st1 0%nat (VStr "data") 1200 st2
                      eq_refl eq_refl eq_refl) as (Hlen & Htotal & Hcallers & _);
          [intros t Hin; apply orb_true_r|reflexivity|];
          split; [exact Hlen|split; [exact Htotal|exact Hcallers]]
      end
  end.
Defined.

(** C6, as stated, fails when the operation does not succeed at once:
    two calls trigger a refresh together and join one run, whose first
    attempt fails; the run retries after its delay, so the operation is
    invoked twice before both calls receive the value. *)
Lemma fixedRefresh_retry_invokes_again :
  exists s,
    fixedRefresh.run None fixedRefresh.init_state
      (Sample.together_flaky
       ++ [fixedRefresh.FunReturns 0 (VStr "data") 6001]) = Some s /\
    length (Flight.runs (fixedRefresh.flight s)) = 1%nat /\
    fixedRefresh.callers s = [fixedRefresh.Done (VStr "data");
                         fixedRefresh.Done (VStr "data")] /\
    Flight.total_calls (fixedRefresh.flight s) = 2%nat.
Proof.
  eexists. split; [reflexivity|]. repeat split; reflexivity.
Qed.

(** * Further properties of the wrappers *)

(** ** [fetchWithTimeout] *)

Lemma timer_ms_positive (n : number) : 1 <= timer_ms n.
Proof.
  destruct n as [z|]; simpl; [|lia].
  destruct (Z.leb_spec 1 z); simpl; [|lia].
  destruct (z <=? TIMEOUT_MAX); lia.
Qed.

Section TimeoutMore.

Variable transport : Url -> RequestInit -> behaviour.

Ltac by_cases url init w Hok :=
  rewrite fetchWithTimeout_with_unfold;
  unfold try_finally, try_catch, bind;
  rewrite fetch_guarded by exact Hok;
  destruct (transport url (sent_init init (next_id w))) as [?t ?o|] eqn:?Hb.

Lemma fetchWithTimeout_with_requests (clear : handle -> M unit) (url : Url)
    (init : option RequestInit) (w : World) :
  (forall h w0, requests (snd (clear h w0)) = requests w0) ->
  requests (snd (fetchWithTimeout_with transport clear url init w)) =
  requests w ++ [(url, sent_init init (next_id w))].
Proof.
  intros Hclear. rewrite fetchWithTimeout_with_unfold.
  unfold try_finally, try_catch, bind, fetch.
  set (c := clear (Timeout (S (next_id w)))).
  assert (Hc : forall w0, requests (snd (c w0)) = requests w0)
    by (intros w0; apply Hclear).
  destruct (transport url (sent_init init (next_id w))) as [t o|];
    destruct (match signal (sent_init init (next_id w)) with
              | Some c0 => _
              | None => None
              end) as [tm|];
    try destruct (t <? timer_delay tm);
    try destruct o as [r|e]; simpl;
    try destruct (instanceof_AbortError _); simpl;
    match goal with
    | |- context [c ?w0] =>
        specialize (Hc w0); destruct (c w0) as [[[]|?|] ?]; simpl in *;
        rewrite Hc; reflexivity
    | |- _ => reflexivity
    end.
Qed.

Lemma clearTimeout_requests (h : handle) (w : World) :
  requests (snd (clearTimeout h w)) = requests w.
Proof. destruct h; reflexivity. Qed.

Lemma clearImmediate_requests (h : handle) (w : World) :
  requests (snd (clearImmediate h w)) = requests w.
Proof. destruct h; reflexivity. Qed.

(** X1. One call hands exactly one request to the transport, in both
    builds: the URL as given and the caller's options with [signal]
    replaced by the signal of the call's own controller.  A signal the
    caller supplied is dropped; every other option is passed on. *)
Theorem fetchWithTimeout_hands_over_one_request (url : Url)
    (init : option RequestInit) (w : World) :
  let sent := sent_init init (next_id w) in
  requests (snd (fetchWithTimeout transport url init w))
  = requests w ++ [(url, sent)] /\
  requests (snd (fetchWithTimeout_js transport url init w))
  = requests w ++ [(url, sent)] /\
  signal sent = Some (next_id w) /\
  timeout sent = init ≫= timeout /\
  proxyUrl sent = init ≫= proxyUrl /\
  agent sent = init ≫= agent /\
  headers sent = match init with Some i => headers i | None => [] end /\
  passthrough sent = match init with Some i => passthrough i | None => [] end.
Proof.
  intros sent. split; [|split].
  - apply fetchWithTimeout_with_requests, clearTimeout_requests.
  - apply fetchWithTimeout_with_requests, clearImmediate_requests.
  - subst sent. destruct init as [i|]; repeat split.
Qed.

(** X2. Whatever the transport does, even if it never answers, the call
    settles, and no later than its deadline after it was made; the
    deadline is at least one millisecond.  Both builds. *)
Theorem fetchWithTimeout_settles_by_deadline (url : Url)
    (init : option RequestInit) (w : World) :
  World_ok w ->
  1 <= deadline init /\
  (fst (fetchWithTimeout transport url init w) <> Pending /\
   clock (snd (fetchWithTimeout transport url init w))
   <= clock w + deadline init) /\
  (fst (fetchWithTimeout_js transport url init w) <> Pending /\
   clock (snd (fetchWithTimeout_js transport url init w))
   <= clock w + deadline init).
Proof.
  intros Hok. split; [apply timer_ms_positive|].
  assert (Hfire : timer_delay (abort_timer init w) = deadline init)
    by reflexivity.
  split.
  - unfold fetchWithTimeout. by_cases url init w Hok.
    + destruct (Z.ltb_spec t (deadline init)).
      * destruct o as [r|e]; simpl; [|destruct (instanceof_AbortError e)];
          simpl; (split; [discriminate|lia]).
      * simpl. split; [discriminate|]. rewrite Hfire. lia.
    + simpl. split; [discriminate|]. rewrite Hfire. lia.
  - unfold fetchWithTimeout_js. by_cases url init w Hok.
    + destruct (Z.ltb_spec t (deadline init)).
      * destruct o as [r|e]; simpl; [|destruct (instanceof_AbortError e)];
          simpl; (split; [discriminate|lia]).
      * simpl. split; [discriminate|]. rewrite Hfire. lia.
    + simpl. split; [discriminate|]. rewrite Hfire. lia.
Qed.

(** X3. The [catch] block tells a timeout from other failures by the
    class of the error alone: an [AbortError] that the transport raises on
    its own, before the deadline, is reported as [Error("timeout")] too,
    although the timer never fired, and the timer is cleared as for any
    other failure. *)
Theorem fetchWithTimeout_any_abort_is_timeout (url : Url)
    (init : option RequestInit) (w : World) (t : Z) (e : jserror) :
  World_ok w ->
  transport url (sent_init init (next_id w)) = Settles t (inr e) ->
  t < deadline init ->
  instanceof_AbortError e = true ->
  fetchWithTimeout transport url init w
  = (Rejected (new_Error "timeout"),
     set_timeouts (fun _ => timeouts w) (advance t (started url init w))) /\
  fst (fetchWithTimeout_js transport url init w)
  = Rejected (new_Error "timeout").
Proof.
  intros Hok Hb Ht He.
  assert (Hts : fetchWithTimeout transport url init w
                = (Rejected (new_Error "timeout"),
                   set_timeouts (fun _ => timeouts w)
                     (advance t (started url init w)))).
  { unfold fetchWithTimeout. by_cases url init w Hok; [|discriminate].
    injection Hb as -> ->.
    destruct (Z.ltb_spec t (deadline init)); [|lia].
    simpl. rewrite He. simpl. f_equal.
    unfold set_timeouts. simpl.
    rewrite (drop_abort_timer init w Hok). reflexivity. }
  split; [exact Hts|].
  rewrite fetchWithTimeout_js_outcome, Hts. reflexivity.
Qed.

End TimeoutMore.

Lemma fetchWithTimeout_settles_by_deadline_witness :
  fst (fetchWithTimeout (fun _ _ => NeverSettles) "https://example.org"
         (Some Scenario.via_proxy) world0) <> Pending /\
  clock (snd (fetchWithTimeout (fun _ _ => NeverSettles)
                "https://example.org" (Some Scenario.via_proxy) world0))
  <= 2000.
Proof.
  assert (Hok : World_ok world0) by constructor.
  destruct (fetchWithTimeout_settles_by_deadline (fun _ _ => NeverSettles)
              "https://example.org" (Some Scenario.via_proxy) world0 Hok)
    as (_ & [Hsettled Hclock] & _).
  split; [exact Hsettled|exact Hclock].
Defined.

Lemma fetchWithTimeout_any_abort_is_timeout_witness :
  fst (fetchWithTimeout Scenario.aborting "https://example.org" None world0)
  = Rejected (new_Error "timeout") /\
  clock (snd (fetchWithTimeout Scenario.aborting "https://example.org" None
                world0)) = 10.
Proof.
  assert (Hok : World_ok world0) by constructor.
  destruct (fetchWithTimeout_any_abort_is_timeout Scenario.aborting
              "https://example.org" None world0 10
              (MkError ClsAbortError "socket closed") Hok eq_refl eq_refl
              eq_refl) as [Hts _].
  rewrite Hts. split; reflexivity.
Defined.

(** ** [fetchWithRetry] *)

Lemma find_timer_fresh (n : nat) (l : list Timer) (tm : Timer) :
  Forall (fun t => (timer_id t < n)%nat) l ->
  timer_id tm = n ->
  List.find (is_timer n) (l ++ [tm]) = Some tm.
Proof.
  intros Hl Htm. induction Hl as [|t l Ht Hl IH]; simpl.
  - unfold is_timer. rewrite Htm, Nat.eqb_refl. reflexivity.
  - unfold is_timer at 1. destruct (Nat.eqb_spec (timer_id t) n); [lia|].
    exact IH.
Qed.

Lemma World_ok_below (w : World) :
  World_ok w -> Forall (fun t => (timer_id t < next_id w)%nat) (timeouts w).
Proof.
  unfold World_ok. intros H. eapply Forall_impl; [exact H|].
  simpl. intros t [Ht _]. exact Ht.
Qed.

Lemma retry_time_default (n : nat) : retry_time None n = 5000 * Z.of_nat n.
Proof. destruct n as [|m]; simpl retry_time; [|simpl timer_ms]; lia. Qed.

Section RetryMore.

Variable A : Type.
Variable fun_ : nat -> attempt A.

(** The world after a failed attempt, when the identifiers are fresh:
    the timer armed for the delay is the one that fires. *)
Lemma fetchWithRetry_throw_world (fuel : nat) (interval : option Z)
    (w : World) (e : jserror) :
  World_ok w ->
  fun_ (fun_calls w) = Throws e ->
  let tm := MkTimer (next_id w) (Num (1000 * param_default interval 5)) Wake in
  fetchWithRetry A fun_ (S fuel) interval w
  = fetchWithRetry A fun_ fuel None
      (MkWorld (S (next_id w)) (timeouts w) (immediates w) (armed w ++ [tm])
               (clock w + timer_delay tm) (requests w)
               (console w ++ [LogError e;
                              LogRetry (param_default interval 5)])
               (S (fun_calls w))).
Proof.
  intros Hok He tm. simpl.
  unfold try_catch, bind at 1, call_fun. rewrite He.
  unfold bind, console_log, modify, sleep, setTimeout, bind. simpl.
  fold tm.
  rewrite (find_timer_fresh (next_id w) (timeouts w) tm
             (World_ok_below w Hok) eq_refl).
  unfold fire, set_timeouts, advance. simpl.
  rewrite (drop_timer_fresh (next_id w) (timeouts w) tm
             (World_ok_below w Hok) eq_refl).
  rewrite <- app_assoc. reflexivity.
Qed.

Lemma World_ok_after_sleep (w : World) (ar : list Timer) (c : Z)
    (lg : list log_entry) (k : nat) :
  World_ok w ->
  World_ok (MkWorld (S (next_id w)) (timeouts w) (immediates w) ar c
                    (requests w) lg k).
Proof.
  unfold World_ok. simpl. intros H. eapply Forall_impl; [exact H|].
  simpl. intros t [H1 H2]. split; [lia|].
  destruct (timer_action_of t); [lia|exact I].
Qed.

(** X4. An operation that fails [n] times and then returns: by the time
    the call resolves every retry timer has fired and none is left
    pending; the time spent waiting is that of the first delay plus 5000
    ms for each later one, and [5000 * n] ms when no interval was
    given. *)
Theorem fetchWithRetry_waits_and_leaves_no_timer (n extra : nat)
    (interval : option Z) (w : World) (v : A) :
  World_ok w ->
  (forall k, (k < n)%nat -> exists e, fun_ (fun_calls w + k) = Throws e) ->
  fun_ (fun_calls w + n) = Returns v ->
  exists w',
    fetchWithRetry A fun_ (S n + extra) interval w = (Resolved v, w') /\
    timeouts w' = timeouts w /\
    World_ok w' /\
    clock w' = clock w + retry_time interval n /\
    (interval = None -> clock w' = clock w + 5000 * Z.of_nat n) /\
    requests w' = requests w.
Proof.
  intros Hok Hfail Hret.
  assert (Hmain : exists w',
             fetchWithRetry A fun_ (S n + extra) interval w
             = (Resolved v, w') /\
             timeouts w' = timeouts w /\ World_ok w' /\
             clock w' = clock w + retry_time interval n /\
             requests w' = requests w).
  { revert interval w Hok Hfail Hret.
    induction n as [|n IH]; intros interval w Hok Hfail Hret.
    - rewrite Nat.add_0_r in Hret. exists (count_call w).
      rewrite (fetchWithRetry_return A fun_ _ _ _ _ Hret).
      repeat split; simpl; try lia. exact Hok.
    - destruct (Hfail 0%nat ltac:(lia)) as [e He].
      rewrite Nat.add_0_r in He.
      change (S (S n) + extra)%nat with (S (S n + extra)).
      rewrite (fetchWithRetry_throw_world _ interval w e Hok He).
      set (w1 := MkWorld _ _ _ _ _ _ _ _).
      destruct (IH None w1) as (w' & Hrun & Hts & Hok' & Hclock & Hreq).
      + apply World_ok_after_sleep, Hok.
      + intros k Hk. destruct (Hfail (S k) ltac:(lia)) as [e' He'].
        exists e'. rewrite <- He'. simpl. f_equal. lia.
      + rewrite <- Hret. simpl. f_equal. lia.
      + exists w'. split; [exact Hrun|]. split; [exact Hts|].
        split; [exact Hok'|]. split; [|exact Hreq].
        rewrite Hclock, retry_time_default. simpl clock.
        unfold retry_time, timer_delay. simpl timer_arg. lia. }
  destruct Hmain as (w' & Hrun & Hts & Hok' & Hclock & Hreq).
  exists w'. repeat split; try assumption.
  intros ->. rewrite Hclock, retry_time_default. reflexivity.
Qed.

(** X5. Every failure is logged before the delay, in order: the error
    first, then the line announcing the next try, which names the interval
    given after the first failure and 5 after every later one. *)
Theorem fetchWithRetry_logs_each_failure (n extra : nat)
    (interval : option Z) (w : World) (v : A) (err : nat -> jserror) :
  (forall k, (k < n)%nat -> fun_ (fun_calls w + k) = Throws (err k)) ->
  fun_ (fun_calls w + n) = Returns v ->
  exists w',
    fetchWithRetry A fun_ (S n + extra) interval w = (Resolved v, w') /\
    console w'
    = console w
      ++ flat_map (fun k => [LogError (err k); LogRetry (announced interval k)])
                  (seq 0 n).
Proof.
  revert interval w err. induction n as [|n IH]; intros interval w err Hfail Hret.
  - rewrite Nat.add_0_r in Hret. exists (count_call w).
    rewrite (fetchWithRetry_return A fun_ _ _ _ _ Hret).
    simpl. rewrite app_nil_r. split; reflexivity.
  - pose proof (Hfail 0%nat ltac:(lia)) as He. rewrite Nat.add_0_r in He.
    destruct (fetchWithRetry_throw A fun_ (S n + extra) interval w (err 0%nat)
                He) as (w1 & Hstep & Hcalls & _ & Hconsole).
    destruct (IH None w1 (fun k => err (S k))) as (w' & Hrun & Hlog).
    + intros k Hk. rewrite Hcalls. rewrite <- (Hfail (S k) ltac:(lia)).
      f_equal. lia.
    + rewrite Hcalls, <- Hret. f_equal. lia.
    + exists w'. split.
      * change (S (S n) + extra)%nat with (S (S n + extra)).
        rewrite Hstep. exact Hrun.
      * rewrite Hlog, Hconsole, <- app_assoc. f_equal.
        change (seq 0 (S n)) with (0%nat :: seq 1 n).
        rewrite <- seq_shift. simpl. f_equal. f_equal.
        generalize (seq 0 n) as l.
        induction l as [|k l IHl]; simpl; [reflexivity|].
        rewrite IHl. destruct k; reflexivity.
Qed.

(** X6. When an invocation never settles, the call stays pending and
    nothing more happens: the operation is not invoked again and no
    further timer is armed, however far the run is followed. *)
Theorem fetchWithRetry_waits_for_a_hanging_attempt (n extra : nat)
    (interval : option Z) (w : World) :
  (forall k, (k < n)%nat -> exists e, fun_ (fun_calls w + k) = Throws e) ->
  fun_ (fun_calls w + n) = Hangs ->
  fst (fetchWithRetry A fun_ (S n + extra) interval w) = Pending /\
  fun_calls (snd (fetchWithRetry A fun_ (S n + extra) interval w))
  = (fun_calls w + S n)%nat /\
  length (armed (snd (fetchWithRetry A fun_ (S n + extra) interval w)))
  = (length (armed w) + n)%nat.
Proof.
  revert interval w. induction n as [|n IH]; intros interval w Hfail Hhang.
  - rewrite Nat.add_0_r in Hhang.
    rewrite (fetchWithRetry_hang A fun_ _ _ _ Hhang). simpl.
    repeat split; lia.
  - destruct (Hfail 0%nat ltac:(lia)) as [e He].
    rewrite Nat.add_0_r in He.
    destruct (fetchWithRetry_throw A fun_ (S n + extra) interval w e He)
      as (w1 & Hstep & Hcalls & Harmed & _).
    change (S (S n) + extra)%nat with (S (S n + extra)).
    rewrite Hstep.
    destruct (IH None w1) as (Hp & Hc & Ha).
    + intros k Hk. rewrite Hcalls.
      destruct (Hfail (S k) ltac:(lia)) as [e' He']. exists e'.
      rewrite <- He'. f_equal. lia.
    + rewrite Hcalls, <- Hhang. f_equal. lia.
    + rewrite Hp, Hc, Ha, Hcalls, Harmed, length_app. simpl.
      repeat split; lia.
Qed.

End RetryMore.

Lemma fetchWithRetry_waits_and_leaves_no_timer_witness :
  exists w',
    fetchWithRetry Z (Sample.flaky 2 42) 3 (Some 10) world0
    = (Resolved 42, w') /\
    timeouts w' = [] /\
    clock w' = 15000.
Proof.
  destruct (fetchWithRetry_waits_and_leaves_no_timer Z (Sample.flaky 2 42)
              2 0 (Some 10) world0 42)
    as (w' & Hrun & Hts & _ & Hclock & _).
  - constructor.
  - intros k Hk. exists Sample.refused.
    destruct k as [|[|k]]; [reflexivity|reflexivity|lia].
  - reflexivity.
  - exists w'. split; [exact Hrun|]. split; [exact Hts|exact Hclock].
Defined.

Lemma fetchWithRetry_logs_each_failure_witness :
  exists w',
    fetchWithRetry Z (Sample.flaky 2 42) 3 (Some 10) world0
    = (Resolved 42, w') /\
    console w' = [LogError Sample.refused; LogRetry 10;
                  LogError Sample.refused; LogRetry 5].
Proof.
  destruct (fetchWithRetry_logs_each_failure Z (Sample.flaky 2 42)
              2 0 (Some 10) world0 42 (fun _ => Sample.refused))
    as (w' & Hrun & Hlog).
  - intros k Hk. destruct k as [|[|k]]; [reflexivity|reflexivity|lia].
  - reflexivity.
  - exists w'. split; [exact Hrun|exact Hlog].
Defined.

Lemma fetchWithRetry_waits_for_a_hanging_attempt_witness :
  fst (fetchWithRetry Z (Scenario.stuck 2) 9 None world0) = Pending /\
  fun_calls (snd (fetchWithRetry Z (Scenario.stuck 2) 9 None world0)) = 3%nat.
Proof.
  destruct (fetchWithRetry_waits_for_a_hanging_attempt Z (Scenario.stuck 2)
              2 6 None world0) as (Hp & Hc & _).
  - intros k Hk. exists Sample.refused.
    destruct k as [|[|k]]; [reflexivity|reflexivity|lia].
  - reflexivity.
  - split; [exact Hp|exact Hc].
Defined.

(** ** [addHeader] *)

Lemma ascii_lower_idem (c : ascii) : ascii_lower (ascii_lower c) = ascii_lower c.
Proof.
  destruct c as [[] [] [] [] [] [] [] []]; reflexivity.
Qed.

Lemma lower_idem (s : string) : lower (lower s) = lower s.
Proof.
  induction s as [|c s IH]; simpl; [reflexivity|].
  rewrite ascii_lower_idem, IH. reflexivity.
Qed.

Lemma find_filter_implied {X : Type} (f g : X -> bool) (l : list X) :
  (forall y, f y = true -> g y = true) ->
  List.find f (List.filter g l) = List.find f l.
Proof.
  intros Himp. induction l as [|y l IH]; simpl; [reflexivity|].
  destruct (f y) eqn:Hf.
  - rewrite (Himp y Hf). simpl. rewrite Hf. reflexivity.
  - destruct (g y); simpl; rewrite ?Hf; exact IH.
Qed.

Lemma find_snoc_miss {X : Type} (f : X -> bool) (l : list X) (x : X) :
  f x = false -> List.find f (l ++ [x]) = List.find f l.
Proof.
  intros Hx. induction l as [|y l IH]; simpl.
  - rewrite Hx. reflexivity.
  - destruct (f y); [reflexivity|exact IH].
Qed.

Lemma headers_get_set_same (k k' v : string) (h : Headers) :
  lower k' = lower k ->
  headers_get k' (headers_set k v h) = Some v.
Proof.
  intros Hk. unfold headers_get. rewrite Hk.
  apply (headers_get_set k v h).
Qed.

Lemma headers_get_set_other (k k' v : string) (h : Headers) :
  lower k' <> lower k ->
  headers_get k' (headers_set k v h) = headers_get k' h.
Proof.
  intros Hk. unfold headers_get, headers_set.
  rewrite find_snoc_miss.
  - rewrite find_filter_implied; [reflexivity|].
    intros [a b] Ha. simpl in *. apply String.eqb_eq in Ha. subst a.
    apply negb_true_iff, String.eqb_neq. exact Hk.
  - simpl. apply String.eqb_neq. intros E. apply Hk. symmetry. exact E.
Qed.

Lemma headers_set_one_entry (k v : string) (h : Headers) :
  List.filter (fun kv => String.eqb (fst kv) (lower k)) (headers_set k v h)
  = [(lower k, v)].
Proof.
  unfold headers_set. rewrite List.filter_app. simpl.
  rewrite String.eqb_refl.
  assert (List.filter (fun kv : string * string => String.eqb (fst kv) (lower k))
            (List.filter (fun kv => negb (String.eqb (fst kv) (lower k))) h)
          = []) as ->; [|reflexivity].
  induction h as [|[a b] h IH]; simpl; [reflexivity|].
  destruct (String.eqb a (lower k)) eqn:E; simpl; [exact IH|].
  rewrite E. exact IH.
Qed.

Lemma addHeader_headers (init : option RequestInit) (key value : string) :
  headers (addHeader init key value)
  = headers_set key value
      (new_Headers (match init with Some i => headers i | None => [] end)).
Proof. destruct init; reflexivity. Qed.

Lemma new_Headers_normal (h : Headers) : normal_headers (new_Headers h).
Proof.
  unfold normal_headers, new_Headers.
  induction h as [|kv h IH]; simpl; constructor; [|exact IH].
  simpl. apply lower_idem.
Qed.

Lemma new_Headers_of_normal (h : Headers) :
  normal_headers h -> new_Headers h = h.
Proof.
  unfold normal_headers, new_Headers.
  induction 1 as [|[a b] h Ha Hh IH]; simpl; [reflexivity|].
  simpl in Ha. rewrite Ha, IH. reflexivity.
Qed.

Lemma headers_set_normal (k v : string) (h : Headers) :
  normal_headers h -> normal_headers (headers_set k v h).
Proof.
  unfold normal_headers, headers_set. intros Hh.
  apply Forall_app. split.
  - induction Hh as [|kv h Hkv Hh IH]; simpl; [constructor|].
    destruct (negb _); [constructor; assumption|exact IH].
  - constructor; [|constructor]. simpl. apply lower_idem.
Qed.

Lemma headers_set_set (k v0 v1 : string) (h : Headers) :
  headers_set k v1 (headers_set k v0 h) = headers_set k v1 h.
Proof.
  unfold headers_set. rewrite List.filter_app. simpl.
  rewrite String.eqb_refl. simpl. rewrite app_nil_r. f_equal.
  induction h as [|[a b] h IH]; simpl; [reflexivity|].
  destruct (negb (String.eqb a (lower k))) eqn:E; simpl;
    rewrite ?E, IH; reflexivity.
Qed.

Lemma addHeader_twice (init : option RequestInit) (key v0 v1 : string) :
  addHeader (Some (addHeader init key v0)) key v1 = addHeader init key v1.
Proof.
  assert (Hset : forall h,
             headers_set key v1 (new_Headers (headers_set key v0 (new_Headers h)))
             = headers_set key v1 (new_Headers h)).
  { intros h. rewrite new_Headers_of_normal
      by apply headers_set_normal, new_Headers_normal.
    apply headers_set_set. }
  unfold addHeader at 1. rewrite addHeader_headers, Hset.
  destruct init as [i|]; reflexivity.
Qed.

Lemma token_char_lower (c : ascii) :
  token_char (ascii_lower c) = token_char c.
Proof. destruct c as [[] [] [] [] [] [] [] []]; reflexivity. Qed.

Lemma legal_header_name_lower (k : string) :
  legal_header_name (lower k) = legal_header_name k.
Proof.
  unfold legal_header_name. f_equal.
  - destruct k; reflexivity.
  - induction k as [|c k IH]; simpl; [reflexivity|].
    rewrite token_char_lower, IH. reflexivity.
Qed.

Lemma headers_object_normal (h : Headers) :
  headers_object h = true -> normal_headers h.
Proof.
  unfold headers_object, normal_headers. intros H.
  apply andb_prop in H as [H _]. rewrite forallb_forall in H.
  apply List.Forall_forall. intros kv Hkv. specialize (H kv Hkv).
  apply andb_prop in H as [H _]. apply andb_prop in H as [H _].
  apply String.eqb_eq, H.
Qed.

Lemma distinct_names_filter (f : string * string -> bool) (h : Headers) :
  distinct_names h = true -> distinct_names (List.filter f h) = true.
Proof.
  induction h as [|kv h IH]; simpl; [reflexivity|].
  intros H. apply andb_prop in H as [Hkv Hh].
  destruct (f kv); simpl; [|apply IH, Hh].
  rewrite (IH Hh), andb_true_r.
  apply negb_true_iff. apply negb_true_iff in Hkv.
  apply not_true_is_false. intros Hex. apply existsb_exists in Hex
    as (kv' & Hin & Heq).
  apply filter_In in Hin as [Hin _].
  assert (existsb (fun kv' => String.eqb (fst kv') (fst kv)) h = true)
    by (apply existsb_exists; exists kv'; auto).
  congruence.
Qed.

Lemma distinct_names_snoc (h : Headers) (kv : string * string) :
  distinct_names h = true ->
  existsb (fun kv' => String.eqb (fst kv') (fst kv)) h = false ->
  distinct_names (h ++ [kv]) = true.
Proof.
  induction h as [|x h IH]; simpl; [reflexivity|].
  intros H Hmiss. apply andb_prop in H as [Hx Hh].
  apply orb_false_elim in Hmiss as [Hxk Hmiss].
  rewrite (IH Hh Hmiss), andb_true_r. rewrite existsb_app. simpl.
  apply negb_true_iff in Hx. rewrite Hx. simpl.
  rewrite orb_false_r. rewrite String.eqb_sym, Hxk. reflexivity.
Qed.

(** Setting a legal header in a [Headers] object leaves a [Headers]
    object. *)
Lemma headers_set_object (k v : string) (h : Headers) :
  legal_header_name k = true ->
  legal_header_value v = true ->
  headers_object h = true ->
  headers_object (headers_set k v h) = true.
Proof.
  unfold headers_object, headers_set. intros Hk Hv H.
  apply andb_prop in H as [Hall Hdist].
  apply andb_true_intro. split.
  - rewrite forallb_app. apply andb_true_intro. split.
    + rewrite forallb_forall in *. intros kv Hkv.
      apply filter_In in Hkv as [Hkv _]. apply Hall, Hkv.
    + simpl. rewrite lower_idem, String.eqb_refl, legal_header_name_lower,
        Hk, Hv. reflexivity.
  - apply distinct_names_snoc.
    + apply distinct_names_filter, Hdist.
    + simpl. apply not_true_is_false. intros Hex.
      apply existsb_exists in Hex as (kv & Hin & Heq).
      apply filter_In in Hin as [_ Hne]. rewrite Heq in Hne. discriminate.
Qed.

(** X7. [addHeader], given options whose headers are a [Headers] object
    (or none), throws a [TypeError] exactly when the name or the value is
    not legal.  Otherwise it sets the header whatever the case of its
    name and leaves exactly one entry for it, so that a value the caller
    supplied under that name is replaced; the headers it returns are a
    [Headers] object again, in which every header of another name reads
    as the caller gave it; and every other option is the caller's. *)
Theorem addHeader_sets_one_header (init : option RequestInit)
    (key value : string) :
  let given := match init with Some i => headers i | None => [] end in
  headers_object given = true ->
  (legal_header_name key = false ->
   addHeader_or_throw init key value = inr (illegal_name key)) /\
  (legal_header_name key = true -> legal_header_value value = false ->
   addHeader_or_throw init key value = inr (illegal_value value)) /\
  (legal_header_name key = true -> legal_header_value value = true ->
   exists out,
     addHeader_or_throw init key value = inl out /\
     (forall k', lower k' = lower key ->
                 headers_get k' (headers out) = Some value) /\
     List.filter (fun kv => String.eqb (fst kv) (lower key)) (headers out)
     = [(lower key, value)] /\
     headers_object (headers out) = true /\
     (forall k', lower k' <> lower key ->
                 headers_get k' (headers out) = headers_get k' given) /\
     timeout out = init ≫= timeout /\
     proxyUrl out = init ≫= proxyUrl /\
     signal out = init ≫= signal /\
     agent out = init ≫= agent /\
     passthrough out
     = match init with Some i => passthrough i | None => [] end).
Proof.
  intros given Hobj. rewrite addHeader_or_throw_cases.
  split; [|split].
  - intros ->. reflexivity.
  - intros -> ->. reflexivity.
  - intros Hk Hv. rewrite Hk, Hv. simpl.
    exists (addHeader init key value). split; [reflexivity|].
    rewrite addHeader_headers. fold given.
    rewrite (new_Headers_of_normal given)
      by apply headers_object_normal, Hobj.
    split; [|split; [|split; [|split]]].
    + intros k' Hk'. apply headers_get_set_same, Hk'.
    + apply headers_set_one_entry.
    + apply headers_set_object; assumption.
    + intros k' Hk'. apply headers_get_set_other, Hk'.
    + destruct init; repeat split.
Qed.

Lemma addHeader_sets_one_header_witness :
  (exists out,
     addHeader_or_throw (Some Scenario.stale_credential) "Authorization"
       "token" = inl out /\
     headers out = [("accept", "text/html"); ("authorization", "token")] /\
     headers_get "AUTHORIZATION" (headers out) = Some "token") /\
  addHeader_or_throw (Some Scenario.stale_credential) "Authorization"
    Scenario.broken_token
  = inr (illegal_value Scenario.broken_token).
Proof.
  destruct (addHeader_sets_one_header (Some Scenario.stale_credential)
              "Authorization" "token" eq_refl) as (_ & _ & Hset).
  destruct (addHeader_sets_one_header (Some Scenario.stale_credential)
              "Authorization" Scenario.broken_token eq_refl)
    as (_ & Hthrow & _).
  split; [|apply Hthrow; reflexivity].
  destruct (Hset eq_refl eq_refl) as (out & Hout & Hget & _).
  exists out. split; [exact Hout|].
  split; [|apply Hget; reflexivity].
  injection Hout as <-. reflexivity.
Defined.

(** X8. In index.js the second request of a call is built from the
    argument array the first [addHeader] has already written to.  Setting
    the header again replaces the value set before, so the retry carries
    exactly the options the TypeScript build computes from the caller's
    own: the two builds send the same retry. *)
Theorem addHeader_js_retry_as_index_ts (url : Url)
    (init : option RequestInit) (auth0 auth1 : string) :
  js_first_request (url, init) auth0
  = (url, Some (addHeader init "Authorization" auth0)) /\
  js_retry_request (url, init) auth0 auth1
  = (url, Some (addHeader init "Authorization" auth1)).
Proof.
  split; [reflexivity|].
  unfold js_retry_request, js_first_request, addHeader_js.
  cbn [fst snd]. f_equal. f_equal. apply addHeader_twice.
Qed.

(** ** [fetchByProxy] *)

Section ProxyMore.

Variable transport : Url -> RequestInit -> behaviour.
Variable proxy : option string -> Agent + jserror.

Lemma bind_ret_fst {X : Type} (m : M X) (w : World) :
  (let* x := m in ret x) w = m w.
Proof. unfold bind, ret. destruct (m w) as [[x|e|] w']; reflexivity. Qed.

(** X9. With a [proxyUrl] the constructor accepts, [fetchByProxy] is
    [fetchWithTimeout] on the caller's options with the agent attached:
    the one request that reaches the transport carries the agent built
    from [proxyUrl], and the deadline is the one the caller's [timeout]
    selects. *)
Theorem fetchByProxy_attaches_agent (url : Url) (i : RequestInit)
    (a : Agent) (w : World) :
  proxy (proxyUrl i) = inl a ->
  fetchByProxy transport proxy url (Some i) w
  = fetchWithTimeout transport url (Some (with_agent i a)) w /\
  requests (snd (fetchByProxy transport proxy url (Some i) w))
  = requests w ++ [(url, with_signal (with_agent i a) (next_id w))] /\
  agent (with_signal (with_agent i a) (next_id w)) = Some a /\
  deadline (Some (with_agent i a)) = deadline (Some i).
Proof.
  intros Ha.
  assert (Heq : fetchByProxy transport proxy url (Some i) w
                = fetchWithTimeout transport url (Some (with_agent i a)) w).
  { unfold fetchByProxy, new_HttpsProxyAgent. rewrite Ha.
    unfold bind at 1. unfold ret at 1. apply bind_ret_fst. }
  split; [exact Heq|]. split; [|split; reflexivity].
  rewrite Heq. unfold fetchWithTimeout.
  apply (fetchWithTimeout_with_requests transport clearTimeout url
           (Some (with_agent i a)) w clearTimeout_requests).
Qed.

(** X10. index.js builds the options with a spread where src/index.ts
    assigns [init.agent]; its branch for absent options cannot be reached,
    since reading [args[1].proxyUrl] has thrown by then.  The two builds
    settle alike and hand the same requests to the transport. *)
Theorem fetchByProxy_js_agrees (url : Url) (init : option RequestInit)
    (w : World) :
  fst (fetchByProxy_js transport proxy url init w)
  = fst (fetchByProxy transport proxy url init w) /\
  requests (snd (fetchByProxy_js transport proxy url init w))
  = requests (snd (fetchByProxy transport proxy url init w)).
Proof.
  destruct init as [i|]; [|split; reflexivity].
  destruct (proxy (proxyUrl i)) as [a|e] eqn:Ha.
  2: { unfold fetchByProxy_js, fetchByProxy, new_HttpsProxyAgent.
       rewrite Ha. split; reflexivity. }
  assert (Hjs : fetchByProxy_js transport proxy url (Some i) w
                = fetchWithTimeout_js transport url (Some (with_agent i a)) w).
  { unfold fetchByProxy_js, new_HttpsProxyAgent. rewrite Ha.
    unfold bind at 1. unfold ret at 1. apply bind_ret_fst. }
  assert (Hts : fetchByProxy transport proxy url (Some i) w
                = fetchWithTimeout transport url (Some (with_agent i a)) w).
  { unfold fetchByProxy, new_HttpsProxyAgent. rewrite Ha.
    unfold bind at 1. unfold ret at 1. apply bind_ret_fst. }
  rewrite Hjs, Hts.
  split.
  - apply fetchWithTimeout_js_outcome.
  - unfold fetchWithTimeout_js, fetchWithTimeout.
    rewrite (fetchWithTimeout_with_requests transport clearImmediate url
               _ w clearImmediate_requests).
    rewrite (fetchWithTimeout_with_requests transport clearTimeout url
               _ w clearTimeout_requests).
    reflexivity.
Qed.

End ProxyMore.

Lemma fetchByProxy_attaches_agent_witness :
  requests (snd (fetchByProxy Sample.quick Sample.proxy_agent
                   "https://example.org" (Some Scenario.via_proxy) world0))
  = [("https://example.org",
      MkInit (Some (Num 2000)) [("Accept", "text/html")]
             (Some "http://127.0.0.1:3000") (Some 0%nat)
             (Some (MkAgent "http://127.0.0.1:3000")) [])].
Proof.
  destruct (fetchByProxy_attaches_agent Sample.quick Sample.proxy_agent
              "https://example.org" Scenario.via_proxy
              (MkAgent "http://127.0.0.1:3000") world0 eq_refl)
    as (_ & Hreq & _).
  exact Hreq.
Defined.

(** ** More on the promise heap *)

Section FlightMore.

Context {A : Type}.
Implicit Types (fl : Flight.t A) (r : Flight.Run A).

Lemma produced_update fl (v : A) :
  produced fl v -> produced (snd (Flight.update fl)) v.
Proof.
  intros (p & r & Hp & Hr). unfold Flight.update.
  destruct (Flight.promise fl); simpl; [exists p, r; auto|].
  exists p, r. split; [|exact Hr]. apply lookup_app_l_Some. exact Hp.
Qed.

Lemma produced_on_run (f : Flight.Run A -> option (Flight.Run A)) (p : nat)
    fl fl' (v : A) :
  (forall r r', f r = Some r' -> Flight.in_flight r = true) ->
  Flight.on_run f p fl = Some fl' ->
  produced fl v -> produced fl' v.
Proof.
  intros Hf Hrun (q & rq & Hq & Hrq).
  destruct (on_run_inv f p fl fl' Hrun) as (r & r' & Hp & Hfr & ->).
  exists q, rq. split; [|exact Hrq]. simpl.
  destruct (decide (p = q)) as [<-|Hne].
  - exfalso. rewrite Hp in Hq. injection Hq as <-.
    pose proof (Hf r r' Hfr) as Hin. unfold Flight.in_flight in Hin.
    rewrite Hrq in Hin. discriminate.
  - rewrite list_lookup_insert_ne by exact Hne. exact Hq.
Qed.

Lemma return_needs_flight (a : A) r r' :
  Flight.run_return a r = Some r' -> Flight.in_flight r = true.
Proof.
  intros H. destruct (run_return_fulfilled a r r' H) as (Hr & _).
  unfold Flight.in_flight. rewrite Hr. reflexivity.
Qed.

Lemma produced_fulfil (p : nat) (a : A) fl fl' :
  Flight.fulfil p a fl = Some fl' ->
  produced fl' a /\ forall v, produced fl v -> produced fl' v.
Proof.
  unfold Flight.fulfil.
  destruct (Flight.on_run (Flight.run_return a) p fl) as [fl1|] eqn:Hrun;
    [|discriminate].
  intros [= <-]. split.
  - destruct (on_run_inv _ p fl fl1 Hrun) as (r & r' & Hp & Hret & ->).
    destruct (run_return_fulfilled a r r' Hret) as (_ & Hr' & _).
    exists p, r'. split; [|exact Hr']. simpl.
    apply list_lookup_insert_eq. eapply lookup_lt_Some. exact Hp.
  - intros v Hv.
    destruct (produced_on_run _ p fl fl1 v (return_needs_flight a) Hrun Hv)
      as (q & rq & Hq & Hrq).
    exists q, rq. auto.
Qed.

Lemma paced_start : paced (@Flight.run_start A None).
Proof. repeat split. constructor. Qed.

Lemma paced_throw (e : jserror) r r' :
  paced r -> Flight.run_throw e r = Some r' -> paced r'.
Proof.
  intros (Hint & Hslept & Hcalls). unfold Flight.run_throw.
  destruct (Flight.run_status_of r) eqn:Hst; [|discriminate..].
  intros [= <-]. unfold paced. simpl. rewrite Hint. simpl.
  split; [reflexivity|]. split.
  - apply Forall_app. split; [exact Hslept|].
    constructor; [reflexivity|constructor].
  - rewrite length_app. simpl. lia.
Qed.

Lemma paced_wake r r' :
  paced r -> Flight.run_wake r = Some r' -> paced r'.
Proof.
  intros (Hint & Hslept & Hcalls). unfold Flight.run_wake.
  destruct (Flight.run_status_of r) eqn:Hst; [discriminate| |discriminate].
  intros [= <-]. unfold paced. simpl.
  split; [reflexivity|]. split; [exact Hslept|lia].
Qed.

Lemma paced_return (a : A) r r' :
  paced r -> Flight.run_return a r = Some r' -> paced r'.
Proof.
  intros (Hint & Hslept & Hcalls). unfold Flight.run_return.
  destruct (Flight.run_status_of r) eqn:Hst; [|discriminate..].
  intros [= <-]. unfold paced. simpl.
  split; [exact Hint|]. split; [exact Hslept|lia].
Qed.

Lemma paced_update fl :
  Forall paced (Flight.runs fl) ->
  Forall paced (Flight.runs (snd (Flight.update fl))).
Proof.
  intros H. unfold Flight.update.
  destruct (Flight.promise fl); simpl; [exact H|].
  apply Forall_app. split; [exact H|].
  constructor; [apply paced_start|constructor].
Qed.

Lemma paced_on_run (f : Flight.Run A -> option (Flight.Run A)) (p : nat)
    fl fl' :
  (forall r r', paced r -> f r = Some r' -> paced r') ->
  Forall paced (Flight.runs fl) ->
  Flight.on_run f p fl = Some fl' ->
  Forall paced (Flight.runs fl').
Proof.
  intros Hf Hall Hrun.
  destruct (on_run_inv f p fl fl' Hrun) as (r & r' & Hp & Hfr & ->).
  simpl. apply Forall_insert; [exact Hall|].
  apply (Hf r r'); [|exact Hfr].
  rewrite Forall_lookup in Hall. apply (Hall p r Hp).
Qed.

Lemma paced_fulfil (p : nat) (a : A) fl fl' :
  Forall paced (Flight.runs fl) ->
  Flight.fulfil p a fl = Some fl' ->
  Forall paced (Flight.runs fl').
Proof.
  intros Hall. unfold Flight.fulfil.
  destruct (Flight.on_run (Flight.run_return a) p fl) as [fl1|] eqn:Hrun;
    [|discriminate].
  intros [= <-]. simpl.
  apply (paced_on_run _ p fl fl1 (paced_return a) Hall Hrun).
Qed.

End FlightMore.

(** ** More on [fetchWithAuth] *)

Section AuthMore.

Implicit Types (s : fetchWithAuth.State) (cl : fetchWithAuth.Caller).

Lemma insert_lookup_cases {X : Type} (l : list X) (c d : nat) (x y : X) :
  <[c := x]> l !! d = Some y ->
  (c = d /\ y = x /\ (d < length l)%nat) \/ (c <> d /\ l !! d = Some y).
Proof.
  intros H. apply list_lookup_insert_Some in H.
  destruct H as [(-> & -> & Hlt)|[Hne Hl]]; [left|right]; auto.
Qed.

(** Every change to a call is one of the moves of [caller_step]. *)
Lemma step_caller s s' (ev : fetchWithAuth.event) (d : nat) cl' :
  fetchWithAuth.step s ev = Some s' ->
  fetchWithAuth.callers s' !! d = Some cl' ->
  caller_step s ev d (fetchWithAuth.callers s !! d) cl'.
Proof.
  intros Hstep Hd.
  destruct ev as [url init|c o|p token|p e|p]; simpl in Hstep.
  - injection Hstep as <-. simpl in Hd.
    apply lookup_app_Some in Hd as [Hold|[Hge Hnew]].
    + rewrite Hold. constructor.
    + destruct (d - length (fetchWithAuth.callers s))%nat eqn:E;
        [|discriminate].
      injection Hnew as <-.
      rewrite (lookup_ge_None_2 _ _ Hge).
      apply cs_new with (url := url) (init := init); [reflexivity|lia].
  - unfold fetchWithAuth.settle_request in Hstep.
    destruct (fetchWithAuth.callers s !! c) as [cl|] eqn:Hc; [|discriminate].
    destruct (fetchWithAuth.c_pc cl) eqn:Hpc; try discriminate.
    + destruct o as [res|e]; [destruct (fetchWithAuth.unauthorized res) eqn:Hu|].
      * injection Hstep as <-. unfold fetchWithAuth.update in Hd.
        destruct (Flight.update (fetchWithAuth.flight s)) as [p fl] eqn:Hupd.
        simpl in Hd.
        apply insert_lookup_cases in Hd as [(-> & -> & _)|[Hne Hold]].
        -- rewrite Hc.
           replace p with (fst (Flight.update (fetchWithAuth.flight s)))
             by (rewrite Hupd; reflexivity).
           apply cs_denied with (res := res); auto.
        -- rewrite Hold. constructor.
      * injection Hstep as <-. simpl in Hd.
        apply insert_lookup_cases in Hd as [(-> & -> & _)|[Hne Hold]].
        -- rewrite Hc. apply cs_pass; auto.
        -- rewrite Hold. constructor.
      * injection Hstep as <-. simpl in Hd.
        apply insert_lookup_cases in Hd as [(-> & -> & _)|[Hne Hold]].
        -- rewrite Hc. apply cs_reject; auto.
        -- rewrite Hold. constructor.
    + injection Hstep as <-. simpl in Hd.
      apply insert_lookup_cases in Hd as [(-> & -> & _)|[Hne Hold]].
      * rewrite Hc. apply cs_final; auto.
      * rewrite Hold. constructor.
  - unfold fetchWithAuth.refreshed in Hstep.
    destruct (Flight.fulfil p token (fetchWithAuth.flight s)) as [fl|];
      [|discriminate].
    injection Hstep as <-. simpl in Hd. rewrite list_lookup_fmap in Hd.
    destruct (fetchWithAuth.callers s !! d) as [cl|]; [|discriminate].
    injection Hd as <-. unfold fetchWithAuth.resume.
    destruct (fetchWithAuth.c_pc cl) as [|q| |r] eqn:Hpc; try constructor.
    destruct (Nat.eqb_spec q p) as [->|Hne]; [|constructor].
    apply cs_retry with (p := p); auto.
  - destruct (Flight.on_run _ p _); [|discriminate].
    injection Hstep as <-. simpl in Hd. rewrite Hd. constructor.
  - destruct (Flight.on_run _ p _); [|discriminate].
    injection Hstep as <-. simpl in Hd. rewrite Hd. constructor.
Qed.

(** No step removes a call. *)
Lemma step_keeps_callers s s' (ev : fetchWithAuth.event) :
  fetchWithAuth.step s ev = Some s' ->
  (length (fetchWithAuth.callers s) <= length (fetchWithAuth.callers s'))%nat.
Proof.
  intros Hstep.
  destruct ev as [url init|c o|p token|p e|p]; simpl in Hstep.
  - injection Hstep as <-. simpl. rewrite length_app. lia.
  - unfold fetchWithAuth.settle_request in Hstep.
    destruct (fetchWithAuth.callers s !! c) as [cl|]; [|discriminate].
    destruct (fetchWithAuth.c_pc cl); try discriminate.
    + destruct o as [res|e]; [destruct (fetchWithAuth.unauthorized res)|];
        injection Hstep as <-; simpl; rewrite ?length_insert; try lia.
      unfold fetchWithAuth.update.
      destruct (Flight.update (fetchWithAuth.flight s)). simpl.
      rewrite length_insert. lia.
    + injection Hstep as <-. simpl. rewrite length_insert. lia.
  - unfold fetchWithAuth.refreshed in Hstep.
    destruct (Flight.fulfil p token (fetchWithAuth.flight s)); [|discriminate].
    injection Hstep as <-. simpl. rewrite length_map. lia.
  - destruct (Flight.on_run _ p _); [|discriminate].
    injection Hstep as <-. simpl. lia.
  - destruct (Flight.on_run _ p _); [|discriminate].
    injection Hstep as <-. simpl. lia.
Qed.

(** The credential changes when a refresh resolves, and only then; a
    token once delivered remains one. *)
Lemma step_credential s s' (ev : fetchWithAuth.event) :
  fetchWithAuth.step s ev = Some s' ->
  (forall v, credential s v -> credential s' v) /\
  match ev with
  | fetchWithAuth.FunReturns _ token =>
      fetchWithAuth.Authorization s' = token /\ credential s' token
  | _ => fetchWithAuth.Authorization s' = fetchWithAuth.Authorization s
  end.
Proof.
  intros Hstep.
  destruct ev as [url init|c o|p token|p e|p]; simpl in Hstep.
  - injection Hstep as <-. split; [auto|reflexivity].
  - assert (Hauth : fetchWithAuth.Authorization s'
                    = fetchWithAuth.Authorization s).
    { unfold fetchWithAuth.settle_request in Hstep.
      destruct (fetchWithAuth.callers s !! c) as [cl|]; [|discriminate].
      destruct (fetchWithAuth.c_pc cl); try discriminate.
      - destruct o as [res|e]; [destruct (fetchWithAuth.unauthorized res)|];
          injection Hstep as <-; try reflexivity.
        unfold fetchWithAuth.update.
        destruct (Flight.update (fetchWithAuth.flight s)). reflexivity.
      - injection Hstep as <-. reflexivity. }
    split; [|exact Hauth].
    intros v [->|Hv]; [left; reflexivity|right].
    destruct (settle_request_flight c o s s' Hstep) as [-> | ->];
      [exact Hv|apply produced_update, Hv].
  - unfold fetchWithAuth.refreshed in Hstep.
    destruct (Flight.fulfil p token (fetchWithAuth.flight s)) as [fl|] eqn:Hful;
      [|discriminate].
    injection Hstep as <-.
    destruct (produced_fulfil p token _ fl Hful) as [Hnew Hmono].
    split; [|split; [reflexivity|right; exact Hnew]].
    intros v [->|Hv]; [left; reflexivity|right; apply Hmono, Hv].
  - destruct (Flight.on_run _ p _) as [fl|] eqn:Hrun; [|discriminate].
    injection Hstep as <-. split; [|reflexivity].
    intros v [->|Hv]; [left; reflexivity|right].
    apply (produced_on_run _ p _ fl v
             (fun r r' H => proj1 (throw_keeps_flight e r r' H)) Hrun Hv).
  - destruct (Flight.on_run _ p _) as [fl|] eqn:Hrun; [|discriminate].
    injection Hstep as <-. split; [|reflexivity].
    intros v [->|Hv]; [left; reflexivity|right].
    apply (produced_on_run _ p _ fl v
             (fun r r' H => proj1 (wake_keeps_flight r r' H)) Hrun Hv).
Qed.

Lemma run_invariant (P : fetchWithAuth.State -> Prop)
    (sch : list fetchWithAuth.event) s s' :
  (forall s1 s2 ev, Auth_ok s1 -> P s1 ->
                    fetchWithAuth.step s1 ev = Some s2 -> P s2) ->
  Auth_ok s -> P s ->
  fetchWithAuth.run s sch = Some s' -> P s'.
Proof.
  intros Hstep. revert s.
  induction sch as [|ev sch IH]; intros s Hok HP Hrun; simpl in Hrun.
  - injection Hrun as <-. exact HP.
  - destruct (fetchWithAuth.step s ev) as [s1|] eqn:Hs; [|discriminate].
    apply (IH s1); [|apply (Hstep s s1 ev Hok HP Hs)|exact Hrun].
    apply (Auth_ok_step s s1 ev Hok Hs).
Qed.

Lemma run_invariant_quiet (P : fetchWithAuth.State -> Prop)
    (skip : fetchWithAuth.event -> bool)
    (sch : list fetchWithAuth.event) s s' :
  (forall s1 s2 ev, P s1 -> skip ev = false ->
                    fetchWithAuth.step s1 ev = Some s2 -> P s2) ->
  P s ->
  fetchWithAuth.run s sch = Some s' ->
  forallb (fun ev => negb (skip ev)) sch = true ->
  P s'.
Proof.
  intros Hstep. revert s.
  induction sch as [|ev sch IH]; intros s HP Hrun Hall; simpl in Hrun.
  - injection Hrun as <-. exact HP.
  - destruct (fetchWithAuth.step s ev) as [s1|] eqn:Hs; [|discriminate].
    simpl in Hall. apply andb_prop in Hall as [Hev Hall].
    apply negb_true_iff in Hev.
    apply (IH s1); [apply (Hstep s s1 ev HP Hev Hs)|exact Hrun|exact Hall].
Qed.



(** X12. A call never resolves with a 401 or 403 it has not retried: if
    its result is such a response, it is the answer to its second
    request. *)
Theorem fetchWithAuth_denial_only_after_retry
    (sch : list fetchWithAuth.event) s (c : nat) cl (r : Response) :
  fetchWithAuth.run fetchWithAuth.init_state sch = Some s ->
  fetchWithAuth.callers s !! c = Some cl ->
  fetchWithAuth.c_pc cl = fetchWithAuth.Done (Resolved r) ->
  fetchWithAuth.unauthorized r = true ->
  length (fetchWithAuth.c_attempts cl) = 2%nat.
Proof.
  intros Hrun.
  assert (Hinv : forall d cd, fetchWithAuth.callers s !! d = Some cd ->
                              retried_if_denied cd).
  { apply (run_invariant
             (fun s0 => forall d cd, fetchWithAuth.callers s0 !! d = Some cd ->
                                     retried_if_denied cd)
             sch fetchWithAuth.init_state s);
      [|apply Auth_ok_init|intros d cd H; discriminate|exact Hrun].
    intros s1 s2 ev [_ Hok] HP Hs d cd' Hd r' Hpc Hu.
    pose proof (step_caller s1 s2 ev d cd' Hs Hd) as Hmove.
    inversion Hmove as [cd Hl|url init _ _ Hl|cd e Hp _ Hl|cd res Hp _ Hu' Hl
                        |cd res Hp _ Hu' Hl|cd o Hp _ Hl|cd p token Hp _ Hl];
      subst; symmetry in Hl; try request_cases Hpc; simpl in Hpc;
      try discriminate.
    - apply (HP d cd' Hl r' Hpc Hu).
    - injection Hpc as <-. rewrite Hu' in Hu. discriminate.
    - destruct (Hok d cd Hl) as [Hm _]. unfold attempts_match in Hm.
      rewrite Hp in Hm. exact Hm. }
  intros Hc Hpc Hu. apply (Hinv c cl Hc r Hpc Hu).
Qed.

(** X13. The credential is the initial empty string or a token a refresh
    resolved with; and every request a call has issued is the caller's
    own options, unchanged but for the header [Authorization], which
    holds such a credential. *)
Theorem fetchWithAuth_requests_carry_a_credential
    (sch : list fetchWithAuth.event) s :
  fetchWithAuth.run fetchWithAuth.init_state sch = Some s ->
  credential s (fetchWithAuth.Authorization s) /\
  forall c cl a,
    fetchWithAuth.callers s !! c = Some cl ->
    In a (fetchWithAuth.c_attempts cl) ->
    exists v,
      a = addHeader (fetchWithAuth.c_init cl) "Authorization" v /\
      credential s v /\
      headers_get "Authorization" (headers a) = Some v /\
      timeout a = fetchWithAuth.c_init cl ≫= timeout.
Proof.
  intros Hrun.
  assert (Hinv : credential s (fetchWithAuth.Authorization s) /\
                 forall d cd, fetchWithAuth.callers s !! d = Some cd ->
                              sent_with_credential s cd).
  { apply (run_invariant
             (fun s0 => credential s0 (fetchWithAuth.Authorization s0) /\
                        forall d cd, fetchWithAuth.callers s0 !! d = Some cd ->
                                     sent_with_credential s0 cd)
             sch fetchWithAuth.init_state s);
      [|apply Auth_ok_init
       |split; [left; reflexivity|intros d cd H; discriminate]
       |exact Hrun].
    intros s1 s2 ev _ [Hcur HP] Hs.
    destruct (step_credential s1 s2 ev Hs) as [Hmono Hauth].
    assert (Hcur2 : credential s2 (fetchWithAuth.Authorization s2)).
    { destruct ev; try (rewrite Hauth; apply Hmono, Hcur).
      destruct Hauth as [-> Hnew]. exact Hnew. }
    split; [exact Hcur2|].
    assert (Hkeep : forall cd, sent_with_credential s1 cd ->
                               sent_with_credential s2 cd).
    { intros cd H. unfold sent_with_credential in *.
      eapply Forall_impl; [exact H|].
      intros a (v & Ha & Hv). exists v. split; [exact Ha|apply Hmono, Hv]. }
    intros d cd' Hd.
    pose proof (step_caller s1 s2 ev d cd' Hs Hd) as Hmove.
    inversion Hmove as [cd Hl|url init Hev _ Hl|cd e Hp _ Hl|cd res Hp _ Hu' Hl
                        |cd res Hp _ Hu' Hl|cd o Hp _ Hl|cd p token Hp Hev Hl];
      subst; symmetry in Hl;
      try (apply Hkeep; apply (HP d _ Hl)).
    - unfold sent_with_credential. request_cases_goal; simpl.
      + constructor; [|constructor].
        exists (fetchWithAuth.Authorization s1). split; [reflexivity|].
        apply Hmono, Hcur.
      + constructor.
    - unfold sent_with_credential. request_cases_goal; simpl.
      + apply Forall_app. split.
        * apply (Hkeep cd (HP d cd Hl)).
        * constructor; [|constructor]. exists token. split; [reflexivity|].
          destruct Hauth as [_ Hnew]. exact Hnew.
      + apply (Hkeep cd (HP d cd Hl)). }
  destruct Hinv as [Hcur HP]. split; [exact Hcur|].
  intros c cl a Hc Ha. pose proof (HP c cl Hc) as Hall.
  unfold sent_with_credential in Hall. rewrite Forall_forall in Hall.
  destruct (Hall a) as (v & -> & Hv).
  { apply list_elem_of_In. exact Ha. }
  exists v. split; [reflexivity|]. split; [exact Hv|].
  apply addHeader_authorization.
Qed.

(** X14. Between two refreshes the credential does not change, and
    every call made meanwhile uses it.  Take a call whose own headers are
    a [Headers] object, or absent.  When the credential is a legal header
    value, the call has issued, until the next run resolves, exactly one
    request, with the header [Authorization] set to it.  When it is not
    (a token holding a line feed, say), [addHeader] throws: the call has
    issued no request and is rejected with the [TypeError]. *)
Theorem fetchWithAuth_later_calls_send_the_credential
    (sch : list fetchWithAuth.event) s1 s2 :
  fetchWithAuth.run s1 sch = Some s2 ->
  forallb (fun ev => negb (fetchWithAuth.completes ev)) sch = true ->
  fetchWithAuth.Authorization s2 = fetchWithAuth.Authorization s1 /\
  forall c cl,
    (length (fetchWithAuth.callers s1) <= c)%nat ->
    fetchWithAuth.callers s2 !! c = Some cl ->
    headers_object (match fetchWithAuth.c_init cl with
                    | Some i => headers i
                    | None => []
                    end) = true ->
    (legal_header_value (fetchWithAuth.Authorization s1) = true ->
     fetchWithAuth.c_attempts cl
     = [addHeader (fetchWithAuth.c_init cl) "Authorization"
          (fetchWithAuth.Authorization s1)] /\
     headers_get "Authorization"
       (headers (addHeader (fetchWithAuth.c_init cl) "Authorization"
                   (fetchWithAuth.Authorization s1)))
     = Some (fetchWithAuth.Authorization s1)) /\
    (legal_header_value (fetchWithAuth.Authorization s1) = false ->
     fetchWithAuth.c_attempts cl = [] /\
     fetchWithAuth.c_pc cl
     = fetchWithAuth.Done
         (Rejected (illegal_value (fetchWithAuth.Authorization s1)))).
Proof.
  intros Hrun Hall.
  set (n0 := length (fetchWithAuth.callers s1)).
  set (token := fetchWithAuth.Authorization s1).
  assert (Hinv : fetchWithAuth.Authorization s2 = token /\
                 (n0 <= length (fetchWithAuth.callers s2))%nat /\
                 new_calls_send n0 token s2).
  { apply (run_invariant_quiet
             (fun s => fetchWithAuth.Authorization s = token /\
                       (n0 <= length (fetchWithAuth.callers s))%nat /\
                       new_calls_send n0 token s)
             fetchWithAuth.completes sch s1 s2);
      [|split; [reflexivity|split; [lia|]]|exact Hrun|exact Hall].
    - intros sa sb ev (Hauth & Hlen & Hnew) Hev Hs.
      destruct (step_credential sa sb ev Hs) as [_ Hauth'].
      pose proof (step_keeps_callers sa sb ev Hs) as Hgrow.
      split; [|split; [lia|]].
      + destruct ev; try (rewrite Hauth'; exact Hauth). discriminate.
      + intros d cd' Hge Hd.
        pose proof (step_caller sa sb ev d cd' Hs Hd) as Hmove.
        inversion Hmove as [cd Hl|url init Hev' _ Hl|cd e Hp _ Hl
                            |cd res Hp _ Hu' Hl|cd res Hp _ Hu' Hl
                            |cd o Hp _ Hl|cd p tk Hp Hev' Hl];
          subst; symmetry in Hl;
          try (pose proof (Hnew d _ Hge Hl) as Hcd;
               destruct (legal_header_value token);
               [exact Hcd
               |destruct Hcd as [_ Hpc]; rewrite Hpc in Hp; discriminate]).
        * apply (Hnew d _ Hge Hl).
        * rewrite Hauth. request_cases_goal; rewrite Hlegal; simpl; auto.
        * discriminate.
    - intros c cl Hge Hc. exfalso.
      apply lookup_lt_Some in Hc. subst n0. lia. }
  destruct Hinv as (Hauth & _ & Hnew). split; [exact Hauth|].
  intros c cl Hge Hc _. specialize (Hnew c cl Hge Hc). split; intros Hl.
  - rewrite Hl in Hnew. split; [exact Hnew|apply addHeader_authorization].
  - rewrite Hl in Hnew. exact Hnew.
Qed.

(** X15. A call suspended in [update()] waits for the refresh however
    long it takes: until a run resolves, whatever else happens (failed
    attempts of the token fetch, retry timers, other calls and their
    answers), the call stays as it is, neither settled nor retried. *)
Theorem fetchWithAuth_waits_for_the_refresh
    (sch : list fetchWithAuth.event) s s' (c : nat) cl :
  fetchWithAuth.callers s !! c = Some cl ->
  fetchWithAuth.awaiting_update cl = true ->
  fetchWithAuth.run s sch = Some s' ->
  forallb (fun ev => negb (fetchWithAuth.completes ev)) sch = true ->
  fetchWithAuth.callers s' !! c = Some cl.
Proof.
  intros Hc Hwait Hrun Hall.
  apply (run_invariant_quiet
           (fun s0 => fetchWithAuth.callers s0 !! c = Some cl)
           fetchWithAuth.completes sch s s');
    [|exact Hc|exact Hrun|exact Hall].
  intros sa sb ev Hl Hev Hs.
  pose proof (step_keeps_callers sa sb ev Hs) as Hgrow.
  pose proof (lookup_lt_Some _ _ _ Hl) as Hlt.
  destruct (lookup_lt_is_Some_2 (fetchWithAuth.callers sb) c ltac:(lia))
    as [cl' Hd].
  pose proof (step_caller sa sb ev c cl' Hs Hd) as Hmove.
  rewrite Hl in Hmove. unfold fetchWithAuth.awaiting_update in Hwait.
  inversion Hmove as [cd Hx|url init Hev' _ Hx|cd e Hp _ Hx|cd res Hp _ Hu' Hx
                      |cd res Hp _ Hu' Hx|cd o Hp _ Hx|cd p tk Hp Hev' Hx];
    subst; try (rewrite Hp in Hwait; discriminate).
  exact Hd.
Qed.

(** X16. The token fetch is always retried at the default pace: every
    run the closure has started took no interval, waited 5000 ms before
    each retry, and has invoked the token fetch once to begin with and
    once after each delay. *)
Theorem fetchWithAuth_refresh_pace (sch : list fetchWithAuth.event) s
    (p : nat) (r : Flight.Run string) :
  fetchWithAuth.run fetchWithAuth.init_state sch = Some s ->
  Flight.runs (fetchWithAuth.flight s) !! p = Some r ->
  Flight.run_interval r = None /\
  Forall (fun d => d = 5000) (Flight.run_slept r) /\
  Flight.run_calls r
  = (length (Flight.run_slept r)
     + match Flight.run_status_of r with
       | Flight.Sleeping => 0
       | _ => 1
       end)%nat.
Proof.
  intros Hrun Hp.
  assert (Hall : Forall paced (Flight.runs (fetchWithAuth.flight s))).
  { apply (run_invariant
             (fun s0 => Forall paced (Flight.runs (fetchWithAuth.flight s0)))
             sch fetchWithAuth.init_state s);
      [|apply Auth_ok_init|constructor|exact Hrun].
    intros s1 s2 ev _ HP Hs.
    destruct ev as [url init|c o|q token|q e|q]; simpl in Hs.
    - injection Hs as <-. exact HP.
    - destruct (settle_request_flight c o s1 s2 Hs) as [-> | ->];
        [exact HP|apply paced_update, HP].
    - unfold fetchWithAuth.refreshed in Hs.
      destruct (Flight.fulfil q token (fetchWithAuth.flight s1)) as [fl|] eqn:Hful;
        [|discriminate].
      injection Hs as <-. simpl. apply (paced_fulfil q token _ fl HP Hful).
    - destruct (Flight.on_run _ q _) as [fl|] eqn:Hr; [|discriminate].
      injection Hs as <-. simpl.
      apply (paced_on_run _ q _ fl (paced_throw e) HP Hr).
    - destruct (Flight.on_run _ q _) as [fl|] eqn:Hr; [|discriminate].
      injection Hs as <-. simpl.
      apply (paced_on_run _ q _ fl paced_wake HP Hr). }
  rewrite Forall_lookup in Hall. apply (Hall p r Hp).
Qed.

End AuthMore.


Lemma fetchWithAuth_denial_only_after_retry_witness :
  exists s cl,
    fetchWithAuth.run fetchWithAuth.init_state Sample.denied_twice = Some s /\
    fetchWithAuth.callers s !! 0%nat = Some cl /\
    fetchWithAuth.c_pc cl = fetchWithAuth.Done (Resolved Sample.forbidden) /\
    length (fetchWithAuth.c_attempts cl) = 2%nat.
Proof.
  let r := eval vm_compute in
           (fetchWithAuth.run fetchWithAuth.init_state Sample.denied_twice) in
  match r with
  | Some ?st =>
      let c := eval vm_compute in (fetchWithAuth.callers st !! 0%nat) in
      match c with
      | Some ?cl0 =>
          exists st, cl0; split; [reflexivity|]; split; [reflexivity|];
          split; [reflexivity|];
          exact (fetchWithAuth_denial_only_after_retry Sample.denied_twice st
                   0%nat cl0 Sample.forbidden eq_refl eq_refl eq_refl eq_refl)
      end
  end.
Defined.

Lemma fetchWithAuth_requests_carry_a_credential_witness :
  exists s,
    fetchWithAuth.run fetchWithAuth.init_state Sample.late_denial = Some s /\
    credential s (fetchWithAuth.Authorization s).
Proof.
  let r := eval vm_compute in
           (fetchWithAuth.run fetchWithAuth.init_state Sample.late_denial) in
  match r with
  | Some ?st =>
      exists st; split; [reflexivity|];
      destruct (fetchWithAuth_requests_carry_a_credential Sample.late_denial
                  st eq_refl) as [Hcur _];
      exact Hcur
  end.
Defined.

Lemma fetchWithAuth_later_calls_send_the_credential_witness :
  (exists s1 s2 cl,
     fetchWithAuth.run fetchWithAuth.init_state
       (Sample.both_denied ++ [fetchWithAuth.FunReturns 0 "token"])
     = Some s1 /\
     fetchWithAuth.run s1 Scenario.after_refresh = Some s2 /\
     fetchWithAuth.Authorization s2 = "token" /\
     fetchWithAuth.callers s2 !! 2%nat = Some cl /\
     fetchWithAuth.c_attempts cl
     = [addHeader (fetchWithAuth.c_init cl) "Authorization" "token"]) /\
  (exists s1 s2 cl,
     fetchWithAuth.run fetchWithAuth.init_state
       (Sample.both_denied
        ++ [fetchWithAuth.FunReturns 0 Scenario.broken_token])
     = Some s1 /\
     fetchWithAuth.run s1 Scenario.after_broken_refresh = Some s2 /\
     fetchWithAuth.callers s2 !! 2%nat = Some cl /\
     fetchWithAuth.c_attempts cl = [] /\
     fetchWithAuth.c_pc cl
     = fetchWithAuth.Done (Rejected (illegal_value Scenario.broken_token))).
Proof.
  split.
  - let r := eval vm_compute in
             (fetchWithAuth.run fetchWithAuth.init_state
                (Sample.both_denied ++ [fetchWithAuth.FunReturns 0 "token"])) in
    match r with
    | Some ?st1 =>
        let r2 := eval vm_compute in
                  (fetchWithAuth.run st1 Scenario.after_refresh) in
        match r2 with
        | Some ?st2 =>
            let c2 := eval vm_compute in
                      (fetchWithAuth.callers st2 !! 2%nat) in
            match c2 with
            | Some ?cl2 =>
                exists st1, st2, cl2;
                split; [reflexivity|]; split; [reflexivity|];
                destruct (fetchWithAuth_later_calls_send_the_credential
                            Scenario.after_refresh st1 st2 eq_refl eq_refl)
                  as [Hauth Hnew];
                split; [exact Hauth|]; split; [reflexivity|];
                destruct (Hnew 2%nat cl2 ltac:(simpl; lia) eq_refl eq_refl)
                  as [Hlegal _];
                exact (proj1 (Hlegal eq_refl))
            end
        end
    end.
  - let r := eval vm_compute in
             (fetchWithAuth.run fetchWithAuth.init_state
                (Sample.both_denied
                 ++ [fetchWithAuth.FunReturns 0 Scenario.broken_token])) in
    match r with
    | Some ?st1 =>
        let r2 := eval vm_compute in
                  (fetchWithAuth.run st1 Scenario.after_broken_refresh) in
        match r2 with
        | Some ?st2 =>
            let c2 := eval vm_compute in
                      (fetchWithAuth.callers st2 !! 2%nat) in
            match c2 with
            | Some ?cl2 =>
                exists st1, st2, cl2;
                split; [reflexivity|]; split; [reflexivity|];
                destruct (fetchWithAuth_later_calls_send_the_credential
                            Scenario.after_broken_refresh st1 st2
                            eq_refl eq_refl) as [_ Hnew];
                split; [reflexivity|];
                destruct (Hnew 2%nat cl2 ltac:(simpl; lia) eq_refl eq_refl)
                  as [_ Hillegal];
                exact (Hillegal eq_refl)
            end
        end
    end.
Defined.

Lemma fetchWithAuth_waits_for_the_refresh_witness :
  exists s s' cl,
    fetchWithAuth.run fetchWithAuth.init_state
      [fetchWithAuth.Call "https://example.org/a" None;
       fetchWithAuth.Settle 0 (inl Sample.denied)] = Some s /\
    fetchWithAuth.run s Scenario.refresh_down = Some s' /\
    fetchWithAuth.callers s' !! 0%nat = Some cl /\
    fetchWithAuth.c_pc cl = fetchWithAuth.AwaitUpdate 0.
Proof.
  let r := eval vm_compute in
           (fetchWithAuth.run fetchWithAuth.init_state
              [fetchWithAuth.Call "https://example.org/a" None;
               fetchWithAuth.Settle 0 (inl Sample.denied)]) in
  match r with
  | Some ?st =>
      let r2 := eval vm_compute in
                (fetchWithAuth.run st Scenario.refresh_down) in
      let c := eval vm_compute in (fetchWithAuth.callers st !! 0%nat) in
      match r2 with
      | Some ?st2 =>
          match c with
          | Some ?cl0 =>
              exists st, st2, cl0; split; [reflexivity|];
              split; [reflexivity|];
              split; [|reflexivity];
              exact (fetchWithAuth_waits_for_the_refresh Scenario.refresh_down
                       st st2 0%nat cl0 eq_refl eq_refl eq_refl eq_refl)
          end
      end
  end.
Defined.

Lemma fetchWithAuth_refresh_pace_witness :
  exists s r,
    fetchWithAuth.run fetchWithAuth.init_state
      ([fetchWithAuth.Call "https://example.org/a" None;
        fetchWithAuth.Settle 0 (inl Sample.denied)]
       ++ Scenario.refresh_down) = Some s /\
    Flight.runs (fetchWithAuth.flight s) !! 0%nat = Some r /\
    Flight.run_slept r = [5000; 5000] /\
    Flight.run_calls r = 2%nat.
Proof.
  let r := eval vm_compute in
           (fetchWithAuth.run fetchWithAuth.init_state
              ([fetchWithAuth.Call "https://example.org/a" None;
                fetchWithAuth.Settle 0 (inl Sample.denied)]
               ++ Scenario.refresh_down)) in
  match r with
  | Some ?st =>
      let c := eval vm_compute in
               (Flight.runs (fetchWithAuth.flight st) !! 0%nat) in
      match c with
      | Some ?r0 =>
          exists st, r0; split; [reflexivity|]; split; [reflexivity|];
          split; [reflexivity|];
          destruct (fetchWithAuth_refresh_pace
                      ([fetchWithAuth.Call "https://example.org/a" None;
                        fetchWithAuth.Settle 0 (inl Sample.denied)]
                       ++ Scenario.refresh_down) st 0%nat r0 eq_refl eq_refl)
            as (_ & _ & Hcalls);
          exact Hcalls
      end
  end.
Defined.

(** ** More on [fixedRefresh] *)

Section RefreshMore.

Variable interval : option Z.
Implicit Types (s : fixedRefresh.State).

Lemma refresh_run_invariant (P : fixedRefresh.State -> Prop)
    (sch : list fixedRefresh.event) s s' :
  (forall s1 s2 ev, P s1 -> fixedRefresh.step interval s1 ev = Some s2 ->
                    P s2) ->
  P s ->
  fixedRefresh.run interval s sch = Some s' -> P s'.
Proof.
  intros Hstep. revert s.
  induction sch as [|ev sch IH]; intros s HP Hrun; simpl in Hrun.
  - injection Hrun as <-. exact HP.
  - destruct (fixedRefresh.step interval s ev) as [s1|] eqn:Hs;
      [|discriminate].
    apply (IH s1); [apply (Hstep s s1 ev HP Hs)|exact Hrun].
Qed.

(** X17. Until the operation succeeds for the first time no call of the
    accessor returns: on a new instance every call triggers or joins the
    one refresh, whatever the interval and the time, and stays suspended
    while the attempts fail; nothing is cached meanwhile. *)
Theorem fixedRefresh_blocks_until_first_success
    (sch : list fixedRefresh.event) s :
  fixedRefresh.run interval fixedRefresh.init_state sch = Some s ->
  forallb (fun ev => negb (fixedRefresh.completes ev)) sch = true ->
  fixedRefresh.callers s
  = repeat (fixedRefresh.AwaitUpdate 0)
           (length (List.filter fixedRefresh.is_get sch)) /\
  fixedRefresh.res s = VUndefined /\
  (length (Flight.runs (fixedRefresh.flight s)) <= 1)%nat.
Proof.
  intros Hrun Hall.
  assert (Hone : refreshing fixedRefresh.init_state fixedRefresh.init_state
                   0 0).
  { repeat split. left. auto. }
  destruct (Refresh_one_run interval sch fixedRefresh.init_state
              fixedRefresh.init_state s 0 0 single_flight_empty eq_refl
              Hone Hrun Hall)
    as (Hruns & Hres & _ & Hcallers).
  { intros now _. apply orb_true_r. }
  split; [exact Hcallers|]. split; [exact Hres|].
  destruct Hruns as [[_ ->]|(_ & r & -> & _)]; simpl; lia.
Qed.

(** X18. The accessor only ever returns what the operation produced:
    the value a call has returned is the value some refresh resolved
    with, never the [undefined] the closure starts with; and the cached
    value is either that initial [undefined] or such a value. *)
Theorem fixedRefresh_returns_produced_values
    (sch : list fixedRefresh.event) s :
  fixedRefresh.run interval fixedRefresh.init_state sch = Some s ->
  (fixedRefresh.res s = VUndefined \/
   produced (fixedRefresh.flight s) (fixedRefresh.res s)) /\
  forall c v, fixedRefresh.callers s !! c = Some (fixedRefresh.Done v) ->
              produced (fixedRefresh.flight s) v.
Proof.
  apply (refresh_run_invariant
           (fun s0 =>
              (fixedRefresh.res s0 = VUndefined \/
               produced (fixedRefresh.flight s0) (fixedRefresh.res s0)) /\
              forall c v,
                fixedRefresh.callers s0 !! c = Some (fixedRefresh.Done v) ->
                produced (fixedRefresh.flight s0) v)
           sch fixedRefresh.init_state s);
    [|split; [left; reflexivity|intros c v H; discriminate]].
  intros s1 s2 ev [Hres Hdone] Hs.
  destruct ev as [now|p v now|p e|p]; simpl in Hs.
  - injection Hs as <-. unfold fixedRefresh.get, fixedRefresh.update.
    destruct (fixedRefresh.stale interval now s1) eqn:Hstale.
    + destruct (Flight.update (fixedRefresh.flight s1)) as [q fl] eqn:Hupd.
      assert (Hmono : forall v, produced (fixedRefresh.flight s1) v ->
                                produced fl v).
      { intros v Hv. pose proof (produced_update _ v Hv) as H.
        rewrite Hupd in H. exact H. }
      simpl. split.
      * destruct Hres as [Hu|Hp]; [left; exact Hu|right; apply Hmono, Hp].
      * intros c v Hc.
        apply lookup_app_Some in Hc as [Hold|[_ Hnew]].
        -- apply Hmono, (Hdone c v Hold).
        -- destruct (c - length (fixedRefresh.callers s1))%nat; discriminate.
    + simpl. split; [exact Hres|]. intros c v Hc.
      apply lookup_app_Some in Hc as [Hold|[_ Hnew]].
      * apply (Hdone c v Hold).
      * destruct (c - length (fixedRefresh.callers s1))%nat; [|discriminate].
        injection Hnew as <-.
        destruct Hres as [Hu|Hp]; [|exact Hp].
        unfold fixedRefresh.stale in Hstale. rewrite Hu in Hstale.
        simpl in Hstale. rewrite orb_true_r in Hstale. discriminate.
  - unfold fixedRefresh.refreshed in Hs.
    destruct (Flight.fulfil p v (fixedRefresh.flight s1)) as [fl|] eqn:Hful;
      [|discriminate].
    injection Hs as <-. simpl.
    destruct (produced_fulfil p v _ fl Hful) as [Hnew Hmono].
    split; [right; exact Hnew|].
    intros c v' Hc. rewrite list_lookup_fmap in Hc.
    destruct (fixedRefresh.callers s1 !! c) as [[q|w]|] eqn:Hcl;
      simpl in Hc; try discriminate.
    + destruct (Nat.eqb q p); [|discriminate].
      injection Hc as <-. exact Hnew.
    + injection Hc as <-. apply Hmono, (Hdone c w Hcl).
  - destruct (Flight.on_run _ p _) as [fl|] eqn:Hr; [|discriminate].
    injection Hs as <-. simpl.
    assert (Hmono : forall v, produced (fixedRefresh.flight s1) v ->
                              produced fl v).
    { intros v Hv.
      apply (produced_on_run _ p _ fl v
               (fun r r' H => proj1 (throw_keeps_flight e r r' H)) Hr Hv). }
    split.
    + destruct Hres as [Hu|Hp]; [left; exact Hu|right; apply Hmono, Hp].
    + intros c v Hc. apply Hmono, (Hdone c v Hc).
  - destruct (Flight.on_run _ p _) as [fl|] eqn:Hr; [|discriminate].
    injection Hs as <-. simpl.
    assert (Hmono : forall v, produced (fixedRefresh.flight s1) v ->
                              produced fl v).
    { intros v Hv.
      apply (produced_on_run _ p _ fl v
               (fun r r' H => proj1 (wake_keeps_flight r r' H)) Hr Hv). }
    split.
    + destruct Hres as [Hu|Hp]; [left; exact Hu|right; apply Hmono, Hp].
    + intros c v Hc. apply Hmono, (Hdone c v Hc).
Qed.

(** X19. The operation is always retried at the default pace, whatever
    the refresh interval of the instance: every run took no interval,
    waited 5000 ms before each retry, and has invoked the operation once
    to begin with and once after each delay. *)
Theorem fixedRefresh_retry_pace (sch : list fixedRefresh.event) s
    (p : nat) (r : Flight.Run jsval) :
  fixedRefresh.run interval fixedRefresh.init_state sch = Some s ->
  Flight.runs (fixedRefresh.flight s) !! p = Some r ->
  Flight.run_interval r = None /\
  Forall (fun d => d = 5000) (Flight.run_slept r) /\
  Flight.run_calls r
  = (length (Flight.run_slept r)
     + match Flight.run_status_of r with
       | Flight.Sleeping => 0
       | _ => 1
       end)%nat.
Proof.
  intros Hrun Hp.
  assert (Hall : Forall paced (Flight.runs (fixedRefresh.flight s))).
  { apply (refresh_run_invariant
             (fun s0 => Forall paced (Flight.runs (fixedRefresh.flight s0)))
             sch fixedRefresh.init_state s); [|constructor|exact Hrun].
    intros s1 s2 ev HP Hs.
    destruct ev as [now|q v now|q e|q]; simpl in Hs.
    - injection Hs as <-. unfold fixedRefresh.get, fixedRefresh.update.
      destruct (fixedRefresh.stale interval now s1); [|exact HP].
      pose proof (paced_update _ HP) as H.
      destruct (Flight.update (fixedRefresh.flight s1)). exact H.
    - unfold fixedRefresh.refreshed in Hs.
      destruct (Flight.fulfil q v (fixedRefresh.flight s1)) as [fl|] eqn:Hful;
        [|discriminate].
      injection Hs as <-. simpl. apply (paced_fulfil q v _ fl HP Hful).
    - destruct (Flight.on_run _ q _) as [fl|] eqn:Hr; [|discriminate].
      injection Hs as <-. simpl.
      apply (paced_on_run _ q _ fl (paced_throw e) HP Hr).
    - destruct (Flight.on_run _ q _) as [fl|] eqn:Hr; [|discriminate].
      injection Hs as <-. simpl.
      apply (paced_on_run _ q _ fl paced_wake HP Hr). }
  rewrite Forall_lookup in Hall. apply (Hall p r Hp).
Qed.

End RefreshMore.

Lemma fixedRefresh_blocks_until_first_success_witness :
  exists s,
    fixedRefresh.run (Some 1) fixedRefresh.init_state Scenario.operation_down
    = Some s /\
    fixedRefresh.callers s = repeat (fixedRefresh.AwaitUpdate 0) 3 /\
    fixedRefresh.res s = VUndefined.
Proof.
  let r := eval vm_compute in
           (fixedRefresh.run (Some 1) fixedRefresh.init_state
              Scenario.operation_down) in
  match r with
  | Some ?st =>
      exists st; split; [reflexivity|];
      destruct (fixedRefresh_blocks_until_first_success (Some 1)
                  Scenario.operation_down st eq_refl eq_refl)
        as (Hcallers & Hres & _);
      split; [exact Hcallers|exact Hres]
  end.
Defined.

Lemma fixedRefresh_returns_produced_values_witness :
  exists s,
    fixedRefresh.run (Some 1) fixedRefresh.init_state Sample.cached_then_stale
    = Some s /\
    forall c v, fixedRefresh.callers s !! c = Some (fixedRefresh.Done v) ->
                produced (fixedRefresh.flight s) v.
Proof.
  let r := eval vm_compute in
           (fixedRefresh.run (Some 1) fixedRefresh.init_state
              Sample.cached_then_stale) in
  match r with
  | Some ?st =>
      exists st; split; [reflexivity|];
      destruct (fixedRefresh_returns_produced_values (Some 1)
                  Sample.cached_then_stale st eq_refl) as [_ Hdone];
      exact Hdone
  end.
Defined.

Lemma fixedRefresh_retry_pace_witness :
  exists s r,
    fixedRefresh.run (Some 1) fixedRefresh.init_state Scenario.operation_down
    = Some s /\
    Flight.runs (fixedRefresh.flight s) !! 0%nat = Some r /\
    Flight.run_slept r = [5000; 5000] /\
    Flight.run_calls r = 2%nat.
Proof.
  let r := eval vm_compute in
           (fixedRefresh.run (Some 1) fixedRefresh.init_state
              Scenario.operation_down) in
  match r with
  | Some ?st =>
      let c := eval vm_compute in
               (Flight.runs (fixedRefresh.flight st) !! 0%nat) in
      match c with
      | Some ?r0 =>
          exists st, r0; split; [reflexivity|]; split; [reflexivity|];
          split; [reflexivity|];
          destruct (fixedRefresh_retry_pace (Some 1) Scenario.operation_down
                      st 0%nat r0 eq_refl eq_refl) as (_ & _ & Hcalls);
          exact Hcalls
      end
  end.
Defined.

(** ** [fixedRefresh] and falsy values *)

(** X20. A falsy value is not served from the cache.  [!res] holds of
    [undefined], [null], [false], [0], [NaN] and the empty string, and of
    nothing else.  While [res] is one of them, a call of the accessor,
    whenever it is made, awaits a refresh: the one in flight, or a new
    one, which invokes the operation.  So once a run has resolved with
    such a value, the next call invokes the operation again, however soon
    it is made. *)
Theorem fixedRefresh_refetches_falsy_value (interval : option Z) :
  (forall v, truthy v = false <-> In v falsy_values) /\
  (forall s now,
     In (fixedRefresh.res s) falsy_values ->
     exists s' p,
       fixedRefresh.step interval s (fixedRefresh.Get now) = Some s' /\
       fixedRefresh.callers s'
       = fixedRefresh.callers s ++ [fixedRefresh.AwaitUpdate p] /\
       Flight.promise (fixedRefresh.flight s') = Some p /\
       match Flight.promise (fixedRefresh.flight s) with
       | Some _ => fixedRefresh.flight s' = fixedRefresh.flight s
       | None =>
           p = length (Flight.runs (fixedRefresh.flight s)) /\
           Flight.runs (fixedRefresh.flight s')
           = Flight.runs (fixedRefresh.flight s) ++ [Flight.run_start None]
           /\
           Flight.total_calls (fixedRefresh.flight s')
           = S (Flight.total_calls (fixedRefresh.flight s))
       end) /\
  (forall s0 p v t1 s now,
     fixedRefresh.step interval s0 (fixedRefresh.FunReturns p v t1) = Some s ->
     In v falsy_values ->
     exists s',
       fixedRefresh.step interval s (fixedRefresh.Get now) = Some s' /\
       fixedRefresh.callers s'
       = fixedRefresh.callers s
         ++ [fixedRefresh.AwaitUpdate
               (length (Flight.runs (fixedRefresh.flight s)))] /\
       Flight.total_calls (fixedRefresh.flight s')
       = S (Flight.total_calls (fixedRefresh.flight s))).
Proof.
  assert (Hget : forall s now,
             In (fixedRefresh.res s) falsy_values ->
             fixedRefresh.step interval s (fixedRefresh.Get now)
             = Some (fixedRefresh.update s)).
  { intros s now Hv. apply truthy_false_iff in Hv. simpl.
    unfold fixedRefresh.get, fixedRefresh.stale. rewrite Hv.
    rewrite orb_true_r. reflexivity. }
  split; [exact truthy_false_iff|]. split.
  - intros s now Hv. rewrite (Hget s now Hv).
    unfold fixedRefresh.update, Flight.update.
    destruct (fixedRefresh.flight s) as [pr rs]. simpl.
    destruct pr as [q|]; eexists; eexists; (split; [reflexivity|]); simpl;
      (split; [reflexivity|]); (split; [reflexivity|]).
    + reflexivity.
    + split; [reflexivity|]. split; [reflexivity|].
      unfold Flight.total_calls. simpl.
      rewrite map_app, list_sum_app. simpl. lia.
  - intros s0 p v t1 s now Hstep Hv.
    simpl in Hstep. unfold fixedRefresh.refreshed, Flight.fulfil in Hstep.
    destruct (Flight.on_run (Flight.run_return v) p (fixedRefresh.flight s0))
      as [fl|]; [|discriminate].
    injection Hstep as <-.
    rewrite (Hget _ now) by exact Hv.
    unfold fixedRefresh.update, Flight.update. simpl.
    eexists. split; [reflexivity|]. simpl. split; [reflexivity|].
    unfold Flight.total_calls. simpl.
    rewrite map_app, list_sum_app. simpl. lia.
Qed.

Lemma fixedRefresh_refetches_falsy_value_witness :
  exists s s',
    fixedRefresh.run (Some 300) fixedRefresh.init_state
      [fixedRefresh.Get 1000;
       fixedRefresh.FunReturns 0 (VNum (Num 0)) 1001] = Some s /\
    1002 - 1001 < 300 * 1000 /\
    fixedRefresh.step (Some 300) s (fixedRefresh.Get 1002) = Some s' /\
    fixedRefresh.callers s'
    = [fixedRefresh.Done (VNum (Num 0)); fixedRefresh.AwaitUpdate 1] /\
    Flight.total_calls (fixedRefresh.flight s') = 2%nat.
Proof.
  let r := eval vm_compute in
           (fixedRefresh.run (Some 300) fixedRefresh.init_state
              [fixedRefresh.Get 1000]) in
  match r with
  | Some ?st0 =>
      let r1 := eval vm_compute in
                (fixedRefresh.step (Some 300) st0
                   (fixedRefresh.FunReturns 0 (VNum (Num 0)) 1001)) in
      match r1 with
      | Some ?st =>
          destruct (fixedRefresh_refetches_falsy_value (Some 300))
            as (_ & _ & Hagain);
          destruct (Hagain st0 0%nat (VNum (Num 0)) 1001 st 1002 eq_refl)
            as (s' & Hstep & Hcallers & Htotal);
          [unfold falsy_values; simpl; auto 10|];
          exists st, s'; split; [reflexivity|]; split; [lia|];
          split; [exact Hstep|]; split; [exact Hcallers|exact Htotal]
      end
  end.
Defined.
